(** * glycerine/pq: a time-ordered priority queue and a ring buffer of frames

    Shallow embedding of [pq.go] and [tfbuf.go].  Go's [int] is taken at its
    64-bit width, with wrap-around written out; run-time panics (index or
    slice bounds, division by zero) are explicit results; slices carry their
    capacity; a slice passed to the ring buffer may share cells with the
    buffer's array; the [*Pqe] entries of the queue live in a store addressed
    by pointers, because the queue and its callers share them. *)

From Stdlib Require Import Sorted.
From stdpp Require Import base numbers list option.

Local Open Scope Z_scope.

(** ** Go integers *)

Definition min_int : Z := - 2 ^ 63.
Definition max_int : Z := 2 ^ 63 - 1.

(** Two's-complement wrap-around of a 64-bit signed [int]. *)
Definition wrap (x : Z) : Z := (x + 2 ^ 63) mod 2 ^ 64 - 2 ^ 63.

Definition add64 (a b : Z) : Z := wrap (a + b).
Definition sub64 (a b : Z) : Z := wrap (a - b).
Definition mul64 (a b : Z) : Z := wrap (a * b).

Definition in_int (x : Z) : Prop := min_int <= x <= max_int.

(** The largest allocation of the Go runtime ([maxAlloc]) where the heap
    has 48 address bits, as on linux/amd64. *)
Definition max_alloc : Z := 2 ^ 48.

(** ** Panics and results *)

Inductive RuntimeError : Set :=
| IndexOutOfRange
| SliceBoundsOutOfRange
| DivideByZero
| MakeLenOutOfRange
| NilDereference.

(** The outcome of running a Go function: it returns, it panics, or the
    bounded unrolling of one of its loops was too short. *)
Inductive result (A : Type) : Type :=
| Ok (a : A)
| Panic (e : RuntimeError)
| OutOfFuel.
Arguments Ok {A} a.
Arguments Panic {A} e.
Arguments OutOfFuel {A}.

Definition result_bind {A B} (f : A -> result B) (m : result A) : result B :=
  match m with
  | Ok a => f a
  | Panic e => Panic e
  | OutOfFuel => OutOfFuel
  end.

#[global] Instance result_mbind : MBind result := @result_bind.
#[global] Instance result_mret : MRet result := @Ok.

(** Go's [/] and [%] on [int]: truncated, and a zero divisor panics. *)
Definition div64 (a b : Z) : result Z :=
  if decide (b = 0) then Panic DivideByZero else Ok (wrap (Z.quot a b)).
Definition rem64 (a b : Z) : result Z :=
  if decide (b = 0) then Panic DivideByZero else Ok (Z.rem a b).

(** The error values of package [io] that the buffer returns. *)
Inductive error : Set :=
| EOF
| ErrShortWrite.

(** The kinds of error that the specification tells apart, and the kind each
    error value of the code is. *)
Inductive ErrorKind : Set :=
| EmptyQueue
| StaleHandle
| BufferExhausted
| BufferFull
| ShortWrite.

Definition kind_of (e : error) : ErrorKind :=
  match e with
  | EOF => BufferExhausted
  | ErrShortWrite => ShortWrite
  end.

(** [a[i]] on a list that stands for a slice of that length. *)
Definition index {A} (l : list A) (i : Z) : result A :=
  if decide (0 <= i) then
    match l !! Z.to_nat i with
    | Some x => Ok x
    | None => Panic IndexOutOfRange
    end
  else Panic IndexOutOfRange.

(** ** The ring buffer of [tfbuf.go] *)

Section RingBuffer.

(** [*tm.Frame]: the frame type belongs to package [tmframe]; the buffer only
    moves such pointers around.  [nil_frame] is the zero value [make] fills
    a fresh array with. *)
Variable Frame : Type.
Variable nil_frame : Frame.

(** A slice [[]*tm.Frame]: [backing] is the underlying array from the
    slice's first element up to its capacity, [slen] its length. *)
Record slice : Type := Slice {
  backing : list Frame;
  slen : nat
}.

Definition len (s : slice) : Z := Z.of_nat (slen s).
Definition cap (s : slice) : Z := Z.of_nat (length (backing s)).
Definition elems (s : slice) : list Frame := take (slen s) (backing s).

(** [make([]*tm.Frame, n, n)]: the runtime panics with "makeslice: len out
    of range" when [n] is negative or the [n] pointers, of 8 bytes each,
    take more than [max_alloc] bytes. *)
Definition make (n : Z) : result slice :=
  if decide (0 <= n /\ 8 * n <= max_alloc) then
    Ok {| backing := replicate (Z.to_nat n) nil_frame; slen := Z.to_nat n |}
  else Panic MakeLenOutOfRange.

(** The slice expression [a[lo:hi]]: for a slice operand the upper bound is
    the capacity, not the length. *)
Definition reslice (a : slice) (lo hi : Z) : result slice :=
  if decide (0 <= lo /\ lo <= hi /\ hi <= cap a) then
    Ok {| backing := drop (Z.to_nat lo) (backing a); slen := Z.to_nat (hi - lo) |}
  else Panic SliceBoundsOutOfRange.

(** The builtin [copy(dst, src)], from the elements the two slices hold when
    it is called: the new elements of [dst] and the number of elements
    copied.  The builtin copies as if through a temporary, so this is also
    what it does when the two slices overlap. *)
Definition copy (dst src : list Frame) : list Frame * Z :=
  let k := Nat.min (length dst) (length src) in
  (take k src ++ drop k dst, Z.of_nat k).

(** Writing the elements [d] of the view [a[lo:...]] back into [a]. *)
Definition store_view (a : slice) (lo : Z) (d : list Frame) : slice :=
  {| backing := take (Z.to_nat lo) (backing a) ++ d
                ++ drop (Z.to_nat lo + length d) (backing a);
     slen := slen a |}.

(** [k := copy(a[lo:hi], src)], as seen from [a]. *)
Definition copy_into (a : slice) (lo hi : Z) (src : list Frame) : result (slice * Z) :=
  v ← reslice a lo hi;
  let '(d, k) := copy (elems v) src in
  Ok (store_view a lo d, k).

(** *** The caller's slice

    The slice [p] that a caller passes to a read or a write, as it lies in
    memory relative to the array of the buffer: [joint] of its elements are
    cells of that array, from index [joint_at] of [backing] on; the elements
    in front of them ([ahead]) and behind them ([behind]) are cells that the
    buffer cannot reach.  [Own l] is a slice that shares no cell with the
    buffer; [a[lo:hi]] of the buffer's own array [a] is
    [Operand [] lo (hi - lo) []]. *)
Record operand : Type := Operand {
  ahead : list Frame;
  joint_at : nat;
  joint : nat;
  behind : list Frame
}.

Definition Own (l : list Frame) : operand :=
  {| ahead := l; joint_at := 0; joint := 0; behind := [] |}.

(** [len(p)]. *)
Definition opsize (p : operand) : nat :=
  (length (ahead p) + joint p + length (behind p))%nat.
Definition oplen (p : operand) : Z := Z.of_nat (opsize p).

(** The cells that [p] shares with the array [a] are cells of [a]. *)
Definition op_wf (a : slice) (p : operand) : Prop :=
  (joint_at p + joint p <= length (backing a))%nat.

(** The elements of [p], read from memory. *)
Definition op_vals (a : slice) (p : operand) : list Frame :=
  ahead p ++ take (joint p) (drop (joint_at p) (backing a)) ++ behind p.

(** Memory after the elements of [p] have become [v]: the array, and the
    cells of [p] outside it. *)
Definition op_put (a : slice) (p : operand) (v : list Frame) : slice * operand :=
  (store_view a (Z.of_nat (joint_at p)) (take (joint p) (drop (length (ahead p)) v)),
   {| ahead := take (length (ahead p)) v;
      joint_at := joint_at p;
      joint := joint p;
      behind := drop (length (ahead p) + joint p) v |}).

(** The slice expression [p[k:]], for [k <= len(p)]. *)
Definition op_drop (k : nat) (p : operand) : operand :=
  let k1 := (k - length (ahead p))%nat in
  {| ahead := drop k (ahead p);
     joint_at := (joint_at p + Nat.min k1 (joint p))%nat;
     joint := (joint p - k1)%nat;
     behind := drop (k1 - joint p) (behind p) |}.

(** [k := copy(p[j:], src)], where [src] lists the elements of the source
    when the builtin is called: the array and [p] afterwards, and [k]. *)
Definition copy_to (a : slice) (p : operand) (j : nat) (src : list Frame)
  : slice * operand * Z :=
  let v := op_vals a p in
  let '(d, k) := copy (drop j v) src in
  let '(a, p) := op_put a p (take j v ++ d) in
  (a, p, k).

Record FrameRingBuf : Type := mkFrameRingBuf {
  A : slice;
  N : Z;        (* MaxView, the total size of A, whether or not in use *)
  Beg : Z;      (* start of in-use data in A *)
  Readable : Z  (* number of pointers available in A (in use) *)
}.

Definition NewFrameRingBuf (maxSize : Z) : result FrameRingBuf :=
  let n := maxSize in
  a ← make n;
  Ok {| A := a; N := n; Beg := 0; Readable := 0 |}.

(** Modelled from the spec: [intMin] is called by [RingWriteFrames] but its
    only definition in the sources sits inside a comment block at the end of
    [tfbuf.go]; it is the minimum of its two arguments, as written there. *)
Definition intMin (a b : Z) : Z := if decide (a < b) then a else b.

Definition TwoContig (b : FrameRingBuf) (makeCopy : bool)
  : result (list Frame * list Frame) :=
  let extent := add64 (Beg b) (Readable b) in
  if decide (extent <= N b) then
    first ← reslice (A b) (Beg b) (add64 (Beg b) (Readable b));
    Ok (elems first, [])
  else
    first ← reslice (A b) (Beg b) (add64 (Beg b) (Readable b));
    r ← rem64 extent (N b);
    second ← reslice (A b) 0 r;
    Ok (elems first, elems second).

Definition Advance (b : FrameRingBuf) (n : Z) : result FrameRingBuf :=
  if decide (n <= 0) then Ok b
  else
    let n := if decide (n > Readable b) then Readable b else n in
    let readable := sub64 (Readable b) n in
    beg ← rem64 (add64 (Beg b) n) (N b);
    Ok {| A := A b; N := N b; Beg := beg; Readable := readable |}.

(** The function returns the buffer, the caller's slice [p] afterwards, [n]
    and [err].  Each [copy] writes through [p] into the memory that the
    next one reads: a [p] that shares cells with the array changes the
    array. *)
Definition readAndMaybeAdvance (b : FrameRingBuf) (p : operand) (doAdvance : bool)
  : result (FrameRingBuf * operand * Z * option error) :=
  if decide (oplen p = 0) then Ok (b, p, 0, None)
  else if decide (Readable b = 0) then Ok (b, p, 0, Some EOF)
  else
    let extent := add64 (Beg b) (Readable b) in
    '(a, p, n) ←
      (if decide (extent <= N b) then
         src ← reslice (A b) (Beg b) extent;
         let '(a, p, k) := copy_to (A b) p 0 (elems src) in
         Ok (a, p, add64 0 k)
       else
         src ← reslice (A b) (Beg b) (N b);
         let '(a, p, k) := copy_to (A b) p 0 (elems src) in
         let n := add64 0 k in
         if decide (n < oplen p) then
           r ← rem64 extent (N b);
           src2 ← reslice a 0 r;
           let '(a, p, k2) := copy_to a p (Z.to_nat n) (elems src2) in
           Ok (a, p, add64 n k2)
         else Ok (a, p, n));
    let b := {| A := a; N := N b; Beg := Beg b; Readable := Readable b |} in
    b ← (if doAdvance then Advance b n else Ok b);
    Ok (b, p, n, None).

Definition RingReadFrames (b : FrameRingBuf) (p : operand) :=
  readAndMaybeAdvance b p true.

Definition RingReadWithoutAdvance (b : FrameRingBuf) (p : operand) :=
  readAndMaybeAdvance b p false.

(** The [for] loop of [RingWriteFrames]; every pass that neither returns nor
    panics consumes at least one element of [p].  Each pass reads [p] from
    memory as the passes before it left it. *)
Fixpoint RingWriteFrames_loop (fuel : nat) (b : FrameRingBuf) (p : operand)
    (n : Z) (err : option error) : result (FrameRingBuf * Z * option error) :=
  match fuel with
  | O => OutOfFuel
  | S fuel =>
    if decide (oplen p = 0) then Ok (b, n, err)
    else
      let writeCapacity := sub64 (N b) (Readable b) in
      if decide (writeCapacity <= 0) then Ok (b, n, Some ErrShortWrite)
      else
        let err := if decide (oplen p > writeCapacity)
                   then Some ErrShortWrite else err in
        writeStart ← rem64 (add64 (Beg b) (Readable b)) (N b);
        let upperLim := intMin (add64 writeStart writeCapacity) (N b) in
        '(a, k) ← copy_into (A b) writeStart upperLim (op_vals (A b) p);
        let n := add64 n k in
        let b := {| A := a; N := N b; Beg := Beg b;
                    Readable := add64 (Readable b) k |} in
        let p := op_drop (Z.to_nat k) p in
        RingWriteFrames_loop fuel b p n err
  end.

Definition RingWriteFrames (b : FrameRingBuf) (p : operand)
  : result (FrameRingBuf * Z * option error) :=
  RingWriteFrames_loop (S (opsize p)) b p 0 None.

Definition Reset (b : FrameRingBuf) : FrameRingBuf :=
  {| A := A b; N := N b; Beg := 0; Readable := 0 |}.

Definition Adopt (b : FrameRingBuf) (me : slice) : FrameRingBuf :=
  let n := len me in
  if decide (n > N b) then
    {| A := me; N := n; Beg := 0; Readable := n |}
  else
    let '(d, _) := copy (elems (A b)) (elems me) in
    {| A := store_view (A b) 0 d; N := N b; Beg := 0; Readable := n |}.

(** *** What the buffer stands for *)

(** A pointer slot takes 8 bytes, so an array that exists has fewer than
    [2^60] slots. *)
Definition addressable (s : slice) : Prop :=
  (slen s <= length (backing s))%nat /\ 8 * cap s <= max_int.

(** The data invariant of the buffer. *)
Definition ring_inv (b : FrameRingBuf) : Prop :=
  addressable (A b) /\ len (A b) = N b /\
  0 <= Readable b <= N b /\
  0 <= Beg b /\ (Beg b < N b \/ Beg b = 0).

(** The slot that holds the [i]-th readable element: [(Beg + i) mod N],
    computed without division. *)
Definition slot (b : FrameRingBuf) (i : Z) : Z :=
  if decide (Beg b + i < N b) then Beg b + i else Beg b + i - N b.

(** The readable elements, oldest first: the circular range
    [Beg, Beg+Readable) of the array. *)
Definition contents (b : FrameRingBuf) : list Frame :=
  take (Z.to_nat (Readable b))
       (drop (Z.to_nat (Beg b)) (elems (A b) ++ elems (A b))).

(** [ring_holds b q]: a program reaches the buffer [b] through the exported
    functions, and [q] lists, oldest first, what it has put in and not yet
    taken out.  In the first three calls the slice is the program's own.
    In the last three it is any slice, also one that shares cells with the
    array: the copies then move what the cells hold at that moment, and a
    read overwrites slots of the array through the slice; [q] goes on with
    what the write stored behind it, and after a read with what the
    readable slots then hold. *)
Inductive ring_holds : FrameRingBuf -> list Frame -> Prop :=
| holds_new maxSize b :
    8 * maxSize <= max_int ->
    NewFrameRingBuf maxSize = Ok b -> ring_holds b []
| holds_write b q (p : list Frame) b' n err :
    ring_holds b q -> RingWriteFrames b (Own p) = Ok (b', n, err) ->
    ring_holds b' (q ++ take (Z.to_nat n) p)
| holds_read b q (p : list Frame) b' p' n err :
    ring_holds b q -> RingReadFrames b (Own p) = Ok (b', p', n, err) ->
    ring_holds b' (drop (Z.to_nat n) q)
| holds_peek b q (p : list Frame) b' p' n err :
    ring_holds b q -> RingReadWithoutAdvance b (Own p) = Ok (b', p', n, err) ->
    ring_holds b' q
| holds_advance b q n b' :
    ring_holds b q -> Advance b n = Ok b' ->
    ring_holds b' (drop (Z.to_nat n) q)
| holds_reset b q :
    ring_holds b q -> ring_holds (Reset b) []
| holds_adopt b q me :
    ring_holds b q -> addressable me -> ring_holds (Adopt b me) (elems me)
| holds_write_shared b q p b' n err :
    ring_holds b q -> op_wf (A b) p -> RingWriteFrames b p = Ok (b', n, err) ->
    ring_holds b' (q ++ drop (length q) (contents b'))
| holds_read_shared b q p b' p' n err :
    ring_holds b q -> op_wf (A b) p ->
    RingReadFrames b p = Ok (b', p', n, err) ->
    ring_holds b' (contents b')
| holds_peek_shared b q p b' p' n err :
    ring_holds b q -> op_wf (A b) p ->
    RingReadWithoutAdvance b p = Ok (b', p', n, err) ->
    ring_holds b' (contents b').

End RingBuffer.

Arguments Slice {Frame} _ _.
Arguments backing {Frame} _.
Arguments slen {Frame} _.
Arguments len {Frame} _.
Arguments cap {Frame} _.
Arguments elems {Frame} _.
Arguments make {Frame} _ _.
Arguments reslice {Frame} _ _ _.
Arguments copy {Frame} _ _.
Arguments store_view {Frame} _ _ _.
Arguments copy_into {Frame} _ _ _ _.
Arguments Operand {Frame} _ _ _ _.
Arguments ahead {Frame} _.
Arguments joint_at {Frame} _.
Arguments joint {Frame} _.
Arguments behind {Frame} _.
Arguments Own {Frame} _.
Arguments opsize {Frame} _.
Arguments oplen {Frame} _.
Arguments op_wf {Frame} _ _.
Arguments op_vals {Frame} _ _.
Arguments op_put {Frame} _ _ _.
Arguments op_drop {Frame} _ _.
Arguments copy_to {Frame} _ _ _ _.
Arguments mkFrameRingBuf {Frame} _ _ _ _.
Arguments A {Frame} _.
Arguments N {Frame} _.
Arguments Beg {Frame} _.
Arguments Readable {Frame} _.
Arguments NewFrameRingBuf {Frame} _ _.
Arguments TwoContig {Frame} _ _.
Arguments Advance {Frame} _ _.
Arguments readAndMaybeAdvance {Frame} _ _ _.
Arguments RingReadFrames {Frame} _ _.
Arguments RingReadWithoutAdvance {Frame} _ _.
Arguments RingWriteFrames_loop {Frame} _ _ _ _ _.
Arguments RingWriteFrames {Frame} _ _.
Arguments Reset {Frame} _.
Arguments Adopt {Frame} _ _.
Arguments addressable {Frame} _.
Arguments ring_inv {Frame} _.
Arguments slot {Frame} _ _.
Arguments contents {Frame} _.
Arguments ring_holds {Frame} _ _.

(** ** The priority queue of [pq.go] *)

(** A [*Pqe] is an address in the store of allocated entries; an address
    outside the store stands for [nil]. *)
Abbreviation ptr := nat (only parsing).

Section PriorityQueue.

(** [*tf.Frame] and its method [Tm], the frame's timestamp in nanoseconds,
    belong to package [tmframe]. *)
Variable Frame : Type.
Variable Tm : Frame -> Z.

(** [time.Time] as nanoseconds since the Unix epoch. *)
Definition Time : Type := Z.
Definition Unix (sec nsec : Z) : Time := sec * 1000000000 + nsec.
Definition Before (t u : Time) : bool := bool_decide (t < u).

Record Pqe : Type := mkPqe {
  Val : Frame;
  OrderBy : Time; (* The priority of the item in the queue, earlier first. *)
  Idx : Z         (* The index of the item in the heap. *)
}.

Definition with_Val (v : Frame) (e : Pqe) : Pqe :=
  {| Val := v; OrderBy := OrderBy e; Idx := Idx e |}.
Definition with_OrderBy (t : Time) (e : Pqe) : Pqe :=
  {| Val := Val e; OrderBy := t; Idx := Idx e |}.
Definition with_Idx (i : Z) (e : Pqe) : Pqe :=
  {| Val := Val e; OrderBy := OrderBy e; Idx := i |}.


Record PriorityQueue : Type := mkPriorityQueue {
  Seq : list ptr
}.

(** The queue together with the entries it shares with its callers. *)
Record world : Type := mkWorld {
  store : list Pqe;
  queue : PriorityQueue
}.

(** Computations on the world that may panic. *)
Definition M (X : Type) : Type := world -> result (X * world).

Definition M_bind {X Y} (f : X -> M Y) (m : M X) : M Y :=
  fun w =>
    match m w with
    | Ok (x, w') => f x w'
    | Panic e => Panic e
    | OutOfFuel => OutOfFuel
    end.
Definition M_ret {X} (x : X) : M X := fun w => Ok (x, w).

#[global] Instance M_mbind : MBind M := @M_bind.
#[global] Instance M_mret : MRet M := @M_ret.

Definition lift {X} (r : result X) : M X :=
  fun w =>
    match r with
    | Ok x => Ok (x, w)
    | Panic e => Panic e
    | OutOfFuel => OutOfFuel
    end.

Definition out_of_fuel {X} : M X := fun _ => OutOfFuel.

(** [*p], [p.field = ...] and [&Pqe{...}]. *)
Definition load (p : ptr) : M Pqe :=
  fun w =>
    match store w !! p with
    | Some e => Ok (e, w)
    | None => Panic NilDereference
    end.
Definition modify (p : ptr) (f : Pqe -> Pqe) : M unit :=
  fun w =>
    match store w !! p with
    | Some e => Ok (tt, {| store := <[p := f e]> (store w); queue := queue w |})
    | None => Panic NilDereference
    end.
Definition new (e : Pqe) : M ptr :=
  fun w => Ok (length (store w), {| store := store w ++ [e]; queue := queue w |}).

Definition getSeq : M (list ptr) := fun w => Ok (Seq (queue w), w).
Definition setSeq (s : list ptr) : M unit :=
  fun w => Ok (tt, {| store := store w; queue := {| Seq := s |} |}).

Definition NewPriorityQueue : PriorityQueue := {| Seq := [] |}.

Definition First : M ptr :=
  s ← getSeq; lift (index s 0).

Definition Len : M Z :=
  s ← getSeq; mret (Z.of_nat (length s)).

Definition Less (i j : Z) : M bool :=
  s ← getSeq; a ← lift (index s i); ea ← load a;
  s ← getSeq; b ← lift (index s j); eb ← load b;
  mret (Before (OrderBy ea) (OrderBy eb)).

Definition Swap (i j : Z) : M unit :=
  s ← getSeq;
  x ← lift (index s j);
  y ← lift (index s i);
  setSeq (<[Z.to_nat j := y]> (<[Z.to_nat i := x]> s));;
  s ← getSeq; a ← lift (index s i); modify a (with_Idx i);;
  s ← getSeq; b ← lift (index s j); modify b (with_Idx j).

Definition Push (x : ptr) : M unit :=
  s ← getSeq;
  let n := Z.of_nat (length s) in
  let item := x in
  modify item (with_Idx n);;
  s ← getSeq; setSeq (s ++ [item]).

Definition Pop : M ptr :=
  old ← getSeq;
  let n := Z.of_nat (length old) in
  item ← lift (index old (sub64 n 1));
  modify item (with_Idx (-1));;
  setSeq (take (Z.to_nat (sub64 n 1)) old);;
  mret item.

(** *** Package [container/heap] of the Go standard library, at [*PriorityQueue]

    [pq.go] implements [heap.Interface] and calls [heap.Fix] and
    [heap.Init]; its callers pop with [heap.Pop].  The functions below follow
    [container/heap/heap.go] of the current Go releases, with the interface
    methods bound to the queue's. *)

Fixpoint up_loop (fuel : nat) (j : Z) : M unit :=
  match fuel with
  | O => out_of_fuel
  | S fuel =>
    i ← lift (div64 (sub64 j 1) 2); (* parent *)
    if decide (i = j) then mret tt
    else
      lt ← Less j i;
      if negb lt then mret tt
      else Swap i j;; up_loop fuel i
  end.

Definition up (j : Z) : M unit := up_loop (S (Z.to_nat j)) j.

Fixpoint down_loop (fuel : nat) (i0 i n : Z) : M bool :=
  match fuel with
  | O => out_of_fuel
  | S fuel =>
    let j1 := add64 (mul64 2 i) 1 in
    if decide (j1 >= n \/ j1 < 0) then (* j1 < 0 after int overflow *)
      mret (bool_decide (i > i0))
    else
      let j2 := add64 j1 1 in
      j ← (if decide (j2 < n) then
             lt ← Less j2 j1; mret (if lt : bool then j2 else j1) (* right child *)
           else mret j1) : M Z;
      lt ← Less j i;
      if negb lt then mret (bool_decide (i > i0))
      else Swap i j;; down_loop fuel i0 j n
  end.

Definition down (i0 n : Z) : M bool := down_loop (S (Z.to_nat n)) i0 i0 n.

Fixpoint Init_loop (fuel : nat) (i n : Z) : M unit :=
  match fuel with
  | O => out_of_fuel
  | S fuel =>
    if decide (i >= 0) then down i n;; Init_loop fuel (sub64 i 1) n
    else mret tt
  end.

Definition heap_Init : M unit :=
  n ← Len;
  i ← lift (div64 n 2);
  Init_loop (S (Z.to_nat n)) (sub64 i 1) n.

Definition heap_Push (x : ptr) : M unit :=
  Push x;;
  n ← Len; up (sub64 n 1).

Definition heap_Pop : M ptr :=
  n ← Len;
  let n := sub64 n 1 in
  Swap 0 n;;
  down 0 n;;
  Pop.

Definition heap_Fix (i : Z) : M unit :=
  n ← Len;
  moved ← down i n;
  if negb moved then up i else mret tt.

(** *** The queue's own operations *)

Definition Update (pqe : ptr) (value : Frame) : M unit :=
  modify pqe (with_Val value);;
  modify pqe (with_OrderBy (Unix 0 (Tm value)));;
  e ← load pqe;
  heap_Fix (Idx e).

Definition Add (frame : Frame) : M (ptr * option error) :=
  s ← getSeq;
  pqe ← new {| Val := frame; OrderBy := Unix 0 (Tm frame);
               Idx := Z.of_nat (length s) |};
  s ← getSeq; setSeq (s ++ [pqe]);;
  e ← load pqe;
  heap_Fix (Idx e);;
  mret (pqe, None).

Definition Reinit : M unit := heap_Init.

(** *** Callers: a run of [Add]s, and popping until the queue is empty *)

Fixpoint AddAll (frames : list Frame) : M (list ptr) :=
  match frames with
  | [] => mret []
  | f :: fs =>
    r ← Add f;
    hs ← AddAll fs;
    mret (r.1 :: hs)
  end.

(** [for pq.Len() > 0 { item := heap.Pop(pq); ... item.OrderBy ... }]:
    the entries in the order they come out, each with the key read then. *)
Fixpoint PopAll_loop (fuel : nat) : M (list (ptr * Time)) :=
  match fuel with
  | O => out_of_fuel
  | S fuel =>
    n ← Len;
    if decide (n > 0) then
      item ← heap_Pop;
      e ← load item;
      rest ← PopAll_loop fuel;
      mret ((item, OrderBy e) :: rest)
    else mret []
  end.

Definition PopAll : M (list (ptr * Time)) :=
  n ← Len; PopAll_loop (S (Z.to_nat n)).

(** *** What the queue stands for *)

(** Every entry of [Seq] is allocated and records its own index. *)
Definition idx_inv (w : world) : Prop :=
  forall (i : nat) (p : ptr), Seq (queue w) !! i = Some p ->
    exists e, store w !! p = Some e /\ Idx e = Z.of_nat i.

(** The order key of the entry at an address. *)
Definition key (w : world) (p : ptr) : Time :=
  default 0 (OrderBy <$> store w !! p).

Definition keys (w : world) : list Time := key w <$> Seq (queue w).

(** The slice is one that exists: its length is an [int]. *)
Definition sized (w : world) : Prop :=
  Z.of_nat (length (Seq (queue w))) <= max_int.

(** What the entries carry besides their index. *)
Definition payloads (w : world) : list (Frame * Time) :=
  (fun e => (Val e, OrderBy e)) <$> store w.

(** The entry at address [p] is in the queue. *)
Definition resident (w : world) (p : ptr) : Prop :=
  exists i : nat, Seq (queue w) !! i = Some p.

End PriorityQueue.

Arguments mkPqe {Frame} _ _ _.
Arguments Val {Frame} _.
Arguments OrderBy {Frame} _.
Arguments Idx {Frame} _.
Arguments with_Val {Frame} _ _.
Arguments with_OrderBy {Frame} _ _.
Arguments with_Idx {Frame} _ _.
Arguments mkWorld {Frame} _ _.
Arguments store {Frame} _.
Arguments queue {Frame} _.
Arguments M_bind {Frame X Y} _ _ _.
Arguments M_ret {Frame X} _ _.
Arguments lift {Frame X} _ _.
Arguments out_of_fuel {Frame X} _.
Arguments load {Frame} _ _.
Arguments modify {Frame} _ _ _.
Arguments new {Frame} _ _.
Arguments getSeq {Frame} _.
Arguments setSeq {Frame} _ _.
Arguments First {Frame} _.
Arguments Len {Frame} _.
Arguments Less {Frame} _ _ _.
Arguments Swap {Frame} _ _ _.
Arguments Push {Frame} _ _.
Arguments Pop {Frame} _.
Arguments up_loop {Frame} _ _ _.
Arguments up {Frame} _ _.
Arguments down_loop {Frame} _ _ _ _ _.
Arguments down {Frame} _ _ _.
Arguments Init_loop {Frame} _ _ _ _.
Arguments heap_Init {Frame} _.
Arguments heap_Push {Frame} _ _.
Arguments heap_Pop {Frame} _.
Arguments heap_Fix {Frame} _ _.
Arguments Update {Frame} _ _ _ _.
Arguments Add {Frame} _ _ _.
Arguments Reinit {Frame} _.
Arguments AddAll {Frame} _ _ _.
Arguments PopAll_loop {Frame} _ _.
Arguments PopAll {Frame} _.
Arguments idx_inv {Frame} _.
Arguments key {Frame} _ _.
Arguments keys {Frame} _.
Arguments sized {Frame} _.
Arguments payloads {Frame} _.
Arguments resident {Frame} _ _.

(** *** Heap order on the list of keys *)

Definition is_child (p c : nat) : Prop := (c = 2 * p + 1 \/ c = 2 * p + 2)%nat.

Definition kth (ks : list Z) (i : nat) : Z := default 0 (ks !! i).

(** Min-heap order on the first [n] keys, for the parents from [lo] on. *)
Definition heap_from (lo n : nat) (ks : list Z) : Prop :=
  forall p c, (lo <= p)%nat -> is_child p c -> (c < n)%nat ->
    kth ks p <= kth ks c.

Definition heap_ordered (ks : list Z) : Prop := heap_from 0 (length ks) ks.

(** The invariant of the queue: the entries know their index, the slice has
    a length, and the keys are in heap order. *)
Definition heap_inv {Frame} (w : world Frame) : Prop :=
  idx_inv w /\ sized w /\ heap_ordered (keys w).

(** The order that holds while [down] sifts the key at [i]: every parent but
    [i] is below its children, and the parent of [i] is below the children
    of [i]. *)
Definition down_inv (lo i n : nat) (ks : list Z) : Prop :=
  (forall p c, (lo <= p)%nat -> p <> i -> is_child p c -> (c < n)%nat ->
     kth ks p <= kth ks c) /\
  (forall g c, (lo <= g)%nat -> is_child g i -> is_child i c -> (c < n)%nat ->
     kth ks g <= kth ks c).

(** The order that holds while [up] sifts the key at [j]: every child but
    [j] is above its parent, and the children of [j] are above its parent. *)
Definition up_inv (j n : nat) (ks : list Z) : Prop :=
  (forall p c, c <> j -> is_child p c -> (c < n)%nat -> kth ks p <= kth ks c) /\
  (forall g c, is_child g j -> is_child j c -> (c < n)%nat ->
     kth ks g <= kth ks c).

(** The order left when the key at [i] has been replaced: what [heap.Fix]
    starts from. *)
Definition fix_inv (i n : nat) (ks : list Z) : Prop :=
  (forall p c, p <> i -> c <> i -> is_child p c -> (c < n)%nat ->
     kth ks p <= kth ks c) /\
  (forall g c, is_child g i -> is_child i c -> (c < n)%nat ->
     kth ks g <= kth ks c).

(** The key at [i] is below the keys of its children. *)
Definition below_children (i n : nat) (ks : list Z) : Prop :=
  forall c, is_child i c -> (c < n)%nat -> kth ks i <= kth ks c.

(** The list with the elements at [i] and [j] exchanged. *)
Definition list_swap {X} (i j : nat) (l : list X) : list X :=
  match l !! i, l !! j with
  | Some x, Some y => <[j := x]> (<[i := y]> l)
  | _, _ => l
  end.

(** ** The test of the queue, [Test001PqSorts]

    The frames come from [GenTestFrames], which builds them with package
    [tmframe]; here they are any list of frames, and [n] is its length (the
    test fixes [n = 100]).  Each [So(...)] is recorded as a boolean. *)

Section TestFile.

Variable Frame : Type.
Variable Tm : Frame -> Z.

(** [for i := range frames { pq.Add(frames[m-i]) }], over the indices left. *)
Fixpoint add_descending (frames : list Frame) (m : Z) (idxs : list Z)
  : M Frame unit :=
  match idxs with
  | [] => mret tt
  | i :: idxs =>
    f ← lift (index frames (sub64 m i));
    Add Tm f;;
    add_descending frames m idxs
  end.

(** [for pq.Len() > 0 { item := heap.Pop(pq);
      So(!item.OrderBy.Before(prevTm), ShouldBeTrue); prevTm = item.OrderBy }] *)
Fixpoint pop_checked (fuel : nat) (prevTm : Time) : M Frame (list bool) :=
  match fuel with
  | O => out_of_fuel
  | S fuel =>
    n ← Len;
    if decide (n > 0) then
      item ← heap_Pop;
      e ← load item;
      rest ← pop_checked fuel (OrderBy e);
      mret (negb (Before (OrderBy e) prevTm) :: rest)
    else mret []
  end.

Definition Test001PqSorts (frames : list Frame) : M Frame (list bool) :=
  let n := Z.of_nat (length frames) in
  setSeq (Seq NewPriorityQueue);;
  let m := sub64 n 1 in
  add_descending frames m (seqZ 0 n);;
  (* modify a priority with Update *)
  f0 ← lift (index frames 0);
  r ← Add Tm f0;
  let errIsNil := match r.2 with None => true | Some _ => false end in
  fl ← lift (index frames (sub64 n 1));
  Update Tm r.1 fl;;
  (* take the items out *)
  p ← First;
  e ← load p;
  len ← Len;
  checks ← pop_checked (S (Z.to_nat len)) (OrderBy e);
  mret (errIsNil :: checks).

End TestFile.

Arguments add_descending {Frame} _ _ _ _.
Arguments pop_checked {Frame} _ _.
Arguments Test001PqSorts {Frame} _ _.

(** ** Arithmetic facts *)

Lemma wrap_id x : in_int x -> wrap x = x.
Proof.
  unfold in_int, min_int, max_int, wrap. intros H.
  Z.to_euclidean_division_equations; lia.
Qed.

Lemma wrap_range x : in_int (wrap x).
Proof.
  unfold in_int, min_int, max_int, wrap.
  Z.to_euclidean_division_equations; lia.
Qed.

Lemma rem_wrapped j n : 0 < n -> n <= j < 2 * n -> Z.rem j n = j - n.
Proof.
  intros Hn Hj. rewrite Z.rem_mod_nonneg by lia.
  symmetry. apply (Z.mod_unique_pos j n 1); lia.
Qed.

Lemma mod_wrapped j n : 0 < n -> n <= j < 2 * n -> j mod n = j - n.
Proof.
  intros Hn Hj. symmetry. apply (Z.mod_unique_pos j n 1); lia.
Qed.

(** ** Facts about slices and the ring buffer *)

Section RingFacts.

Context {Frame : Type}.
Implicit Types (b : FrameRingBuf Frame) (a me : slice Frame) (p : operand Frame)
  (l : list Frame).

Lemma length_elems a :
  (slen a <= length (backing a))%nat -> length (elems a) = slen a.
Proof. intros H. unfold elems. rewrite length_take. lia. Qed.

Lemma ring_inv_length b :
  ring_inv b -> Z.of_nat (length (elems (A b))) = N b.
Proof.
  intros ([Hs _] & Hlen & _). rewrite length_elems by done. exact Hlen.
Qed.

Lemma ring_inv_bound b : ring_inv b -> 8 * N b <= max_int.
Proof.
  intros ([Hs Hc] & Hlen & _). unfold len, cap in *. lia.
Qed.

(** A slice expression within the length of [a] succeeds and views the
    elements of [a] between its bounds. *)
Lemma reslice_within a lo hi :
  (slen a <= length (backing a))%nat -> 0 <= lo <= hi -> hi <= len a ->
  exists v, reslice a lo hi = Ok v /\
    elems v = take (Z.to_nat (hi - lo)) (drop (Z.to_nat lo) (elems a)).
Proof.
  intros Hs Hlo Hhi. unfold reslice, len, cap in *.
  rewrite decide_True by lia. eexists; split; [done|].
  unfold elems; simpl. rewrite take_drop_commute, take_drop_commute.
  rewrite take_take. do 2 f_equal. lia.
Qed.

Lemma contents_straight b :
  ring_inv b -> Beg b + Readable b <= N b ->
  contents b = take (Z.to_nat (Readable b)) (drop (Z.to_nat (Beg b)) (elems (A b))).
Proof.
  intros Hinv Hfit. pose proof (ring_inv_length b Hinv) as HN.
  destruct Hinv as (_ & _ & HR & HB & _). unfold contents.
  rewrite drop_app_le by lia. rewrite take_app_le; [done|].
  rewrite length_drop. lia.
Qed.

Lemma contents_wrapped b :
  ring_inv b -> N b < Beg b + Readable b ->
  contents b = drop (Z.to_nat (Beg b)) (elems (A b))
               ++ take (Z.to_nat (Beg b + Readable b - N b)) (elems (A b)).
Proof.
  intros Hinv Hfit. pose proof (ring_inv_length b Hinv) as HN.
  destruct Hinv as (_ & _ & HR & HB & HB'). unfold contents.
  rewrite drop_app_le by lia. rewrite take_app_ge by (rewrite length_drop; lia).
  rewrite length_drop. do 2 f_equal. lia.
Qed.

Lemma length_contents b :
  ring_inv b -> Z.of_nat (length (contents b)) = Readable b.
Proof.
  intros Hinv. pose proof (ring_inv_length b Hinv) as HN.
  destruct Hinv as (_ & _ & HR & HB & HB'). unfold contents.
  rewrite length_take, length_drop, length_app. lia.
Qed.

(** The [i]-th readable element sits in slot [(Beg + i) mod N]. *)
Lemma contents_lookup b (i : nat) :
  ring_inv b ->
  contents b !! i =
    if decide (Z.of_nat i < Readable b)
    then elems (A b) !! Z.to_nat (slot b (Z.of_nat i)) else None.
Proof.
  intros Hinv. pose proof (ring_inv_length b Hinv) as HN.
  destruct Hinv as (_ & _ & HR & HB & HB'). unfold contents, slot.
  rewrite lookup_take. repeat case_decide; try lia; try done.
  - rewrite lookup_drop, lookup_app_l by lia. f_equal. lia.
  - rewrite lookup_drop, lookup_app_r by lia. f_equal. lia.
Qed.

Lemma slot_mod b i :
  ring_inv b -> 0 <= i < N b -> slot b i = (Beg b + i) mod N b.
Proof.
  intros (_ & _ & HR & HB & HB') Hi. unfold slot. case_decide.
  - symmetry. apply Z.mod_small. lia.
  - symmetry. apply mod_wrapped; lia.
Qed.

Lemma rem_slot b m :
  ring_inv b -> 0 < N b -> 0 <= m <= N b ->
  Z.rem (Beg b + m) (N b) = slot b m.
Proof.
  intros (_ & _ & HR & HB & HB') HN Hm. unfold slot. case_decide.
  - apply Z.rem_small. lia.
  - apply rem_wrapped; lia.
Qed.

Lemma bind_Ok {X Y} (x : X) (f : X -> result Y) : (Ok x ≫= f) = f x.
Proof. done. Qed.

Lemma rem64_ok x n : n <> 0 -> rem64 x n = Ok (Z.rem x n).
Proof. intros Hn. unfold rem64. by rewrite decide_False. Qed.

Ltac unwrap :=
  unfold add64, sub64, mul64;
  rewrite ?wrap_id by (unfold in_int, min_int, max_int in *; lia).

Lemma Advance_spec b n :
  ring_inv b -> 0 < N b \/ n <= 0 ->
  let m := Z.max 0 (Z.min n (Readable b)) in
  exists b', Advance b n = Ok b' /\ ring_inv b' /\
    A b' = A b /\ N b' = N b /\
    Readable b' = Readable b - m /\ Beg b' = slot b m /\
    contents b' = drop (Z.to_nat m) (contents b).
Proof.
  intros Hinv HN m. pose proof (ring_inv_bound b Hinv) as Hb.
  pose proof Hinv as (Ha & Hlen & HR & HB & HB').
  unfold Advance. destruct (decide (n <= 0)) as [Hn|Hn].
  - exists b. replace m with 0 by lia. unfold slot.
    split_and!; try done; try lia. case_decide; lia.
  - assert (0 < N b) as HN' by lia. clear HN.
    set (n' := if decide (n > Readable b) then Readable b else n).
    assert (n' = m) as -> by (unfold n', m; case_decide; lia).
    assert (0 <= m <= Readable b) as Hm by lia. clearbody m.
    unwrap. unfold rem64. rewrite decide_False by lia. simpl.
    rewrite rem_slot by (done || lia).
    eexists; split; [done|].
    assert (ring_inv {| A := A b; N := N b; Beg := slot b m;
                        Readable := Readable b - m |}) as Hinv'.
    { unfold ring_inv, slot; simpl.
      split_and!; try done; try lia; case_decide; lia. }
    split_and!; try done.
    apply list_eq; intros i. rewrite lookup_drop.
    rewrite !contents_lookup by done. simpl.
    unfold slot; simpl. unfold slot.
    repeat case_decide; try lia; try done; f_equal; lia.
Qed.

Lemma Advance_zero_capacity b n :
  N b = 0 -> 0 < n -> Advance b n = Panic DivideByZero.
Proof.
  intros HN Hn. unfold Advance. rewrite decide_False by lia.
  unfold rem64. rewrite HN. done.
Qed.

(** Writing a view back changes the slots of the view and no other. *)
Lemma store_view_lookup a lo d (j : nat) :
  (slen a <= length (backing a))%nat -> 0 <= lo ->
  lo + Z.of_nat (length d) <= len a ->
  elems (store_view a lo d) !! j =
    if decide (lo <= Z.of_nat j < lo + Z.of_nat (length d))
    then d !! (j - Z.to_nat lo)%nat else elems a !! j.
Proof.
  intros Hs Hlo Hhi. unfold len in Hhi. unfold elems, store_view; simpl.
  rewrite !lookup_take.
  destruct (decide (j < slen a)%nat) as [Hj|Hj]; [|case_decide; [lia|done]].
  destruct (decide (Z.of_nat j < lo)) as [Hj1|Hj1].
  - rewrite lookup_app_l by (rewrite length_take; lia).
    rewrite lookup_take, decide_True by lia. case_decide; [lia|done].
  - rewrite lookup_app_r by (rewrite length_take; lia).
    rewrite length_take, Nat.min_l by lia.
    case_decide.
    + rewrite lookup_app_l by lia. done.
    + rewrite lookup_app_r by lia. rewrite lookup_drop. f_equal. lia.
Qed.

Lemma store_view_addressable a lo d :
  addressable a -> 0 <= lo -> lo + Z.of_nat (length d) <= len a ->
  addressable (store_view a lo d) /\ len (store_view a lo d) = len a /\
  cap (store_view a lo d) = cap a.
Proof.
  intros [Hs Hc] Hlo Hhi. unfold addressable, len, cap, store_view in *; simpl.
  rewrite !length_app, length_take, length_drop. lia.
Qed.

Lemma intMin_min x y : intMin x y = Z.min x y.
Proof. unfold intMin. case_decide; lia. Qed.

(** One pass of the loop of [RingWriteFrames] that copies. *)
Lemma write_pass b (p : list Frame) :
  ring_inv b -> p <> [] -> Readable b < N b ->
  let ws := slot b (Readable b) in
  let ul := intMin (ws + (N b - Readable b)) (N b) in
  let k := Z.min (ul - ws) (Z.of_nat (length p)) in
  exists a, copy_into (A b) ws ul p = Ok (a, k) /\
    0 < k <= N b - Readable b /\
    let b' := {| A := a; N := N b; Beg := Beg b; Readable := Readable b + k |} in
    ring_inv b' /\ cap a = cap (A b) /\
    contents b' = contents b ++ take (Z.to_nat k) p /\
    forall i : nat, Z.of_nat i < Readable b ->
      elems a !! Z.to_nat (slot b (Z.of_nat i))
      = elems (A b) !! Z.to_nat (slot b (Z.of_nat i)).
Proof.
  intros Hinv Hp Hfree ws ul k. pose proof (ring_inv_bound b Hinv) as Hb.
  pose proof (ring_inv_length b Hinv) as HN.
  pose proof Hinv as ([Hs Hc] & Hlen & HR & HB & HB').
  assert (0 < length p)%nat as Hlp by (destruct p; simpl; [done|lia]).
  assert (0 <= ws < N b) as Hws by (unfold ws, slot; case_decide; lia).
  assert (ws < ul <= N b) as Hul by (unfold ul; rewrite intMin_min; lia).
  assert (0 < k <= N b - Readable b) as Hk.
  { unfold k, ul. rewrite intMin_min. lia. }
  unfold copy_into.
  destruct (reslice_within (A b) ws ul) as (v & -> & Hv); [done|lia|lia|].
  rewrite bind_Ok.
  assert (Z.of_nat (length (elems v)) = ul - ws) as Hlv.
  { rewrite Hv, length_take, length_drop. lia. }
  unfold copy.
  remember (length (elems v) `min` length p)%nat as K eqn:HK.
  assert (Z.of_nat K = k) as Hmin by lia.
  set (d := take K p ++ drop K (elems v)).
  rewrite Hmin.
  assert (Z.of_nat (length d) = ul - ws) as Hld.
  { unfold d. rewrite length_app, length_take, length_drop. lia. }
  eexists; split; [done|]. split; [done|].
  destruct (store_view_addressable (A b) ws d) as (Ha' & Hlen' & Hcap');
    [done|lia|lia|].
  assert (forall j : nat,
    elems (store_view (A b) ws d) !! j =
      if decide (ws <= Z.of_nat j < ws + k)
      then p !! (j - Z.to_nat ws)%nat else elems (A b) !! j) as Hlook.
  { intros j. rewrite store_view_lookup by (done || lia).
    destruct (decide (j < length (elems (A b)))%nat) as [Hj|Hj].
    2:{ repeat case_decide; try lia; done. }
    repeat case_decide; try lia; unfold d.
    - rewrite lookup_app_l by (rewrite length_take; lia).
      rewrite lookup_take, decide_True by lia. done.
    - rewrite lookup_app_r by (rewrite length_take; lia).
      rewrite length_take, lookup_drop, Hv, lookup_take, lookup_drop.
      rewrite decide_True by lia. f_equal. lia.
    - done. }
  set (b' := {| A := store_view (A b) ws d; N := N b; Beg := Beg b;
                Readable := Readable b + k |}).
  assert (ring_inv b') as Hinv'.
  { unfold ring_inv, b'; simpl. split_and!; try done; try lia. }
  split; [done|]. split; [done|]. split.
  - apply list_eq; intros i. rewrite contents_lookup by done. simpl.
    unfold slot at 1; simpl.
    rewrite Hlook. fold (slot b (Z.of_nat i)).
    destruct (decide (Z.of_nat i < Readable b)) as [Hi|Hi].
    + rewrite lookup_app_l by (pose proof (length_contents b Hinv); lia).
      rewrite contents_lookup by done.
      assert (~ (ws <= Z.of_nat (Z.to_nat (slot b (Z.of_nat i))) < ws + k)).
      { unfold k, ws, ul, slot in *. rewrite intMin_min in *.
        repeat case_decide; lia. }
      repeat case_decide; try lia; done.
    + rewrite lookup_app_r by (pose proof (length_contents b Hinv); lia).
      rewrite lookup_take.
      pose proof (length_contents b Hinv) as Hlc.
      repeat case_decide; try lia; try done.
      all: unfold k, ws, ul, slot in *; rewrite ?intMin_min in *.
      all: repeat case_decide; try lia; f_equal; lia.
  - intros i Hi. rewrite Hlook. rewrite decide_False; [done|].
    unfold k, ws, ul, slot in *. rewrite ?intMin_min in *.
    repeat case_decide; lia.
Qed.

(** *** The caller's slice in memory *)

Lemma op_vals_Own a l : op_vals a (Own l) = l.
Proof. unfold op_vals, Own; simpl. by rewrite app_nil_r. Qed.

Lemma op_wf_Own a l : op_wf a (Own l).
Proof. unfold op_wf; simpl; lia. Qed.

Lemma opsize_Own l : opsize (Own l) = length l.
Proof. unfold opsize; simpl; lia. Qed.

Lemma length_op_vals a p : op_wf a p -> length (op_vals a p) = opsize p.
Proof.
  unfold op_wf, op_vals, opsize. intros Hwf.
  rewrite !length_app, length_take, length_drop. lia.
Qed.

(** A slice of its own does not see the array. *)
Lemma op_vals_own a a' p : joint p = 0%nat -> op_vals a' p = op_vals a p.
Proof. unfold op_vals. by intros ->. Qed.

Lemma op_wf_cap a a' p : cap a' = cap a -> op_wf a p -> op_wf a' p.
Proof. unfold op_wf, cap. lia. Qed.

Lemma drop_take_drop (k j i : nat) l :
  drop k (take j (drop i l)) = take (j - k) (drop (i + Nat.min k j) l).
Proof.
  apply list_eq; intros x.
  rewrite lookup_drop, !lookup_take, !lookup_drop.
  repeat case_decide; try lia; try done. f_equal. lia.
Qed.

Lemma op_drop_spec a p (k : nat) :
  op_wf a p -> (k <= opsize p)%nat ->
  op_wf a (op_drop k p) /\ opsize (op_drop k p) = (opsize p - k)%nat /\
  op_vals a (op_drop k p) = drop k (op_vals a p) /\
  (joint p = 0%nat -> joint (op_drop k p) = 0%nat).
Proof.
  unfold op_wf, opsize, op_vals, op_drop. intros Hwf Hk. cbn [ahead joint_at joint behind].
  split_and!.
  - lia.
  - rewrite !length_drop. lia.
  - rewrite !drop_app, length_take, length_drop.
    rewrite drop_take_drop. do 3 f_equal. lia.
  - lia.
Qed.

Lemma op_drop_Own (k : nat) l : op_drop k (Own l) = Own (drop k l).
Proof.
  unfold op_drop, Own; simpl. rewrite Nat.min_0_r, drop_nil. done.
Qed.

(** Storing the elements [v] of [p]: the array keeps its size, and [p] then
    reads [v]. *)
Lemma op_put_spec a p v :
  op_wf a p -> length v = opsize p ->
  length (backing (op_put a p v).1) = length (backing a) /\
  slen (op_put a p v).1 = slen a /\
  op_wf (op_put a p v).1 (op_put a p v).2 /\
  opsize (op_put a p v).2 = opsize p /\
  joint (op_put a p v).2 = joint p /\
  op_vals (op_put a p v).1 (op_put a p v).2 = v /\
  (joint p = 0%nat -> (op_put a p v).1 = a) /\
  (forall l, p = Own l -> (op_put a p v).2 = Own v).
Proof.
  unfold op_wf, opsize. intros Hwf Hv.
  set (mid := take (joint p) (drop (length (ahead p)) v)).
  assert (length mid = joint p) as Hmid.
  { unfold mid. rewrite length_take, length_drop. lia. }
  unfold op_put, op_vals, store_view. cbn [fst snd backing slen ahead joint_at joint behind].
  fold mid. rewrite Nat2Z.id.
  split_and!.
  - rewrite !length_app, length_take, length_drop. lia.
  - done.
  - rewrite !length_app, length_take, length_drop. lia.
  - rewrite length_take, length_drop. lia.
  - done.
  - rewrite drop_app_length' by (rewrite length_take; lia).
    rewrite take_app_length' by done.
    unfold mid. rewrite <- (take_drop (length (ahead p)) v) at 4. f_equal.
    rewrite <- (take_drop (joint p) (drop (length (ahead p)) v)) at 2. f_equal.
    by rewrite drop_drop.
  - intros Hj. destruct a as [bk sl]. simpl. f_equal.
    assert (mid = []) as -> by (apply length_zero_iff_nil; lia).
    simpl. rewrite Nat.add_0_r. apply take_drop.
  - intros l ->. unfold Own. simpl in *. f_equal.
    + apply take_ge. lia.
    + apply drop_ge. lia.
Qed.

(** [copy(p[j:], src)]. *)
Lemma copy_to_spec a p (j : nat) src :
  op_wf a p -> (j <= opsize p)%nat ->
  let k := Nat.min (opsize p - j) (length src) in
  exists a' p',
    copy_to a p j src = (a', p', Z.of_nat k) /\
    length (backing a') = length (backing a) /\ slen a' = slen a /\
    op_wf a' p' /\ opsize p' = opsize p /\ joint p' = joint p /\
    op_vals a' p'
      = take j (op_vals a p) ++ take k src ++ drop (j + k) (op_vals a p) /\
    (joint p = 0%nat -> a' = a) /\
    (forall l, p = Own l ->
       p' = Own (take j l ++ take k src ++ drop (j + k) l)).
Proof.
  intros Hwf Hj k. pose proof (length_op_vals a p Hwf) as Hlv.
  set (v := op_vals a p) in *.
  set (v' := take j v ++ take k src ++ drop (j + k) v).
  assert (length v' = opsize p) as Hlv'.
  { unfold v'. rewrite !length_app, !length_take, length_drop. lia. }
  destruct (op_put_spec a p v' Hwf Hlv')
    as (Hbk & Hsl & Hwf' & Hsz & Hjt & Hvals & Hown & HOwn).
  exists (op_put a p v').1, (op_put a p v').2.
  split_and!; try done.
  - unfold copy_to, copy. fold v. rewrite length_drop, Hlv. fold k.
    rewrite drop_drop. fold v'. by destruct (op_put a p v').
  - intros l ->. rewrite (HOwn l eq_refl). unfold v', v.
    by rewrite op_vals_Own.
Qed.

(** [copy(p, src)]. *)
Lemma copy_front_spec a p src :
  op_wf a p ->
  let k := Nat.min (opsize p) (length src) in
  exists a' p',
    copy_to a p 0 src = (a', p', Z.of_nat k) /\
    length (backing a') = length (backing a) /\ slen a' = slen a /\
    op_wf a' p' /\ opsize p' = opsize p /\ joint p' = joint p /\
    op_vals a' p' = take k src ++ drop k (op_vals a p) /\
    (joint p = 0%nat -> a' = a) /\
    (forall l, p = Own l -> p' = Own (take k src ++ drop k l)).
Proof.
  intros Hwf k.
  destruct (copy_to_spec a p 0 src Hwf ltac:(lia)) as (a' & p' & H).
  rewrite Nat.sub_0_r in H. exists a', p'. exact H.
Qed.

Lemma ring_inv_array b a :
  ring_inv b ->
  length (backing a) = length (backing (A b)) -> slen a = slen (A b) ->
  ring_inv {| A := a; N := N b; Beg := Beg b; Readable := Readable b |} /\
  cap a = cap (A b).
Proof.
  unfold ring_inv, addressable, len, cap; simpl.
  intros ([Hs Hc] & Hlen & HR & HB) Hbk Hsl. rewrite Hbk, Hsl. done.
Qed.

Lemma FrameRingBuf_eta b :
  {| A := A b; N := N b; Beg := Beg b; Readable := Readable b |} = b.
Proof. by destruct b. Qed.

(** A read that copies, into any slice [p]: the count, and what [p] and the
    array hold afterwards. *)
Lemma readAndMaybeAdvance_spec b p doAdvance :
  ring_inv b -> op_wf (A b) p -> oplen p <> 0 -> Readable b <> 0 ->
  let n := Z.min (oplen p) (Readable b) in
  exists a p' b',
    readAndMaybeAdvance b p doAdvance = Ok (b', p', n, None) /\
    ring_inv {| A := a; N := N b; Beg := Beg b; Readable := Readable b |} /\
    cap a = cap (A b) /\ op_wf a p' /\ opsize p' = opsize p /\
    (if doAdvance
     then Advance {| A := a; N := N b; Beg := Beg b; Readable := Readable b |} n
          = Ok b'
     else b' = {| A := a; N := N b; Beg := Beg b; Readable := Readable b |}) /\
    drop (Z.to_nat n) (op_vals a p') = drop (Z.to_nat n) (op_vals (A b) p) /\
    (joint p = 0%nat \/ Beg b + Readable b <= N b ->
       take (Z.to_nat n) (op_vals a p') = take (Z.to_nat n) (contents b)) /\
    (joint p = 0%nat -> a = A b) /\
    (forall l, p = Own l ->
       p' = Own (take (Z.to_nat n) (contents b) ++ drop (Z.to_nat n) l)).
Proof.
  intros Hinv Hwf Hp HR0 n. pose proof (ring_inv_bound b Hinv) as Hb.
  pose proof (ring_inv_length b Hinv) as HN.
  pose proof (length_contents b Hinv) as Hlc.
  pose proof (length_op_vals (A b) p Hwf) as Hlv.
  pose proof Hinv as ([Hs Hc] & Hlen & HR & HB & HB').
  unfold oplen in *.
  assert (forall a, ring_inv {| A := a; N := N b; Beg := Beg b;
                                Readable := Readable b |} ->
            exists b', (if doAdvance
                        then Advance {| A := a; N := N b; Beg := Beg b;
                                        Readable := Readable b |} n
                        else Ok {| A := a; N := N b; Beg := Beg b;
                                   Readable := Readable b |}) = Ok b')
    as Hadvance.
  { intros a Hinv1. destruct doAdvance; [|by eexists].
    destruct (Advance_spec _ n Hinv1) as (b' & -> & _); [simpl; lia|by eexists]. }
  unfold readAndMaybeAdvance, oplen.
  rewrite decide_False by done. rewrite decide_False by done. unwrap.
  destruct (decide (Beg b + Readable b <= N b)) as [Hfit|Hfit].
  - destruct (reslice_within (A b) (Beg b) (Beg b + Readable b))
      as (v & -> & Hv); [done|lia|lia|]. rewrite bind_Ok.
    replace (Beg b + Readable b - Beg b) with (Readable b) in Hv by lia.
    rewrite <- contents_straight in Hv by done. rewrite Hv.
    destruct (copy_front_spec (A b) p (contents b) Hwf)
      as (a' & p' & Hct & Hbk & Hsl & Hwf' & Hsz & Hjt & Hvals & Hown & HOwn).
    replace (Nat.min (opsize p) (length (contents b))) with (Z.to_nat n)
      in Hct, Hvals, HOwn by lia.
    rewrite Z2Nat.id in Hct by lia.
    rewrite Hct. cbv beta iota. unwrap. rewrite Z.add_0_l, bind_Ok. cbv beta iota zeta.
    destruct (ring_inv_array b a' Hinv Hbk Hsl) as [Hinv1 Hcap1].
    destruct (Hadvance a' Hinv1) as [b' Hb'].
    exists a', p', b'. rewrite Hb', bind_Ok.
    split_and!; try done.
    + by destruct doAdvance; simplify_eq.
    + rewrite Hvals. rewrite drop_app_length'; [done|].
      rewrite length_take. lia.
    + intros _. rewrite Hvals. rewrite take_app_length'; [done|].
      rewrite length_take. lia.
  - destruct (reslice_within (A b) (Beg b) (N b))
      as (v & -> & Hv); [done|lia|lia|]. rewrite bind_Ok.
    rewrite take_ge in Hv by (rewrite length_drop; lia).
    pose proof (contents_wrapped b Hinv ltac:(lia)) as Hc'.
    assert (Z.of_nat (length (elems v)) = N b - Beg b) as Hlv1
      by (rewrite Hv, length_drop; lia).
    destruct (copy_front_spec (A b) p (elems v) Hwf)
      as (a1 & p1 & Hct & Hbk & Hsl & Hwf1 & Hsz & Hjt & Hvals & Hown & HOwn).
    set (k1 := Nat.min (opsize p) (length (elems v))) in *.
    rewrite Hct. cbv beta iota zeta. unwrap. rewrite Z.add_0_l.
    destruct (ring_inv_array b a1 Hinv Hbk Hsl) as [Hinv1 Hcap1].
    destruct (decide (Z.of_nat k1 < Z.of_nat (opsize p1))) as [Hmore|Hmore].
    + rewrite rem64_ok by lia. rewrite bind_Ok.
      rewrite rem_wrapped by lia.
      destruct (reslice_within a1 0 (Beg b + Readable b - N b))
        as (v2 & -> & Hv2); [lia|lia|unfold len in *; lia|]. rewrite bind_Ok.
      rewrite drop_0, Z.sub_0_r in Hv2.
      assert (Z.of_nat (length (elems v2)) = Beg b + Readable b - N b) as Hlv2.
      { rewrite Hv2, length_take, length_elems by lia. unfold len in *. lia. }
      rewrite Nat2Z.id.
      destruct (copy_to_spec a1 p1 k1 (elems v2) Hwf1 ltac:(lia))
        as (a2 & p2 & Hct2 & Hbk2 & Hsl2 & Hwf2 & Hsz2 & Hjt2 & Hvals2 & Hown2 & HOwn2).
      set (k2 := Nat.min (opsize p1 - k1) (length (elems v2))) in *.
      rewrite Hct2. cbv beta iota zeta. unwrap.
      assert (Z.of_nat k1 + Z.of_nat k2 = n) as Hn by lia.
      rewrite Hn, bind_Ok. cbv beta iota zeta.
      destruct (ring_inv_array b a2 Hinv) as [Hinv2 Hcap2]; [lia|lia|].
      destruct (Hadvance a2 Hinv2) as [b' Hb'].
      exists a2, p2, b'. rewrite Hb', bind_Ok.
      assert (Z.to_nat n = k1 + k2)%nat as Hn' by lia.
      assert (k1 = length (elems v)) as Hk1 by lia.
      assert (take k1 (op_vals a1 p1) = elems v) as Ht1.
      { rewrite Hvals. rewrite take_app_length'.
        - apply take_ge. lia.
        - rewrite length_take. lia. }
      assert (drop (k1 + k2) (op_vals a1 p1)
              = drop (k1 + k2) (op_vals (A b) p)) as Hd1.
      { rewrite Hvals.
        rewrite <- drop_drop. rewrite drop_app_length'; [|rewrite length_take; lia].
        by rewrite drop_drop. }
      split_and!; try done.
      * lia.
      * by destruct doAdvance; simplify_eq.
      * rewrite Hvals2, Hn', Ht1. rewrite app_assoc.
        rewrite drop_app_length'; [exact Hd1|].
        rewrite length_app, length_take. lia.
      * intros [Hj|Hj]; [|lia].
        assert (a1 = A b) as -> by by apply Hown.
        rewrite Hvals2, Hn', Ht1. rewrite app_assoc.
        rewrite take_app_length' by (rewrite length_app, length_take; lia).
        rewrite Hc', <- Hv, Hv2.
        by rewrite take_app_add' by done.
      * intros Hj. rewrite (Hown2 ltac:(lia)). by apply Hown.
      * intros l ->.
        rewrite (HOwn2 _ (HOwn l eq_refl)).
        assert (a1 = A b) as Ha1 by by apply Hown.
        rewrite (HOwn l eq_refl) in Ht1, Hd1. rewrite op_vals_Own in Ht1, Hd1.
        rewrite op_vals_Own in Hd1.
        rewrite Ht1, Hd1, Hn'. f_equal. rewrite app_assoc. f_equal.
        rewrite Hc', <- Hv. rewrite take_app_add' by done.
        by rewrite Hv2, Ha1.
    + assert (Z.of_nat k1 = n) as Hkn by lia.
      rewrite Hkn, bind_Ok. cbv beta iota zeta.
      destruct (Hadvance a1 Hinv1) as [b' Hb'].
      exists a1, p1, b'. rewrite Hb', bind_Ok.
      assert (Z.to_nat n = k1) as Hn' by lia.
      split_and!; try done.
      * by destruct doAdvance; simplify_eq.
      * rewrite Hvals, Hn'. rewrite drop_app_length'; [done|].
        rewrite length_take. lia.
      * intros _. rewrite Hvals, Hn'.
        rewrite take_app_length' by (rewrite length_take; lia).
        rewrite Hc', <- Hv. rewrite take_app_le by lia. done.
      * intros l ->. rewrite (HOwn l eq_refl), Hn'. f_equal. f_equal.
        rewrite Hc', <- Hv. rewrite take_app_le by lia. done.
Qed.

(** The same for a slice [l] that shares nothing with the buffer. *)
Lemma readAndMaybeAdvance_data b l doAdvance :
  ring_inv b -> l <> [] -> Readable b <> 0 ->
  let n := Z.min (Z.of_nat (length l)) (Readable b) in
  exists b',
    readAndMaybeAdvance b (Own l) doAdvance
      = Ok (b', Own (take (Z.to_nat n) (contents b) ++ drop (Z.to_nat n) l),
            n, None) /\
    (if doAdvance then Advance b n = Ok b' else b' = b).
Proof.
  intros Hinv Hl HR0 n.
  assert (0 < length l)%nat as Hlp by (destruct l; simpl; [done|lia]).
  destruct (readAndMaybeAdvance_spec b (Own l) doAdvance Hinv (op_wf_Own _ l))
    as (a & p' & b' & Hrun & _ & _ & _ & _ & Hadv & _ & _ & Ha & HOwn);
    [unfold oplen; rewrite opsize_Own; lia|done|].
  unfold oplen in *. rewrite opsize_Own in *. fold n in Hrun, Hadv, HOwn.
  rewrite (Ha eq_refl), FrameRingBuf_eta in Hadv.
  exists b'. by rewrite Hrun, (HOwn l eq_refl).
Qed.

(** A read that copies nothing: the buffer is empty, or [p] is. *)
Lemma read_nothing b p doAdvance :
  Readable b = 0 \/ oplen p = 0 ->
  readAndMaybeAdvance b p doAdvance
  = Ok (b, p, 0, if decide (oplen p = 0) then None else Some EOF).
Proof.
  intros H. unfold readAndMaybeAdvance.
  destruct (decide (oplen p = 0)); [done|].
  rewrite decide_True by lia. done.
Qed.

(** [RingReadFrames] is [RingReadWithoutAdvance] and then [Advance]. *)
Lemma read_after_peek b p b1 p1 n1 e1 :
  RingReadWithoutAdvance b p = Ok (b1, p1, n1, e1) ->
  RingReadFrames b p = (b2 ← Advance b1 n1; Ok (b2, p1, n1, e1)).
Proof.
  unfold RingReadFrames, RingReadWithoutAdvance, readAndMaybeAdvance.
  destruct (decide (oplen p = 0)) as [Hp|Hp]; [by intros [= <- <- <- <-]|].
  destruct (decide (Readable b = 0)) as [HR|HR]; [by intros [= <- <- <- <-]|].
  match goal with
  | |- (?X ≫= _) = _ -> _ => destruct X as [[[a p'] n']| |]
  end; [|done..].
  rewrite !bind_Ok. cbv beta iota zeta. rewrite ?bind_Ok. by intros [= <- <- <- <-].
Qed.

(** Whatever slice a read is given, the buffer it leaves satisfies the
    invariant. *)
Lemma read_keeps_inv b p doAdvance b' p' n err :
  ring_inv b -> op_wf (A b) p ->
  readAndMaybeAdvance b p doAdvance = Ok (b', p', n, err) -> ring_inv b'.
Proof.
  intros Hinv Hwf Hrun. pose proof Hinv as (_ & _ & HR & _).
  destruct (decide (Readable b = 0 \/ oplen p = 0)) as [Hnone|Hsome].
  { rewrite read_nothing in Hrun by done. by simplify_eq. }
  destruct (readAndMaybeAdvance_spec b p doAdvance Hinv Hwf)
    as (a & p0 & b0 & Hrun0 & Hinv1 & _ & _ & _ & Hadv & _); [lia|lia|].
  rewrite Hrun0 in Hrun. simplify_eq.
  destruct doAdvance; [|by subst].
  destruct (Advance_spec _ (Z.min (oplen p) (Readable b)) Hinv1)
    as (b2 & Hadv' & Hinv2 & _); [simpl; lia|].
  rewrite Hadv' in Hadv. by simplify_eq.
Qed.

Lemma readAndMaybeAdvance_returns b p doAdvance :
  ring_inv b -> op_wf (A b) p ->
  exists r, readAndMaybeAdvance b p doAdvance = Ok r.
Proof.
  intros Hinv Hwf.
  destruct (decide (oplen p = 0)) as [Hp|Hp].
  { unfold readAndMaybeAdvance. rewrite decide_True by done. by eexists. }
  destruct (decide (Readable b = 0)) as [HR0|HR0].
  { unfold readAndMaybeAdvance. rewrite decide_False by done.
    rewrite decide_True by done. by eexists. }
  destruct (readAndMaybeAdvance_spec b p doAdvance Hinv Hwf Hp HR0)
    as (a & p' & b' & Hrun & _).
  eexists. exact Hrun.
Qed.

(** The loop of [RingWriteFrames], for any slice [p]: [w] lists the frames
    it stores, which are the first elements of [p] when [p] shares nothing
    with the buffer, or when one pass does it all. *)
Lemma RingWriteFrames_loop_spec fuel : forall b p n err,
  ring_inv b -> op_wf (A b) p -> (opsize p < fuel)%nat -> 0 <= n <= Readable b ->
  let c := N b - Readable b in
  let m := Z.min (oplen p) c in
  exists b' w,
    RingWriteFrames_loop fuel b p n err
      = Ok (b', n + m,
            if decide (oplen p > c) then Some ErrShortWrite else err) /\
    ring_inv b' /\ N b' = N b /\ Beg b' = Beg b /\ cap (A b') = cap (A b) /\
    Readable b' = Readable b + m /\
    contents b' = contents b ++ w /\ Z.of_nat (length w) = m /\
    (joint p = 0%nat \/ m <= N b - slot b (Readable b) ->
       w = take (Z.to_nat m) (op_vals (A b) p)) /\
    forall i : nat, Z.of_nat i < Readable b ->
      elems (A b') !! Z.to_nat (slot b (Z.of_nat i))
      = elems (A b) !! Z.to_nat (slot b (Z.of_nat i)).
Proof.
  induction fuel as [|fuel IH]; intros b p n err Hinv Hwf Hfuel Hn c m; [lia|].
  pose proof (ring_inv_bound b Hinv) as Hb.
  pose proof (length_op_vals (A b) p Hwf) as Hlv.
  pose proof Hinv as ([Hs Hc] & Hlen & HR & HB & HB').
  unfold oplen in *.
  cbn [RingWriteFrames_loop]. unfold oplen.
  destruct (decide (Z.of_nat (opsize p) = 0)) as [Hp0|Hp0].
  { exists b, []. replace m with 0 by lia. rewrite Z.add_0_r, app_nil_r.
    rewrite decide_False by lia. split_and!; try done; lia. }
  unwrap. fold c. destruct (decide (c <= 0)) as [Hc0|Hc0].
  { exists b, []. replace m with 0 by lia. rewrite Z.add_0_r, app_nil_r.
    rewrite decide_True by lia. split_and!; try done; lia. }
  set (vals := op_vals (A b) p) in *.
  assert (vals <> []) as Hvals by (intros Hnil; rewrite Hnil in Hlv; simpl in Hlv; lia).
  assert (0 < N b - Readable b) as Hfree by (unfold c in *; lia).
  rewrite rem64_ok by lia. rewrite bind_Ok.
  rewrite rem_slot by (done || lia).
  assert (0 <= slot b (Readable b) < N b) as Hws
    by (unfold slot; case_decide; lia).
  unfold c. unwrap.
  destruct (write_pass b vals Hinv Hvals ltac:(lia))
    as (a & Hcopy & Hk & Hinv1 & Hcap1 & Hcont1 & Hframe1).
  unfold c. rewrite Hcopy, bind_Ok. cbv beta iota.
  rewrite Hlv in *.
  set (k := Z.min (intMin (slot b (Readable b) + (N b - Readable b)) (N b)
                   - slot b (Readable b)) (Z.of_nat (opsize p))) in *.
  unwrap.
  set (b1 := {| A := a; N := N b; Beg := Beg b; Readable := Readable b + k |}) in *.
  set (err1 := if decide (Z.of_nat (opsize p) > N b - Readable b)
               then Some ErrShortWrite else err).
  destruct (op_drop_spec (A b) p (Z.to_nat k) Hwf ltac:(lia))
    as (Hwf1 & Hsz1 & Hvals1 & Hjt1).
  destruct (IH b1 (op_drop (Z.to_nat k) p) (n + k) err1 Hinv1)
    as (b' & w' & Hrun & Hinv' & HN' & HB1 & Hcap' & HR' & Hcont' & Hlw' & Hdata'
        & Hframe').
  { by apply (op_wf_cap (A b)). }
  { lia. }
  { simpl. lia. }
  rewrite Hsz1 in Hrun, HR', Hlw', Hdata'.
  cbn [b1 N Readable Beg A] in Hrun, HR', Hlw', Hdata', HN', HB1, Hcap'.
  exists b', (take (Z.to_nat k) vals ++ w'). rewrite Hrun. split.
  { f_equal. f_equal; [f_equal; lia|]. unfold err1, c.
    repeat case_decide; try lia; done. }
  split_and!; try done; try lia.
  - rewrite Hcont', Hcont1, <- app_assoc. done.
  - rewrite length_app, length_take. lia.
  - intros [Hj|Hone].
    + rewrite Hdata' by (left; by apply Hjt1).
      rewrite (op_vals_own (A b) a) by by apply Hjt1.
      rewrite Hvals1. fold vals. rewrite take_take_drop. f_equal. unfold m, c. lia.
    + assert (k = m) as Hkm.
      { unfold k, m, c in *. rewrite intMin_min in *. lia. }
      assert (w' = []) as -> by (apply length_zero_iff_nil; lia).
      rewrite app_nil_r. by rewrite Hkm.
  - intros i Hi. rewrite <- Hframe1 by done. apply (Hframe' i). simpl. lia.
Qed.

Lemma NewFrameRingBuf_spec (nil_frame : Frame) maxSize :
  0 <= maxSize -> 8 * maxSize <= max_alloc ->
  exists b, NewFrameRingBuf nil_frame maxSize = Ok b /\ ring_inv b /\
    N b = maxSize /\ cap (A b) = maxSize /\ contents b = [].
Proof.
  intros Hn Hmax. unfold NewFrameRingBuf, make. rewrite decide_True by done.
  rewrite bind_Ok. eexists; split; [done|].
  unfold ring_inv, addressable, len, cap, contents; simpl.
  rewrite length_replicate. unfold max_alloc, max_int in *.
  split_and!; try done; lia.
Qed.

Lemma NewFrameRingBuf_out_of_range (nil_frame : Frame) maxSize :
  maxSize < 0 \/ max_alloc < 8 * maxSize ->
  NewFrameRingBuf nil_frame maxSize = Panic MakeLenOutOfRange.
Proof.
  intros Hn. unfold NewFrameRingBuf, make. by rewrite decide_False by lia.
Qed.

Lemma Reset_spec b :
  ring_inv b -> ring_inv (Reset b) /\ contents (Reset b) = [].
Proof.
  intros (Ha & Hlen & HR & HB & HB').
  unfold ring_inv, contents, Reset; simpl. split_and!; try done; lia.
Qed.

Lemma Adopt_larger b me :
  len me > N b ->
  Adopt b me = {| A := me; N := len me; Beg := 0; Readable := len me |}.
Proof. intros Hn. unfold Adopt. by rewrite decide_True. Qed.

Lemma Adopt_smaller b me :
  ring_inv b -> (slen me <= length (backing me))%nat -> len me <= N b ->
  N (Adopt b me) = N b /\ Beg (Adopt b me) = 0 /\
  Readable (Adopt b me) = len me /\
  cap (A (Adopt b me)) = cap (A b) /\ len (A (Adopt b me)) = len (A b) /\
  elems (A (Adopt b me)) = elems me ++ drop (slen me) (elems (A b)).
Proof.
  intros Hinv Hme Hn. pose proof (ring_inv_length b Hinv) as HN.
  pose proof Hinv as ([Hs Hc] & Hlen & HR & HB & HB').
  pose proof (length_elems me Hme) as Hlme.
  pose proof (length_elems (A b) Hs) as HlA.
  unfold len in *.
  unfold Adopt. rewrite decide_False by (unfold len; lia). unfold copy.
  rewrite Nat.min_r by lia. rewrite take_ge by lia. rewrite Hlme.
  set (d := elems me ++ drop (slen me) (elems (A b))).
  assert (length d = slen (A b)) as Hld.
  { unfold d. rewrite length_app, length_drop. lia. }
  cbn [A N Beg Readable]. split_and!; try done.
  - unfold cap, store_view; simpl.
    rewrite !length_app, length_drop. lia.
  - unfold elems at 1, store_view; simpl.
    rewrite take_app_le by lia. apply take_ge. lia.
Qed.

Lemma Adopt_spec b me :
  ring_inv b -> addressable me ->
  ring_inv (Adopt b me) /\ contents (Adopt b me) = elems me.
Proof.
  intros Hinv [Hme Hcme]. pose proof Hinv as ([Hs Hc] & Hlen & HR & HB & HB').
  pose proof (length_elems me Hme) as Hlme.
  destruct (decide (len me > N b)) as [Hn|Hn].
  - rewrite Adopt_larger by done.
    unfold ring_inv, addressable, contents, len in *; simpl.
    split_and!; try done; try lia.
    rewrite Nat2Z.id. change (Z.to_nat 0) with 0%nat. rewrite drop_0.
    rewrite take_app_le by lia. apply take_ge. lia.
  - destruct (Adopt_smaller b me Hinv Hme ltac:(lia))
      as (HN' & HB1 & HR' & Hcap' & Hlen' & Helems).
    unfold len in *.
    assert (ring_inv (Adopt b me)) as Hinv'.
    { unfold ring_inv, addressable. rewrite HN', HB1, HR'.
      unfold len, cap in *. split_and!; try done; lia. }
    split; [done|]. unfold contents. rewrite HB1, HR', Helems.
    change (Z.to_nat 0) with 0%nat. rewrite drop_0.
    rewrite Nat2Z.id, <- app_assoc. rewrite take_app_le by lia.
    apply take_ge. lia.
Qed.

Lemma RingWriteFrames_spec b p :
  ring_inv b -> op_wf (A b) p ->
  let c := N b - Readable b in
  let m := Z.min (oplen p) c in
  exists b' w,
    RingWriteFrames b p
      = Ok (b', m, if decide (oplen p > c) then Some ErrShortWrite else None) /\
    ring_inv b' /\ N b' = N b /\ Beg b' = Beg b /\ cap (A b') = cap (A b) /\
    Readable b' = Readable b + m /\
    contents b' = contents b ++ w /\ Z.of_nat (length w) = m /\
    (joint p = 0%nat \/ m <= N b - slot b (Readable b) ->
       w = take (Z.to_nat m) (op_vals (A b) p)) /\
    forall i : nat, Z.of_nat i < Readable b ->
      elems (A b') !! Z.to_nat (slot b (Z.of_nat i))
      = elems (A b) !! Z.to_nat (slot b (Z.of_nat i)).
Proof.
  intros Hinv Hwf c m. pose proof Hinv as (_ & _ & HR & _).
  destruct (RingWriteFrames_loop_spec (S (opsize p)) b p 0 None Hinv Hwf)
    as (b' & w & Hrun & H); [lia|lia|].
  exists b', w. split; [|exact H]. unfold RingWriteFrames. rewrite Hrun.
  by rewrite Z.add_0_l.
Qed.

(** The same for a slice [l] that shares nothing with the buffer. *)
Lemma RingWriteFrames_own b l :
  ring_inv b ->
  let c := N b - Readable b in
  let m := Z.min (Z.of_nat (length l)) c in
  exists b',
    RingWriteFrames b (Own l)
      = Ok (b', m,
            if decide (Z.of_nat (length l) > c) then Some ErrShortWrite else None) /\
    ring_inv b' /\ N b' = N b /\ Beg b' = Beg b /\ cap (A b') = cap (A b) /\
    Readable b' = Readable b + m /\
    contents b' = contents b ++ take (Z.to_nat m) l /\
    forall i : nat, Z.of_nat i < Readable b ->
      elems (A b') !! Z.to_nat (slot b (Z.of_nat i))
      = elems (A b) !! Z.to_nat (slot b (Z.of_nat i)).
Proof.
  intros Hinv c m.
  destruct (RingWriteFrames_spec b (Own l) Hinv (op_wf_Own _ l))
    as (b' & w & Hrun & Hinv' & HN' & HB1 & Hcap & HR' & Hc & _ & Hw & Hframe).
  unfold oplen in *. rewrite opsize_Own in *. fold c m in Hrun, HR', Hw.
  rewrite Hw in Hc by by left. rewrite op_vals_Own in Hc.
  exists b'. done.
Qed.

Lemma ring_holds_inv (nil_frame : Frame) b (q : list Frame) :
  ring_holds nil_frame b q -> ring_inv b /\ contents b = q.
Proof.
  induction 1 as [maxSize b Hmax Hnew
                 |b q p b' n err _ [Hinv Hq] Hrun
                 |b q p b' p' n err _ [Hinv Hq] Hrun
                 |b q p b' p' n err _ [Hinv Hq] Hrun
                 |b q n b' _ [Hinv Hq] Hrun
                 |b q _ [Hinv Hq]
                 |b q me _ [Hinv Hq] Hme
                 |b q p b' n err _ [Hinv Hq] Hwf Hrun
                 |b q p b' p' n err _ [Hinv Hq] Hwf Hrun
                 |b q p b' p' n err _ [Hinv Hq] Hwf Hrun].
  - destruct (decide (maxSize < 0 \/ max_alloc < 8 * maxSize)) as [Hout|Hin].
    { rewrite NewFrameRingBuf_out_of_range in Hnew by done. done. }
    destruct (NewFrameRingBuf_spec nil_frame maxSize) as (b0 & Hb0 & Hinv & _ & _ & Hc);
      [lia|lia|]. rewrite Hb0 in Hnew. by simplify_eq.
  - destruct (RingWriteFrames_own b p Hinv)
      as (b0 & Hb0 & Hinv' & _ & _ & _ & _ & Hc & _).
    rewrite Hb0 in Hrun. simplify_eq. by rewrite Hc.
  - pose proof (length_contents b Hinv) as Hlc.
    pose proof Hinv as (_ & _ & HR & _).
    unfold RingReadFrames in Hrun.
    destruct (decide (p = [])) as [->|Hp].
    { unfold readAndMaybeAdvance in Hrun. simpl in Hrun. by simplify_eq. }
    destruct (decide (Readable b = 0)) as [HR0|HR0].
    { rewrite read_nothing in Hrun by (left; done). by simplify_eq. }
    destruct (readAndMaybeAdvance_data b p true Hinv Hp HR0) as (b0 & Hb0 & Hadv).
    rewrite Hb0 in Hrun. simplify_eq.
    destruct (Advance_spec b (Z.of_nat (length p) `min` Readable b) Hinv)
      as (b0 & Hb0' & Hinv' & _ & _ & _ & _ & Hc); [lia|].
    rewrite Hb0' in Hadv. simplify_eq. split; [done|].
    rewrite Hc. f_equal. lia.
  - unfold RingReadWithoutAdvance in Hrun.
    destruct (decide (p = [])) as [->|Hp].
    { unfold readAndMaybeAdvance in Hrun. simpl in Hrun. by simplify_eq. }
    destruct (decide (Readable b = 0)) as [HR0|HR0].
    { rewrite read_nothing in Hrun by (left; done). by simplify_eq. }
    destruct (readAndMaybeAdvance_data b p false Hinv Hp HR0) as (b0 & Hb0 & Hadv).
    rewrite Hb0 in Hrun. by simplify_eq.
  - pose proof (length_contents b Hinv) as Hlc.
    pose proof Hinv as (_ & _ & HR & _).
    destruct (decide (N b = 0 /\ 0 < n)) as [[HN Hn]|HN].
    { rewrite Advance_zero_capacity in Hrun by done. done. }
    destruct (Advance_spec b n Hinv) as (b0 & Hb0 & Hinv' & _ & _ & _ & _ & Hc);
      [lia|].
    rewrite Hb0 in Hrun. simplify_eq. split; [done|]. rewrite Hc.
    destruct (decide (n <= Readable b)).
    + f_equal. lia.
    + rewrite !drop_ge by lia. done.
  - by apply Reset_spec.
  - by apply Adopt_spec.
  - destruct (RingWriteFrames_spec b p Hinv Hwf)
      as (b0 & w & Hb0 & Hinv' & _ & _ & _ & _ & Hc & _).
    rewrite Hb0 in Hrun. simplify_eq. split; [done|].
    rewrite Hc. by rewrite drop_app_length.
  - split; [|done]. by apply (read_keeps_inv b p true b' p' n err).
  - split; [|done]. by apply (read_keeps_inv b p false b' p' n err).
Qed.

(** ** The claims about the ring buffer *)

(** C1 (the code departs from the claim): when the readable region wraps
    past the end of the array ([N < Beg + Readable]), [TwoContig] never returns
    two slices that concatenate to the readable slots.  Its first slice
    expression is [A[Beg : Beg+Readable]], not [A[Beg : N]]: on an array
    whose capacity is [N], as [NewFrameRingBuf] makes it, the call panics
    with slice bounds out of range; on an adopted array with spare capacity
    the first slice runs past slot [N]. *)
Theorem TwoContig_wrapped_never_readable b makeCopy :
  ring_inv b -> N b < Beg b + Readable b ->
  (cap (A b) = N b -> TwoContig b makeCopy = Panic SliceBoundsOutOfRange) /\
  (forall first second,
     TwoContig b makeCopy = Ok (first, second) -> first ++ second <> contents b).
Proof.
  intros Hinv Hwrap. pose proof (ring_inv_bound b Hinv) as Hb.
  pose proof (length_contents b Hinv) as Hlc.
  pose proof Hinv as ([Hs Hc] & Hlen & HR & HB & HB').
  unfold TwoContig. unwrap. rewrite decide_False by lia.
  split.
  - intros Hcap. unfold reslice. rewrite decide_False by lia. done.
  - intros first second Hrun Heq.
    destruct (reslice (A b) (Beg b) (Beg b + Readable b)) as [v1| |] eqn:Hv1;
      try (by simpl in Hrun).
    unfold reslice in Hv1. case_decide as Hcap; [|done]. simplify_eq.
    rewrite bind_Ok in Hrun. rewrite rem64_ok, bind_Ok in Hrun by lia.
    rewrite rem_wrapped in Hrun by lia.
    destruct (reslice_within (A b) 0 (Beg b + Readable b - N b))
      as (v2 & Hv2 & Hel2); [done|lia|lia|].
    rewrite Hv2, bind_Ok in Hrun. simplify_eq.
    apply (f_equal length) in Heq. rewrite length_app in Heq.
    rewrite Hel2, length_take, length_drop in Heq.
    unfold elems in Heq at 1. simpl in Heq.
    rewrite length_take, length_drop in Heq.
    pose proof (ring_inv_length b Hinv). unfold cap in *. lia.
Qed.

(** C3 (as amended): whatever slice the request is, also one that shares
    cells with the array: with free capacity [c = N - Readable], a request of
    length [c+1] returns [n = c] with [io.ErrShortWrite]; a request of length
    [0 < r <= c] returns [n = r] with a nil error; and with [c = 0] a request
    of length [r > 0] returns [n = 0] with the same [io.ErrShortWrite]: the
    code has no separate status for a full buffer. *)
Theorem RingWriteFrames_status b p :
  ring_inv b -> op_wf (A b) p ->
  let c := N b - Readable b in
  let r := oplen p in
  (r = c + 1 -> exists b', RingWriteFrames b p = Ok (b', c, Some ErrShortWrite)) /\
  (0 < r <= c -> exists b', RingWriteFrames b p = Ok (b', r, None)) /\
  (c = 0 -> 0 < r -> RingWriteFrames b p = Ok (b, 0, Some ErrShortWrite)).
Proof.
  intros Hinv Hwf c r. pose proof (ring_inv_bound b Hinv) as Hb.
  pose proof Hinv as (_ & _ & HR & _).
  destruct (RingWriteFrames_spec b p Hinv Hwf) as (b' & w & Hrun & _).
  fold c r in Hrun. split_and!.
  - intros Hr. exists b'. rewrite Hrun.
    rewrite decide_True by lia. do 3 f_equal. lia.
  - intros Hr. exists b'. rewrite Hrun.
    rewrite decide_False by lia. do 3 f_equal. lia.
  - intros Hc Hr. unfold RingWriteFrames. cbn [RingWriteFrames_loop].
    rewrite decide_False by (fold r; lia). unwrap. fold c.
    rewrite decide_True by lia. done.
Qed.

(** C6: every buffer reached through the exported functions, called with
    slices of the caller's own or with slices that share cells with the
    array, satisfies
    [0 <= Readable <= N] and [0 <= Beg < N] (when [N > 0]), and what it
    holds, oldest first, sits exactly in the slots of the circular range
    [Beg, Beg+Readable) mod [N]; from such a buffer the reads and the write
    return, whatever slice they are given, and so does [Advance] unless the
    capacity is 0. *)
Theorem ring_holds_invariant (nil_frame : Frame) b (q : list Frame) :
  ring_holds nil_frame b q ->
  (0 <= Readable b <= N b /\ 0 <= Beg b /\ (0 < N b -> Beg b < N b) /\
   Z.of_nat (length q) = Readable b /\
   forall i : nat, Z.of_nat i < Readable b ->
     q !! i = elems (A b) !! Z.to_nat ((Beg b + Z.of_nat i) mod N b)) /\
  (forall p, op_wf (A b) p -> exists r, RingWriteFrames b p = Ok r) /\
  (forall p, op_wf (A b) p -> exists r, RingReadFrames b p = Ok r) /\
  (forall p, op_wf (A b) p -> exists r, RingReadWithoutAdvance b p = Ok r) /\
  (forall n, 0 < N b \/ n <= 0 -> exists b', Advance b n = Ok b').
Proof.
  intros Hholds. destruct (ring_holds_inv nil_frame b q Hholds) as [Hinv <-].
  pose proof (length_contents b Hinv) as Hlc.
  pose proof Hinv as (_ & _ & HR & HB & HB').
  split_and!; try done; try lia.
  - intros i Hi. rewrite contents_lookup, decide_True by done.
    rewrite slot_mod by (done || lia). done.
  - intros p Hwf.
    destruct (RingWriteFrames_spec b p Hinv Hwf) as (b' & w & Hrun & _).
    eexists. exact Hrun.
  - intros p Hwf. by apply readAndMaybeAdvance_returns.
  - intros p Hwf. by apply readAndMaybeAdvance_returns.
  - intros n Hn. destruct (Advance_spec b n Hinv Hn) as (b' & Hrun & _).
    by exists b'.
Qed.

(** C7: for every slice [out], also one that shares cells with the array
    of the buffer, [RingReadFrames] and [RingReadWithoutAdvance] return
    [n = 0] and a nil error when [out] has length zero (also on an empty
    buffer); [n = 0] and [io.EOF] when [Readable = 0] and [out] is not empty;
    and otherwise copy [n = min(len(out), Readable)] slots to the front of
    [out], leave the rest of [out] as it was and return [n] with a nil
    error.  [RingReadWithoutAdvance] leaves [N], [Beg] and [Readable] as
    they were; [RingReadFrames] is that followed by [Advance(n)].  When
    [out] shares nothing with the buffer, or the readable region does not
    wrap, [out] then starts with the [n] oldest readable slots, in order;
    and when [out] shares nothing with the buffer the array is not written
    either, so that the peek leaves the buffer as it was and the read drops
    what it copied. *)
Theorem read_results b p :
  ring_inv b -> op_wf (A b) p ->
  (oplen p = 0 ->
     RingReadFrames b p = Ok (b, p, 0, None) /\
     RingReadWithoutAdvance b p = Ok (b, p, 0, None)) /\
  (oplen p <> 0 -> Readable b = 0 ->
     RingReadFrames b p = Ok (b, p, 0, Some EOF) /\
     RingReadWithoutAdvance b p = Ok (b, p, 0, Some EOF)) /\
  (oplen p <> 0 -> Readable b <> 0 ->
     let n := Z.min (oplen p) (Readable b) in
     exists b1 p1 b2,
       RingReadWithoutAdvance b p = Ok (b1, p1, n, None) /\
       RingReadFrames b p = Ok (b2, p1, n, None) /\
       Advance b1 n = Ok b2 /\
       ring_inv b1 /\ N b1 = N b /\ Beg b1 = Beg b /\ Readable b1 = Readable b /\
       ring_inv b2 /\ Readable b2 = Readable b - n /\
       contents b2 = drop (Z.to_nat n) (contents b1) /\
       op_wf (A b1) p1 /\ oplen p1 = oplen p /\
       drop (Z.to_nat n) (op_vals (A b1) p1)
         = drop (Z.to_nat n) (op_vals (A b) p) /\
       (joint p = 0%nat \/ Beg b + Readable b <= N b ->
          take (Z.to_nat n) (op_vals (A b1) p1)
            = take (Z.to_nat n) (contents b)) /\
       (joint p = 0%nat -> b1 = b) /\
       (forall l, p = Own l ->
          p1 = Own (take (Z.to_nat n) (contents b) ++ drop (Z.to_nat n) l))).
Proof.
  intros Hinv Hwf. pose proof Hinv as (_ & _ & HR & _). split_and!.
  - intros Hp. unfold RingReadFrames, RingReadWithoutAdvance.
    rewrite !read_nothing by (right; done). by rewrite decide_True.
  - intros Hp HR0. unfold RingReadFrames, RingReadWithoutAdvance.
    rewrite !read_nothing by (left; done). by rewrite decide_False.
  - intros Hp HR0 n.
    destruct (readAndMaybeAdvance_spec b p false Hinv Hwf Hp HR0)
      as (a & p1 & b1 & Hpeek & Hinv1 & Hcap & Hwf1 & Hsz & -> & Hdrop & Htake
          & Hown & HOwn).
    fold n in Hpeek, Hdrop, Htake, HOwn.
    assert (0 < n <= Readable b) as Hn by (unfold n, oplen in *; lia).
    destruct (Advance_spec _ n Hinv1)
      as (b2 & Hadv & Hinv2 & _ & _ & HR2 & _ & Hc2); [simpl; lia|].
    cbn [Readable] in HR2, Hc2.
    exists {| A := a; N := N b; Beg := Beg b; Readable := Readable b |}, p1, b2.
    split_and!; try done.
    + rewrite (read_after_peek b p _ _ _ _ Hpeek), Hadv. done.
    + lia.
    + rewrite Hc2. f_equal. lia.
    + unfold oplen. by rewrite Hsz.
    + intros Hj. rewrite (Hown Hj). apply FrameRingBuf_eta.
Qed.

(** C9: [Adopt(me)] with [len(me) > N] makes [me] the backing array, with
    capacity [N = len(me)], [Beg = 0] and [Readable = len(me)]; with
    [len(me) <= N] it copies the elements of [me] into the existing array
    from offset 0, keeps [N] and the array's length and capacity, and sets
    [Beg = 0] and [Readable = len(me)]. *)
Theorem Adopt_cases b me :
  ring_inv b -> addressable me ->
  (len me > N b ->
     Adopt b me = {| A := me; N := len me; Beg := 0; Readable := len me |}) /\
  (len me <= N b ->
     N (Adopt b me) = N b /\ Beg (Adopt b me) = 0 /\
     Readable (Adopt b me) = len me /\
     cap (A (Adopt b me)) = cap (A b) /\ len (A (Adopt b me)) = len (A b) /\
     elems (A (Adopt b me)) = elems me ++ drop (slen me) (elems (A b))).
Proof.
  intros Hinv [Hme _]. split.
  - apply Adopt_larger.
  - by apply Adopt_smaller.
Qed.

(** C10: for every slice [p], also one that shares cells with the array,
    [RingWriteFrames] returns, leaves [Beg] (and [N]) unchanged, never
    shrinks [Readable], and leaves every slot of the region that was readable,
    [(Beg + i) mod N] for [0 <= i < Readable], as it was: what was readable
    before the write is the front of what is readable after it. *)
Theorem RingWriteFrames_frame b p :
  ring_inv b -> op_wf (A b) p ->
  exists b' n err, RingWriteFrames b p = Ok (b', n, err) /\
    Beg b' = Beg b /\ N b' = N b /\ Readable b <= Readable b' /\
    (forall i, 0 <= i < Readable b ->
       elems (A b') !! Z.to_nat ((Beg b + i) mod N b)
       = elems (A b) !! Z.to_nat ((Beg b + i) mod N b)) /\
    take (Z.to_nat (Readable b)) (contents b') = contents b.
Proof.
  intros Hinv Hwf. pose proof (length_contents b Hinv) as Hlc.
  pose proof Hinv as (_ & _ & HR & _).
  destruct (RingWriteFrames_spec b p Hinv Hwf)
    as (b' & w & Hrun & Hinv' & HN' & HB1 & _ & HR' & Hc & Hlw & _ & Hframe).
  eexists b', _, _. split; [exact Hrun|]. split_and!; try done; try lia.
  - intros i Hi. specialize (Hframe (Z.to_nat i)).
    rewrite Z2Nat.id in Hframe by lia.
    rewrite <- slot_mod by (done || lia). apply Hframe. lia.
  - rewrite Hc. rewrite take_app_le by lia. apply take_ge. lia.
Qed.

End RingFacts.

(** *** The claims at concrete buffers *)

(** Writing 3 slots, reading 2 and writing 3 more into a buffer of 4 slots
    leaves [Beg = 2] and [Readable = 4]: the readable region wraps. *)
Example wrapped_buffer :
  (b ← NewFrameRingBuf 0 4;
   r ← RingWriteFrames b (Own [1; 2; 3]);
   r ← RingReadFrames r.1.1 (Own [0; 0]);
   r ← RingWriteFrames r.1.1.1 (Own [4; 5; 6]);
   Ok r.1.1)
  = Ok {| A := Slice [5; 6; 3; 4] 4; N := 4; Beg := 2; Readable := 4 |}.
Proof. reflexivity. Qed.

(** On an adopted array with spare capacity the same call does not panic:
    its first slice runs into the spare slots 4 and 5. *)
Example wrapped_adopted_buffer :
  (b ← Advance (Adopt {| A := Slice [0; 0] 2; N := 2; Beg := 0; Readable := 0 |}
                      (Slice [1; 2; 3; 4; 5; 6] 4)) 2;
   r ← RingWriteFrames b (Own [7; 8]);
   two ← TwoContig r.1.1 false;
   Ok (two, contents r.1.1))
  = Ok (([3; 4; 5; 6], [7; 8]), [3; 4; 7; 8]).
Proof. reflexivity. Qed.

(** A write from a slice of the buffer's own array, [p = b.A[2:4]]: the
    first pass stores [p[0]] in slot 3, which is [p[1]], and the second pass
    then reads it: the buffer holds [1 2 2 2], where a [p] of its own with
    the same elements [2 9] gives [1 2 2 9].  [n], [err], [Beg] and the
    slots that were readable are the same. *)
Example aliased_write :
  let b := {| A := Slice [0; 1; 2; 9] 4; N := 4; Beg := 1; Readable := 2 |} in
  op_vals (A b) (Operand [] 2 2 []) = [2; 9] /\
  (r ← RingWriteFrames b (Operand [] 2 2 []); Ok (r, contents r.1.1))
  = Ok (({| A := Slice [2; 1; 2; 2] 4; N := 4; Beg := 1; Readable := 4 |},
         2, None), [1; 2; 2; 2]) /\
  (r ← RingWriteFrames b (Own [2; 9]); Ok (r, contents r.1.1))
  = Ok (({| A := Slice [9; 1; 2; 2] 4; N := 4; Beg := 1; Readable := 4 |},
         2, None), [1; 2; 2; 9]).
Proof. repeat split. Qed.

(** A peek into a slice of the buffer's own array, [out = b.A[0:4]], when
    the readable region wraps: the first copy overwrites slots 0 and 1
    before the second reads them, so [out] holds [3 4 3 4] and not the
    readable slots [3 4 5 6], and the array has changed.  [n] and the error
    are those of a read into a slice of its own. *)
Example aliased_peek :
  let b := {| A := Slice [5; 6; 3; 4] 4; N := 4; Beg := 2; Readable := 4 |} in
  contents b = [3; 4; 5; 6] /\
  (r ← RingReadWithoutAdvance b (Operand [] 0 4 []);
   Ok (r, op_vals (A r.1.1.1) r.1.1.2))
  = Ok (({| A := Slice [3; 4; 3; 4] 4; N := 4; Beg := 2; Readable := 4 |},
         Operand [] 0 4 [], 4, None), [3; 4; 3; 4]) /\
  RingReadWithoutAdvance b (Own [0; 0; 0; 0])
  = Ok (b, Own [3; 4; 5; 6], 4, None).
Proof. repeat split. Qed.

Lemma ring_inv_wrapped_buffer :
  ring_inv {| A := Slice [5; 6; 3; 4] 4; N := 4; Beg := 2; Readable := 4 |}.
Proof.
  unfold ring_inv, addressable, len, cap, max_int; simpl.
  split_and!; lia.
Qed.

Lemma ring_inv_partly_filled :
  ring_inv {| A := Slice [5; 0; 0; 4] 4; N := 4; Beg := 3; Readable := 2 |}.
Proof.
  unfold ring_inv, addressable, len, cap, max_int; simpl. split_and!; lia.
Qed.

Lemma ring_inv_two_readable :
  ring_inv {| A := Slice [0; 1; 2; 9] 4; N := 4; Beg := 1; Readable := 2 |}.
Proof.
  unfold ring_inv, addressable, len, cap, max_int; simpl. split_and!; lia.
Qed.

Lemma TwoContig_wrapped_never_readable_witness :
  TwoContig {| A := Slice [5; 6; 3; 4] 4; N := 4; Beg := 2; Readable := 4 |} false
  = Panic SliceBoundsOutOfRange.
Proof.
  apply (TwoContig_wrapped_never_readable
           {| A := Slice [5; 6; 3; 4] 4; N := 4; Beg := 2; Readable := 4 |} false).
  - exact ring_inv_wrapped_buffer.
  - simpl. lia.
  - reflexivity.
Defined.

(** C3 (as stated) fails: a buffer of one slot that is full answers a write
    of one slot with [n = 0] and [io.ErrShortWrite], whose kind is
    [ShortWrite]; no status of kind [BufferFull] is returned. *)
Lemma RingWriteFrames_full_not_BufferFull :
  RingWriteFrames {| A := Slice [7] 1; N := 1; Beg := 0; Readable := 1 |} (Own [8])
    = Ok ({| A := Slice [7] 1; N := 1; Beg := 0; Readable := 1 |},
          0, Some ErrShortWrite) /\
  ~ (exists b' e,
       RingWriteFrames {| A := Slice [7] 1; N := 1; Beg := 0; Readable := 1 |}
                       (Own [8])
         = Ok (b', 0, Some e) /\ kind_of e = BufferFull).
Proof.
  split; [reflexivity|]. intros (b' & e & Hrun & Hkind).
  vm_compute in Hrun. injection Hrun as _ <-. discriminate Hkind.
Qed.

Lemma RingWriteFrames_status_witness :
  let b := {| A := Slice [5; 0; 0; 4] 4; N := 4; Beg := 3; Readable := 2 |} in
  (exists b', RingWriteFrames b (Own [6; 7; 8]) = Ok (b', 2, Some ErrShortWrite)) /\
  (exists b', RingWriteFrames b (Own [6; 7]) = Ok (b', 2, None)) /\
  (exists b', RingWriteFrames b (Operand [] 1 2 []) = Ok (b', 2, None)).
Proof.
  intros b. split_and!.
  - apply (RingWriteFrames_status b (Own [6; 7; 8]) ring_inv_partly_filled).
    + apply op_wf_Own.
    + reflexivity.
  - apply (RingWriteFrames_status b (Own [6; 7]) ring_inv_partly_filled).
    + apply op_wf_Own.
    + unfold oplen, opsize; simpl. lia.
  - apply (RingWriteFrames_status b (Operand [] 1 2 []) ring_inv_partly_filled).
    + unfold op_wf; simpl. lia.
    + unfold oplen, opsize; simpl. lia.
Defined.

Lemma ring_holds_invariant_witness :
  let b := {| A := Slice [1; 2; 3; 0] 4; N := 4; Beg := 2; Readable := 1 |} in
  ring_holds 0 b [3] /\
  (0 <= Readable b <= N b /\ 0 <= Beg b /\ (0 < N b -> Beg b < N b) /\
   Z.of_nat (length [3]) = Readable b /\
   forall i : nat, Z.of_nat i < Readable b ->
     [3] !! i = elems (A b) !! Z.to_nat ((Beg b + Z.of_nat i) mod N b)).
Proof.
  intros b.
  assert (ring_holds 0 b [3]) as Hholds.
  { apply (holds_read Z 0
             {| A := Slice [1; 2; 3; 0] 4; N := 4; Beg := 0; Readable := 3 |}
             [1; 2; 3] [0; 0] b (Own [1; 2]) 2 None); [|reflexivity].
    apply (holds_write Z 0
             {| A := Slice [0; 0; 0; 0] 4; N := 4; Beg := 0; Readable := 0 |}
             [] [1; 2; 3] _ 3 None); [|reflexivity].
    apply (holds_new Z 0 4); [unfold max_int; lia|reflexivity]. }
  split; [exact Hholds|]. exact (proj1 (ring_holds_invariant 0 b [3] Hholds)).
Defined.

(** C7 at the wrapped buffer: into a slice of its own, and into the slice
    [b.A[0:4]] of the buffer's array, where the count and the error are the
    same. *)
Lemma read_results_witness :
  let b := {| A := Slice [5; 6; 3; 4] 4; N := 4; Beg := 2; Readable := 4 |} in
  (exists b2,
     RingReadWithoutAdvance b (Own [0; 0; 0; 0; 0])
       = Ok (b, Own [3; 4; 5; 6; 0], 4, None) /\
     RingReadFrames b (Own [0; 0; 0; 0; 0])
       = Ok (b2, Own [3; 4; 5; 6; 0], 4, None) /\
     ring_inv b2 /\ Readable b2 = 0 /\ contents b2 = []) /\
  (exists b1 p1 b2,
     RingReadWithoutAdvance b (Operand [] 0 4 []) = Ok (b1, p1, 4, None) /\
     RingReadFrames b (Operand [] 0 4 []) = Ok (b2, p1, 4, None) /\
     Readable b1 = 4 /\ Readable b2 = 0).
Proof.
  intros b. split.
  - destruct (proj2 (proj2 (read_results b (Own [0; 0; 0; 0; 0])
                              ring_inv_wrapped_buffer (op_wf_Own _ _)))
                ltac:(discriminate) ltac:(discriminate))
      as (b1 & p1 & b2 & Hpeek & Hread & _ & _ & _ & _ & _ & Hinv2 & HR2 & Hc2
          & _ & _ & _ & _ & Hb1 & Hp1).
    rewrite (Hb1 eq_refl) in Hpeek, Hc2. rewrite (Hp1 _ eq_refl) in Hpeek, Hread.
    exists b2. split_and!; [exact Hpeek|exact Hread|exact Hinv2|exact HR2|exact Hc2].
  - destruct (proj2 (proj2 (read_results b (Operand [] 0 4 [])
                              ring_inv_wrapped_buffer
                              ltac:(unfold op_wf; simpl; lia)))
                ltac:(discriminate) ltac:(discriminate))
      as (b1 & p1 & b2 & Hpeek & Hread & _ & _ & _ & _ & HR1 & _ & HR2 & _).
    exists b1, p1, b2. split_and!; [exact Hpeek|exact Hread|exact HR1|exact HR2].
Defined.

Lemma Adopt_cases_witness :
  let b := {| A := Slice [5; 6; 3; 4] 4; N := 4; Beg := 2; Readable := 4 |} in
  Adopt b (Slice [1; 2; 3; 4; 5; 6] 5)
    = {| A := Slice [1; 2; 3; 4; 5; 6] 5; N := 5; Beg := 0; Readable := 5 |} /\
  elems (A (Adopt b (Slice [1; 2; 9] 2))) = [1; 2; 3; 4].
Proof.
  intros b.
  assert (forall l n, (n <= length l)%nat -> (length l <= 100)%nat ->
                      addressable (Slice (l : list Z) n)) as Haddr.
  { intros l n Hn Hl. unfold addressable, cap, max_int; simpl. lia. }
  split.
  - apply (Adopt_cases b (Slice [1; 2; 3; 4; 5; 6] 5) ring_inv_wrapped_buffer).
    + apply Haddr; simpl; lia.
    + unfold len; simpl. lia.
  - apply (Adopt_cases b (Slice [1; 2; 9] 2) ring_inv_wrapped_buffer).
    + apply Haddr; simpl; lia.
    + unfold len; simpl. lia.
Defined.

(** C10 at a slice of its own, and at the slice [b.A[2:4]] of the buffer's
    array. *)
Lemma RingWriteFrames_frame_witness :
  (let b := {| A := Slice [5; 0; 0; 4] 4; N := 4; Beg := 3; Readable := 2 |} in
   exists b' n err, RingWriteFrames b (Own [6; 7; 8]) = Ok (b', n, err) /\
     Beg b' = Beg b /\ N b' = N b /\ Readable b <= Readable b' /\
     (forall i, 0 <= i < Readable b ->
        elems (A b') !! Z.to_nat ((Beg b + i) mod N b)
        = elems (A b) !! Z.to_nat ((Beg b + i) mod N b)) /\
     take (Z.to_nat (Readable b)) (contents b') = contents b) /\
  (let b := {| A := Slice [0; 1; 2; 9] 4; N := 4; Beg := 1; Readable := 2 |} in
   exists b' n err, RingWriteFrames b (Operand [] 2 2 []) = Ok (b', n, err) /\
     Beg b' = Beg b /\ N b' = N b /\ Readable b <= Readable b' /\
     (forall i, 0 <= i < Readable b ->
        elems (A b') !! Z.to_nat ((Beg b + i) mod N b)
        = elems (A b) !! Z.to_nat ((Beg b + i) mod N b)) /\
     take (Z.to_nat (Readable b)) (contents b') = contents b).
Proof.
  split; intros b.
  - apply (RingWriteFrames_frame b (Own [6; 7; 8]) ring_inv_partly_filled).
    apply op_wf_Own.
  - apply (RingWriteFrames_frame b (Operand [] 2 2 []) ring_inv_two_readable).
    unfold op_wf; simpl. lia.
Defined.

(** ** Heap order: the steps of [up] and [down] on the list of keys *)

Section HeapOrder.

Lemma length_list_swap {X} (i j : nat) (l : list X) :
  length (list_swap i j l) = length l.
Proof.
  unfold list_swap. destruct (l !! i), (l !! j); try done.
  by rewrite !length_insert.
Qed.

Lemma list_swap_lookup {X} (i j k : nat) (l : list X) :
  (i < length l)%nat -> (j < length l)%nat ->
  list_swap i j l !! k =
    if decide (k = i) then l !! j else if decide (k = j) then l !! i else l !! k.
Proof.
  intros Hi Hj. unfold list_swap.
  destruct (lookup_lt_is_Some_2 l i Hi) as [x Hx].
  destruct (lookup_lt_is_Some_2 l j Hj) as [y Hy].
  rewrite Hx, Hy. repeat case_decide; subst.
  - destruct (decide (i = j)) as [->|Hne].
    + rewrite list_lookup_insert_eq by (rewrite length_insert; lia). congruence.
    + rewrite list_lookup_insert_ne by done.
      by rewrite list_lookup_insert_eq by lia.
  - by rewrite list_lookup_insert_eq by (rewrite length_insert; lia).
  - by rewrite !list_lookup_insert_ne by done.
Qed.

Lemma list_swap_perm {X} (i j : nat) (l : list X) : list_swap i j l ≡ₚ l.
Proof.
  unfold list_swap. destruct (l !! i) eqn:Hi, (l !! j) eqn:Hj; try done.
  by apply Permutation_insert_swap.
Qed.

Lemma list_swap_fmap {X Y} (f : X -> Y) (i j : nat) (l : list X) :
  f <$> list_swap i j l = list_swap i j (f <$> l).
Proof.
  unfold list_swap. rewrite !list_lookup_fmap.
  destruct (l !! i), (l !! j); simpl; try done.
  by rewrite !list_fmap_insert.
Qed.

Lemma kth_swap (i j x : nat) (ks : list Z) :
  (i < length ks)%nat -> (j < length ks)%nat ->
  kth (list_swap i j ks) x =
    if decide (x = i) then kth ks j else if decide (x = j) then kth ks i
    else kth ks x.
Proof.
  intros Hi Hj. unfold kth. rewrite list_swap_lookup by done.
  by repeat case_decide.
Qed.

Lemma kth_take (n x : nat) (ks : list Z) :
  (x < n)%nat -> kth (take n ks) x = kth ks x.
Proof.
  intros Hx. unfold kth. by rewrite lookup_take, decide_True by done.
Qed.

Lemma kth_app_l (x : nat) (ks ks' : list Z) :
  (x < length ks)%nat -> kth (ks ++ ks') x = kth ks x.
Proof. intros Hx. unfold kth. by rewrite lookup_app_l. Qed.

(** [down] stops: the key at [i] is below its children. *)
Lemma down_inv_stop lo i n ks :
  down_inv lo i n ks -> below_children i n ks -> heap_from lo n ks.
Proof.
  intros [HA HB] Hle p c Hlo Hpc Hc.
  destruct (decide (p = i)) as [->|Hne]; [by apply Hle|by apply HA].
Qed.

(** [down] swaps the key at [i] with its smaller child [j]. *)
Lemma down_inv_step lo i j n ks :
  down_inv lo i n ks -> (lo <= i)%nat -> is_child i j ->
  (j < n)%nat -> (n <= length ks)%nat -> kth ks j < kth ks i ->
  (forall c, is_child i c -> (c < n)%nat -> kth ks j <= kth ks c) ->
  down_inv lo j n (list_swap i j ks).
Proof.
  intros [HA HB] Hlo Hij Hj Hn Hlt Hmin.
  assert (i < j)%nat as Hij' by (unfold is_child in Hij; lia).
  split.
  - intros p c Hp Hpj Hpc Hc. rewrite !kth_swap by lia.
    destruct (decide (p = i)) as [->|Hpi].
    + destruct (decide (c = i)) as [->|_]; [unfold is_child in Hpc; lia|].
      destruct (decide (c = j)) as [->|_]; [lia|]. by apply Hmin.
    + rewrite (decide_False (P := p = j)) by done.
      destruct (decide (c = i)) as [->|Hci].
      * by apply (HB p j).
      * destruct (decide (c = j)) as [->|_];
          [unfold is_child in *; lia|by apply HA].
  - intros g c Hg Hgj Hjc Hc. rewrite !kth_swap by lia.
    assert (g = i) as -> by (unfold is_child in *; lia).
    rewrite decide_True by done.
    rewrite decide_False by (unfold is_child in *; lia).
    rewrite decide_False by (unfold is_child in *; lia).
    apply HA; try done; lia.
Qed.

(** [up] stops at the root or below a smaller parent. *)
Lemma up_inv_stop j n ks :
  up_inv j n ks ->
  (j = 0%nat \/ kth ks ((j - 1) / 2) <= kth ks j) ->
  heap_from 0 n ks.
Proof.
  intros [HA HB] Hstop p c _ Hpc Hc.
  destruct (decide (c = j)) as [->|Hne]; [|by apply HA].
  destruct Hstop as [->|Hle]; [unfold is_child in Hpc; lia|].
  replace p with ((j - 1) / 2)%nat; [done|].
  unfold is_child in Hpc. destruct Hpc as [->| ->].
  - replace (2 * p + 1 - 1)%nat with (p * 2)%nat by lia.
    by rewrite Nat.div_mul.
  - replace (2 * p + 2 - 1)%nat with (1 + p * 2)%nat by lia.
    rewrite Nat.div_add by done. done.
Qed.

Lemma parent_child (j : nat) : (0 < j)%nat -> is_child ((j - 1) / 2) j.
Proof.
  intros Hj. unfold is_child.
  pose proof (Nat.div_mod_eq (j - 1) 2) as Hd.
  pose proof (Nat.mod_upper_bound (j - 1) 2 ltac:(done)) as Hm. lia.
Qed.

(** [up] swaps the key at [j] with its greater parent [i]. *)
Lemma up_inv_step i j n ks :
  up_inv j n ks -> is_child i j -> (j < n)%nat -> (n <= length ks)%nat ->
  kth ks j < kth ks i ->
  up_inv i n (list_swap i j ks).
Proof.
  intros [HA HB] Hij Hj Hn Hlt.
  assert (i < j)%nat as Hij' by (unfold is_child in Hij; lia).
  split.
  - intros p c Hci Hpc Hc. rewrite !kth_swap by lia.
    rewrite (decide_False (P := c = i)) by done.
    destruct (decide (c = j)) as [->|Hcj].
    + assert (p = i) as -> by (unfold is_child in *; lia).
      rewrite decide_True by done. lia.
    + destruct (decide (p = i)) as [->|Hpi].
      * pose proof (HA i c Hcj Hpc Hc). lia.
      * destruct (decide (p = j)) as [->|Hpj]; [by apply (HB i c)|by apply HA].
  - intros g c Hgi Hic Hc. rewrite !kth_swap by lia.
    rewrite decide_False by (unfold is_child in *; lia).
    rewrite decide_False by (unfold is_child in *; lia).
    rewrite decide_False by (unfold is_child in *; lia).
    assert (kth ks g <= kth ks i) as Hgi'.
    { apply HA; try done; lia. }
    destruct (decide (c = j)) as [->|Hcj]; [done|].
    pose proof (HA i c Hcj Hic Hc). lia.
Qed.

(** The root of a heap holds a least key. *)
Lemma heap_root_min n ks :
  heap_from 0 n ks -> forall c, (c < n)%nat -> kth ks 0 <= kth ks c.
Proof.
  intros Hheap c. induction (lt_wf c) as [c _ IH]. intros Hc.
  destruct (decide (c = 0%nat)) as [->|Hne]; [lia|].
  pose proof (parent_child c ltac:(lia)) as Hpc.
  assert ((c - 1) / 2 < c)%nat as Hlt by (unfold is_child in Hpc; lia).
  pose proof (IH _ Hlt ltac:(lia)).
  pose proof (Hheap _ _ ltac:(lia) Hpc Hc). lia.
Qed.

Lemma heap_from_up_inv j n ks : heap_from 0 n ks -> up_inv j n ks.
Proof.
  intros Hheap. split.
  - intros p c _ Hpc Hc. apply Hheap; [lia|done..].
  - intros g c Hgj Hjc Hc.
    pose proof (Hheap g j ltac:(lia) Hgj ltac:(unfold is_child in *; lia)).
    pose proof (Hheap j c ltac:(lia) Hjc Hc). lia.
Qed.

(** A key replaced at [i], below its children: [up] can take over. *)
Lemma fix_inv_up i n ks :
  fix_inv i n ks -> below_children i n ks -> up_inv i n ks.
Proof.
  intros [HA HB] Hle. split; [|done].
  intros p c Hci Hpc Hc.
  destruct (decide (p = i)) as [->|Hpi]; [by apply Hle|by apply HA].
Qed.

(** A key replaced at [i], above one of its children: [down] can take
    over. *)
Lemma fix_inv_down i c0 n ks :
  fix_inv i n ks -> is_child i c0 -> (c0 < n)%nat -> kth ks c0 < kth ks i ->
  down_inv 0 i n ks.
Proof.
  intros [HA HB] Hic0 Hc0 Hlt. split; [|intros g c _; by apply HB].
  intros p c _ Hpi Hpc Hc.
  destruct (decide (c = i)) as [->|Hci]; [|by apply HA].
  pose proof (HB p c0 Hpc Hic0 Hc0). lia.
Qed.

(** Replacing the key at [i] in a heap leaves [fix_inv]. *)
Lemma heap_from_fix_inv i n ks ks' :
  heap_from 0 n ks -> (i < n)%nat ->
  (forall x, x <> i -> kth ks' x = kth ks x) ->
  fix_inv i n ks'.
Proof.
  intros Hheap Hi Hsame. split.
  - intros p c Hpi Hci Hpc Hc. rewrite !Hsame by done.
    apply Hheap; [lia|done..].
  - intros g c Hgi Hic Hc.
    rewrite !Hsame by (unfold is_child in *; lia).
    pose proof (Hheap g i ltac:(lia) Hgi Hi).
    pose proof (Hheap i c ltac:(lia) Hic Hc). lia.
Qed.

(** A key appended to a heap: [heap.Fix] at the last index starts here. *)
Lemma fix_inv_snoc ks k :
  heap_ordered ks -> fix_inv (length ks) (S (length ks)) (ks ++ [k]).
Proof.
  intros Hheap. split.
  - intros p c Hp Hc Hpc Hcn.
    assert (p < c)%nat by (unfold is_child in Hpc; lia).
    rewrite !kth_app_l by lia. apply Hheap; [lia|done|lia].
  - intros g c _ Hc Hcn. unfold is_child in Hc. lia.
Qed.

(** The root exchanged with the last key: [down] on the rest starts here. *)
Lemma down_inv_pop ks n :
  heap_from 0 (S n) ks -> (S n <= length ks)%nat ->
  down_inv 0 0 n (list_swap 0 n ks).
Proof.
  intros Hheap Hn. split.
  - intros p c _ Hp Hpc Hc.
    assert (p < c)%nat by (unfold is_child in Hpc; lia).
    rewrite !kth_swap by lia. rewrite !decide_False by lia.
    apply Hheap; [lia|done|lia].
  - intros g c _ Hg. unfold is_child in Hg. lia.
Qed.

(** Heapify: [down] at [i] when the parents after [i] are in order. *)
Lemma down_inv_init i n ks : heap_from (S i) n ks -> down_inv i i n ks.
Proof.
  intros Hheap. split.
  - intros p c Hp Hpi Hpc Hc. apply Hheap; [lia|done..].
  - intros g c Hg Hgi. unfold is_child in Hgi. lia.
Qed.

Lemma heap_from_half n ks : heap_from (n / 2) n ks.
Proof.
  intros p c Hp Hpc Hc. unfold is_child in Hpc.
  pose proof (Nat.div_mod_eq n 2) as Hd.
  pose proof (Nat.mod_upper_bound n 2 ltac:(done)) as Hm. lia.
Qed.

End HeapOrder.

(** ** Facts about the priority queue *)

Section QueueFacts.

Context {Frame : Type}.
Implicit Types (w : world Frame) (p : ptr) (e : Pqe Frame).

Lemma run_bind {X Y} (m : M Frame X) (f : X -> M Frame Y) w :
  (m ≫= f) w =
    match m w with
    | Ok (x, w') => f x w'
    | Panic e => Panic e
    | OutOfFuel => OutOfFuel
    end.
Proof. reflexivity. Qed.

Lemma run_ret {X} (x : X) w : (mret x : M Frame X) w = Ok (x, w).
Proof. reflexivity. Qed.

Lemma index_ok {X} (l : list X) (i : Z) x :
  0 <= i -> l !! Z.to_nat i = Some x -> index l i = Ok x.
Proof.
  intros Hi Hx. unfold index. rewrite decide_True by done. by rewrite Hx.
Qed.

Lemma idx_inv_inj w (i j : nat) p :
  idx_inv w -> Seq (queue w) !! i = Some p -> Seq (queue w) !! j = Some p ->
  i = j.
Proof.
  intros Hinv Hi Hj.
  destruct (Hinv i p Hi) as (e & He & Hidx).
  destruct (Hinv j p Hj) as (e' & He' & Hidx').
  rewrite He in He'. simplify_eq. lia.
Qed.

Lemma length_keys w : length (keys w) = length (Seq (queue w)).
Proof. unfold keys. by rewrite length_fmap. Qed.

Lemma kth_keys w (i : nat) p :
  Seq (queue w) !! i = Some p -> kth (keys w) i = key w p.
Proof.
  intros Hp. unfold kth, keys. by rewrite list_lookup_fmap, Hp.
Qed.

Lemma key_store w p e : store w !! p = Some e -> key w p = OrderBy e.
Proof. intros He. unfold key. by rewrite He. Qed.

Lemma key_payloads w w' p : payloads w' = payloads w -> key w' p = key w p.
Proof.
  intros Hpay. unfold key.
  assert (payloads w' !! p = payloads w !! p) as Hp by by rewrite Hpay.
  unfold payloads in Hp. rewrite !list_lookup_fmap in Hp.
  revert Hp. destruct (store w' !! p), (store w !! p); simpl; intros [=]; done.
Qed.

Lemma keys_payloads w w' :
  payloads w' = payloads w -> Seq (queue w') = Seq (queue w) -> keys w' = keys w.
Proof.
  intros Hpay Hseq. unfold keys. rewrite Hseq.
  apply list_fmap_ext. intros _ p _. by apply key_payloads.
Qed.

Lemma payloads_with_Idx w p e i :
  store w !! p = Some e ->
  payloads {| store := <[p := with_Idx i e]> (store w); queue := queue w |}
  = payloads w.
Proof.
  intros He. unfold payloads; simpl. rewrite list_fmap_insert. simpl.
  apply list_insert_id. by rewrite list_lookup_fmap, He.
Qed.

Lemma Less_spec w (i j : Z) :
  idx_inv w ->
  0 <= i < Z.of_nat (length (Seq (queue w))) ->
  0 <= j < Z.of_nat (length (Seq (queue w))) ->
  Less i j w
  = Ok (bool_decide (kth (keys w) (Z.to_nat i) < kth (keys w) (Z.to_nat j)), w).
Proof.
  intros Hinv Hi Hj.
  destruct (lookup_lt_is_Some_2 (Seq (queue w)) (Z.to_nat i)) as [a Ha]; [lia|].
  destruct (lookup_lt_is_Some_2 (Seq (queue w)) (Z.to_nat j)) as [b Hb]; [lia|].
  destruct (Hinv _ _ Ha) as (ea & Hea & _).
  destruct (Hinv _ _ Hb) as (eb & Heb & _).
  rewrite (kth_keys w _ a Ha), (kth_keys w _ b Hb).
  rewrite (key_store w a ea Hea), (key_store w b eb Heb).
  unfold Less. rewrite run_bind. unfold getSeq at 1.
  rewrite run_bind. unfold lift at 1. rewrite (index_ok _ i a) by (lia || done).
  rewrite run_bind. unfold load at 1. rewrite Hea.
  rewrite run_bind. unfold getSeq at 1.
  rewrite run_bind. unfold lift at 1. rewrite (index_ok _ j b) by (lia || done).
  rewrite run_bind. unfold load at 1. rewrite Heb.
  reflexivity.
Qed.

Lemma Swap_spec w (i j : Z) :
  idx_inv w ->
  0 <= i < Z.of_nat (length (Seq (queue w))) ->
  0 <= j < Z.of_nat (length (Seq (queue w))) ->
  exists w', Swap i j w = Ok (tt, w') /\ idx_inv w' /\
    payloads w' = payloads w /\
    Seq (queue w') = list_swap (Z.to_nat i) (Z.to_nat j) (Seq (queue w)).
Proof.
  intros Hinv Hi Hj.
  destruct (lookup_lt_is_Some_2 (Seq (queue w)) (Z.to_nat i)) as [a Ha]; [lia|].
  destruct (lookup_lt_is_Some_2 (Seq (queue w)) (Z.to_nat j)) as [b Hb]; [lia|].
  destruct (Hinv _ _ Ha) as (ea & Hea & Hia).
  destruct (Hinv _ _ Hb) as (eb & Heb & Hib).
  set (s' := <[Z.to_nat j := a]> (<[Z.to_nat i := b]> (Seq (queue w)))).
  assert (s' = list_swap (Z.to_nat i) (Z.to_nat j) (Seq (queue w))) as Hs'.
  { unfold list_swap. by rewrite Ha, Hb. }
  assert (forall k, s' !! k =
            if decide (k = Z.to_nat i) then Some b
            else if decide (k = Z.to_nat j) then Some a
            else Seq (queue w) !! k) as Hlook.
  { intros k. rewrite Hs', list_swap_lookup by lia.
    repeat case_decide; subst; done. }
  set (st1 := <[b := with_Idx i eb]> (store w)).
  assert (exists eb', st1 !! a = Some eb' /\ Val eb' = Val ea
                      /\ OrderBy eb' = OrderBy ea) as (ea' & Hea' & Hva & Hoa).
  { unfold st1. destruct (decide (a = b)) as [->|Hne].
    - rewrite list_lookup_insert_eq by (by eapply lookup_lt_Some).
      eexists; split; [done|]. by simplify_eq.
    - rewrite list_lookup_insert_ne by done. by exists ea. }
  exists {| store := <[a := with_Idx j ea']> st1;
            queue := {| Seq := s' |} |}.
  split.
  { unfold Swap. rewrite run_bind. unfold getSeq at 1.
    rewrite run_bind. unfold lift at 1. rewrite (index_ok _ j b) by (lia || done).
    rewrite run_bind. unfold lift at 1. rewrite (index_ok _ i a) by (lia || done).
    rewrite run_bind. unfold setSeq at 1. fold s'.
    rewrite run_bind. unfold getSeq at 1. cbn [queue Seq store].
    rewrite run_bind. unfold lift at 1.
    rewrite (index_ok s' i b); [|lia|by rewrite Hlook, decide_True].
    rewrite run_bind. unfold modify at 1. cbn [queue Seq store].
    rewrite Heb. fold st1.
    rewrite run_bind. unfold getSeq at 1. cbn [queue Seq store].
    rewrite run_bind. unfold lift at 1.
    rewrite (index_ok s' j a); [|lia|].
    2:{ rewrite Hlook. case_decide as Hji; [|by rewrite decide_True].
        f_equal. assert (Z.to_nat i = Z.to_nat j) as Heq by done.
        rewrite Heq in Ha. congruence. }
    unfold modify. cbn [queue Seq store]. rewrite Hea'. done. }
  split_and!.
  - intros k p Hk. cbn [queue Seq store] in *. rewrite Hlook in Hk.
    destruct (decide (k = Z.to_nat i)) as [->|Hki].
    { simplify_eq. destruct (decide (a = p)) as [->|Hne].
      - rewrite list_lookup_insert_eq by (by eapply lookup_lt_Some).
        eexists; split; [done|]. simpl.
        assert (Z.to_nat i = Z.to_nat j) by (by eapply idx_inv_inj). lia.
      - rewrite list_lookup_insert_ne by done. unfold st1.
        rewrite list_lookup_insert_eq by (by eapply lookup_lt_Some).
        eexists; split; [done|]. simpl. lia. }
    destruct (decide (k = Z.to_nat j)) as [->|Hkj].
    { simplify_eq.
      rewrite list_lookup_insert_eq by (by eapply lookup_lt_Some).
      eexists; split; [done|]. simpl. lia. }
    destruct (Hinv _ _ Hk) as (e & He & Hidx).
    assert (p <> a) as Hpa.
    { intros ->. apply Hki. by eapply idx_inv_inj. }
    assert (p <> b) as Hpb.
    { intros ->. apply Hkj. by eapply idx_inv_inj. }
    rewrite list_lookup_insert_ne by done. unfold st1.
    rewrite list_lookup_insert_ne by done. by exists e.
  - transitivity (payloads {| store := st1; queue := {| Seq := s' |} |}).
    + unfold payloads; simpl. rewrite list_fmap_insert. simpl.
      apply list_insert_id. rewrite list_lookup_fmap, Hea'. simpl. congruence.
    + unfold payloads, st1; simpl. rewrite list_fmap_insert. simpl.
      apply list_insert_id. by rewrite list_lookup_fmap, Heb.
  - done.
Qed.

Lemma keys_swap w w' (i j : nat) :
  payloads w' = payloads w ->
  Seq (queue w') = list_swap i j (Seq (queue w)) ->
  keys w' = list_swap i j (keys w).
Proof.
  intros Hpay Hseq. unfold keys. rewrite Hseq, list_swap_fmap.
  f_equal. apply list_fmap_ext. intros _ p _. by apply key_payloads.
Qed.

(** The left child's index [2*i + 1], or a negative number after overflow. *)
Lemma child_index i :
  0 <= i <= max_int ->
  (2 * i + 1 <= max_int -> add64 (mul64 2 i) 1 = 2 * i + 1) /\
  (max_int < 2 * i + 1 -> add64 (mul64 2 i) 1 < 0).
Proof.
  unfold add64, mul64, wrap, max_int. intros Hi.
  split; intros H; Z.to_euclidean_division_equations; lia.
Qed.

Lemma down_loop_S fuel (i0 i n : Z) :
  down_loop (S fuel) i0 i n =
    (let j1 := add64 (mul64 2 i) 1 in
     if decide (j1 >= n \/ j1 < 0) then
       mret (bool_decide (i > i0))
     else
       let j2 := add64 j1 1 in
       j ← (if decide (j2 < n) then
              lt ← Less j2 j1; mret (if lt : bool then j2 else j1)
            else mret j1) : M Frame Z;
       lt ← Less j i;
       if negb lt then mret (bool_decide (i > i0))
       else Swap i j;; down_loop fuel i0 j n).
Proof. reflexivity. Qed.

(** Choosing the smaller child in [down]. *)
Lemma select_child w (i n : Z) :
  idx_inv w -> 0 <= i -> 2 * i + 1 < n ->
  n <= Z.of_nat (length (Seq (queue w))) ->
  exists j,
    ((if decide (2 * i + 1 + 1 < n) then
        lt ← Less (2 * i + 1 + 1) (2 * i + 1);
        mret (if lt : bool then 2 * i + 1 + 1 else 2 * i + 1)
      else mret (2 * i + 1)) : M Frame Z) w = Ok (j, w) /\
    is_child (Z.to_nat i) (Z.to_nat j) /\ 0 <= j < n /\
    forall c, is_child (Z.to_nat i) c -> (c < Z.to_nat n)%nat ->
      kth (keys w) (Z.to_nat j) <= kth (keys w) c.
Proof.
  intros Hinv Hi Hj1 Hn. case_decide as Hj2.
  - rewrite run_bind, Less_spec by (done || lia).
    case_bool_decide as Hlt; rewrite run_ret.
    + exists (2 * i + 1 + 1). split; [done|]. split; [unfold is_child; lia|].
      split; [lia|]. intros c Hc Hcn.
      destruct Hc as [->| ->].
      * replace (2 * Z.to_nat i + 1)%nat with (Z.to_nat (2 * i + 1)) by lia.
        lia.
      * replace (2 * Z.to_nat i + 2)%nat with (Z.to_nat (2 * i + 1 + 1)) by lia.
        lia.
    + exists (2 * i + 1). split; [done|]. split; [unfold is_child; lia|].
      split; [lia|]. intros c Hc Hcn.
      destruct Hc as [->| ->].
      * replace (2 * Z.to_nat i + 1)%nat with (Z.to_nat (2 * i + 1)) by lia.
        lia.
      * replace (2 * Z.to_nat i + 2)%nat with (Z.to_nat (2 * i + 1 + 1)) by lia.
        lia.
  - rewrite run_ret. exists (2 * i + 1). split; [done|].
    split; [unfold is_child; lia|]. split; [lia|]. intros c Hc Hcn.
    destruct Hc as [->| ->]; [|lia].
    replace (2 * Z.to_nat i + 1)%nat with (Z.to_nat (2 * i + 1)) by lia. lia.
Qed.

Lemma down_loop_spec fuel (i0 n : Z) : forall w (i : Z),
  idx_inv w -> sized w ->
  0 <= i0 <= i -> i <= max_int ->
  0 <= n <= Z.of_nat (length (Seq (queue w))) ->
  (Z.to_nat n - Z.to_nat i < fuel)%nat ->
  exists w' i',
    down_loop fuel i0 i n w = Ok (bool_decide (i' > i0), w') /\
    i <= i' /\ idx_inv w' /\ payloads w' = payloads w /\
    Seq (queue w') ≡ₚ Seq (queue w) /\
    length (Seq (queue w')) = length (Seq (queue w)) /\
    (forall k : nat, (k < Z.to_nat i \/ Z.to_nat n <= k)%nat ->
       Seq (queue w') !! k = Seq (queue w) !! k) /\
    (forall lo, (lo <= Z.to_nat i)%nat ->
       down_inv lo (Z.to_nat i) (Z.to_nat n) (keys w) ->
       heap_from lo (Z.to_nat n) (keys w')) /\
    (below_children (Z.to_nat i) (Z.to_nat n) (keys w) -> w' = w /\ i' = i).
Proof.
  induction fuel as [|fuel IH]; intros w i Hinv Hsized Hi Himax Hn Hfuel; [lia|].
  unfold sized in Hsized.
  rewrite down_loop_S. cbv zeta.
  destruct (child_index i ltac:(lia)) as [Hj1 Hj1'].
  destruct (decide (2 * i + 1 < n)) as [Hchild|Hchild].
  2:{ (* no child below [n]: the loop stops *)
    rewrite decide_True by lia. rewrite run_ret.
    exists w, i. split_and!; try done; try lia.
    intros lo Hlo Hdown. apply (down_inv_stop _ _ _ _ Hdown).
    intros c Hc Hcn. unfold is_child in Hc. lia. }
  rewrite Hj1 by lia. rewrite decide_False by lia.
  assert (add64 (2 * i + 1) 1 = 2 * i + 1 + 1) as ->.
  { unfold add64. apply wrap_id. unfold in_int, min_int, max_int in *. lia. }
  rewrite run_bind.
  destruct (select_child w i n Hinv ltac:(lia) Hchild ltac:(lia))
    as (j & -> & Hij & Hj & Hmin).
  rewrite run_bind, Less_spec by (done || lia).
  case_bool_decide as Hlt; cbn [negb].
  2:{ (* the smaller child is not below the key at [i]: the loop stops *)
    rewrite run_ret. exists w, i.
    assert (below_children (Z.to_nat i) (Z.to_nat n) (keys w)) as Hbelow.
    { intros c Hc Hcn. pose proof (Hmin c Hc Hcn). lia. }
    split_and!; try done; try lia.
    intros lo Hlo Hdown. by apply (down_inv_stop _ _ _ _ Hdown). }
  destruct (Swap_spec w i j Hinv ltac:(lia) ltac:(lia))
    as (w1 & Hswap & Hinv1 & Hpay1 & Hseq1).
  rewrite run_bind, Hswap.
  assert (length (Seq (queue w1)) = length (Seq (queue w))) as Hlen1.
  { by rewrite Hseq1, length_list_swap. }
  assert (i < j) as Hij' by (unfold is_child in Hij; lia).
  destruct (IH w1 j Hinv1) as (w' & i' & Hrun & Hi' & Hinv' & Hpay' & Hperm'
                               & Hlen' & Hout' & Hheap' & _).
  { unfold sized. lia. }
  { lia. }
  { lia. }
  { lia. }
  { lia. }
  rewrite Hrun. exists w', i'.
  split_and!; try done; try lia.
  - by rewrite Hpay'.
  - rewrite Hperm', Hseq1. apply list_swap_perm.
  - intros k Hk. rewrite Hout' by lia. rewrite Hseq1.
    rewrite list_swap_lookup by lia. rewrite !decide_False by lia. done.
  - intros lo Hlo Hdown. apply Hheap'; [lia|].
    rewrite (keys_swap w w1 (Z.to_nat i) (Z.to_nat j)) by done.
    apply down_inv_step; try done; try lia. rewrite length_keys. lia.
  - intros Hbelow. pose proof (Hbelow (Z.to_nat j) Hij ltac:(lia)). lia.
Qed.

(** The parent's index [(j - 1) / 2]; Go's division truncates, so the root
    is its own parent. *)
Lemma parent_index j :
  0 <= j <= max_int ->
  div64 (sub64 j 1) 2 = Ok (Z.of_nat ((Z.to_nat j - 1) / 2)).
Proof.
  intros Hj. unfold div64. rewrite decide_False by done. f_equal.
  unfold sub64. rewrite (wrap_id (j - 1))
    by (unfold in_int, min_int, max_int in *; lia).
  destruct (decide (j = 0)) as [->|Hne]; [done|].
  rewrite Z.quot_div_nonneg by lia.
  rewrite wrap_id.
  - rewrite Nat2Z.inj_div. f_equal. lia.
  - unfold in_int, min_int, max_int in *.
    Z.to_euclidean_division_equations; lia.
Qed.

Lemma up_loop_S fuel (j : Z) :
  up_loop (S fuel) j =
    (i ← lift (div64 (sub64 j 1) 2);
     if decide (i = j) then mret tt
     else
       lt ← Less j i;
       if negb lt then mret tt
       else Swap i j;; up_loop fuel i) :> M Frame unit.
Proof. reflexivity. Qed.

Lemma up_loop_spec fuel : forall w (j : Z),
  idx_inv w -> sized w ->
  0 <= j < Z.of_nat (length (Seq (queue w))) ->
  (Z.to_nat j < fuel)%nat ->
  exists w',
    up_loop fuel j w = Ok (tt, w') /\
    idx_inv w' /\ payloads w' = payloads w /\
    Seq (queue w') ≡ₚ Seq (queue w) /\
    length (Seq (queue w')) = length (Seq (queue w)) /\
    (forall k : nat, (Z.to_nat j < k)%nat ->
       Seq (queue w') !! k = Seq (queue w) !! k) /\
    (up_inv (Z.to_nat j) (length (Seq (queue w))) (keys w) ->
     heap_from 0 (length (Seq (queue w))) (keys w')).
Proof.
  induction fuel as [|fuel IH]; intros w j Hinv Hsized Hj Hfuel; [lia|].
  pose proof Hsized as Hsized'. unfold sized in Hsized'.
  rewrite up_loop_S, run_bind. unfold lift at 1.
  rewrite parent_index by lia.
  set (i := ((Z.to_nat j - 1) / 2)%nat).
  destruct (decide (0 < j)) as [Hpos|Hroot].
  2:{ (* at the root: the loop stops *)
    assert (j = 0) as -> by lia. rewrite decide_True by done.
    rewrite run_ret. exists w. split_and!; try done.
    intros Hup. apply (up_inv_stop _ _ _ Hup). by left. }
  pose proof (parent_child (Z.to_nat j) ltac:(lia)) as Hij. fold i in Hij.
  assert (i < Z.to_nat j)%nat as Hij' by (unfold is_child in Hij; lia).
  rewrite decide_False by lia.
  rewrite run_bind, Less_spec by (done || lia). rewrite Nat2Z.id.
  case_bool_decide as Hlt; cbn [negb].
  2:{ (* the parent is not above the key at [j]: the loop stops *)
    rewrite run_ret. exists w. split_and!; try done.
    intros Hup. apply (up_inv_stop _ _ _ Hup). right. fold i. lia. }
  destruct (Swap_spec w (Z.of_nat i) j Hinv ltac:(lia) ltac:(lia))
    as (w1 & Hswap & Hinv1 & Hpay1 & Hseq1).
  rewrite Nat2Z.id in Hseq1.
  rewrite run_bind, Hswap.
  assert (length (Seq (queue w1)) = length (Seq (queue w))) as Hlen1.
  { by rewrite Hseq1, length_list_swap. }
  destruct (IH w1 (Z.of_nat i) Hinv1)
    as (w' & Hrun & Hinv' & Hpay' & Hperm' & Hlen' & Hout' & Hheap').
  { unfold sized. lia. }
  { lia. }
  { lia. }
  rewrite Hrun. exists w'. rewrite Nat2Z.id in Hout', Hheap'.
  split_and!; try done; try lia.
  - by rewrite Hpay'.
  - rewrite Hperm', Hseq1. apply list_swap_perm.
  - intros k Hk. rewrite Hout' by lia. rewrite Hseq1.
    rewrite list_swap_lookup by lia. rewrite !decide_False by lia. done.
  - intros Hup. rewrite <- Hlen1. apply Hheap'. rewrite Hlen1.
    rewrite (keys_swap w w1 i (Z.to_nat j)) by done.
    apply up_inv_step; try done; try lia. rewrite length_keys. lia.
Qed.

Lemma below_children_dec i n ks :
  below_children i n ks \/
  exists c0, is_child i c0 /\ (c0 < n)%nat /\ kth ks c0 < kth ks i.
Proof.
  destruct (decide ((2 * i + 1 < n)%nat /\ kth ks (2 * i + 1) < kth ks i))
    as [[H1 H2]|H1].
  { right. exists (2 * i + 1)%nat. unfold is_child. auto. }
  destruct (decide ((2 * i + 2 < n)%nat /\ kth ks (2 * i + 2) < kth ks i))
    as [[H3 H4]|H3].
  { right. exists (2 * i + 2)%nat. unfold is_child. auto. }
  left. intros c [->| ->] Hc; lia.
Qed.

Lemma Len_spec w : Len w = Ok (Z.of_nat (length (Seq (queue w))), w).
Proof. reflexivity. Qed.

Lemma heap_Fix_spec w (i : Z) :
  idx_inv w -> sized w ->
  0 <= i < Z.of_nat (length (Seq (queue w))) ->
  exists w',
    heap_Fix i w = Ok (tt, w') /\
    idx_inv w' /\ payloads w' = payloads w /\
    Seq (queue w') ≡ₚ Seq (queue w) /\
    length (Seq (queue w')) = length (Seq (queue w)) /\
    (fix_inv (Z.to_nat i) (length (Seq (queue w))) (keys w) ->
     heap_ordered (keys w')).
Proof.
  intros Hinv Hsized Hi. pose proof Hsized as Hsized'. unfold sized in Hsized'.
  set (n := length (Seq (queue w))) in *.
  unfold heap_Fix. rewrite run_bind, Len_spec. fold n.
  destruct (down_loop_spec (S (Z.to_nat (Z.of_nat n))) i (Z.of_nat n) w i)
    as (w1 & i' & Hdown & Hi' & Hinv1 & Hpay1 & Hperm1 & Hlen1 & _ & Hheap1 & Hnoop);
    try done; try lia.
  rewrite Nat2Z.id in Hheap1, Hnoop.
  rewrite run_bind. unfold down. rewrite Hdown.
  assert (fix_inv (Z.to_nat i) n (keys w) ->
            up_inv (Z.to_nat i) n (keys w1) /\
            (i' > i -> heap_from 0 n (keys w1))) as Hcases.
  { intros Hfix.
    destruct (below_children_dec (Z.to_nat i) n (keys w)) as [Hbelow|Hchild].
    - destruct (Hnoop Hbelow) as [-> ->]. split; [|lia].
      by apply fix_inv_up.
    - destruct Hchild as (c0 & Hic0 & Hc0 & Hlt).
      assert (heap_from 0 n (keys w1)) as Hh.
      { apply Hheap1; [lia|]. by eapply fix_inv_down. }
      split; [by apply heap_from_up_inv|done]. }
  case_bool_decide as Hmoved; cbn [negb].
  - rewrite run_ret. exists w1. split_and!; try done.
    intros Hfix. unfold heap_ordered. rewrite length_keys, Hlen1.
    by apply Hcases.
  - destruct (up_loop_spec (S (Z.to_nat i)) w1 i Hinv1)
      as (w' & Hup & Hinv' & Hpay' & Hperm' & Hlen' & _ & Hheap');
      [unfold sized; lia|lia|lia|].
    unfold up. rewrite Hup. exists w'. split_and!; try done.
    + by rewrite Hpay'.
    + by rewrite Hperm'.
    + by rewrite Hlen'.
    + intros Hfix. unfold heap_ordered. rewrite length_keys, Hlen', Hlen1.
      rewrite Hlen1 in Hheap'. apply Hheap'. by apply Hcases.
Qed.

Lemma keys_perm w w' :
  payloads w' = payloads w -> Seq (queue w') ≡ₚ Seq (queue w) ->
  keys w' ≡ₚ keys w.
Proof.
  intros Hpay Hperm. unfold keys. rewrite Hperm.
  erewrite list_fmap_ext; [done|]. intros _ p _. by apply key_payloads.
Qed.

Lemma Add_spec (Tm : Frame -> Z) w f :
  idx_inv w -> Z.of_nat (length (Seq (queue w))) < max_int ->
  exists w',
    Add Tm f w = Ok ((length (store w), None), w') /\
    idx_inv w' /\ sized w' /\
    payloads w' = payloads w ++ [(f, Unix 0 (Tm f))] /\
    Seq (queue w') ≡ₚ Seq (queue w) ++ [length (store w)] /\
    keys w' ≡ₚ keys w ++ [Unix 0 (Tm f)] /\
    (heap_ordered (keys w) -> heap_ordered (keys w')).
Proof.
  intros Hinv Hsize.
  set (n := length (Seq (queue w))) in *.
  set (E := length (store w)).
  set (e0 := {| Val := f; OrderBy := Unix 0 (Tm f); Idx := Z.of_nat n |}).
  set (w1 := {| store := store w ++ [e0];
                queue := {| Seq := Seq (queue w) ++ [E] |} |}).
  assert (idx_inv w1) as Hinv1.
  { intros k p Hk. cbn [w1 queue Seq store] in *.
    destruct (decide (k < n)%nat) as [Hkn|Hkn].
    - rewrite lookup_app_l in Hk by done.
      destruct (Hinv k p Hk) as (e & He & Hidx). exists e. split; [|done].
      rewrite lookup_app_l; [done|]. by eapply lookup_lt_Some.
    - rewrite lookup_app_r in Hk by (fold n; lia).
      fold n in Hk. destruct (k - n)%nat eqn:Hkn'; simpl in Hk; [|done].
      simplify_eq. exists e0. split; [|simpl; lia].
      rewrite lookup_app_r by done. by rewrite Nat.sub_diag. }
  assert (keys w1 = keys w ++ [Unix 0 (Tm f)]) as Hkeys1.
  { unfold keys. cbn [w1 queue Seq]. rewrite fmap_app. f_equal.
    - apply list_fmap_ext. intros k p Hk.
      destruct (Hinv k p Hk) as (e & He & _). unfold key. cbn [w1 store].
      rewrite lookup_app_l; [done|]. by eapply lookup_lt_Some.
    - simpl. unfold key. cbn [w1 store].
      rewrite lookup_app_r by done. by rewrite Nat.sub_diag. }
  destruct (heap_Fix_spec w1 (Z.of_nat n) Hinv1)
    as (w' & Hfix & Hinv' & Hpay' & Hperm' & Hlen' & Hheap').
  { unfold sized. cbn [w1 queue Seq]. rewrite length_app. simpl. fold n. lia. }
  { cbn [w1 queue Seq]. rewrite length_app. simpl. fold n. lia. }
  cbn [w1 queue Seq] in Hlen', Hperm', Hheap'.
  rewrite length_app in Hlen', Hheap'. simpl in Hlen', Hheap'. fold n in Hlen', Hheap'.
  exists w'. split.
  { unfold Add. rewrite run_bind. unfold getSeq at 1. fold n.
    rewrite run_bind. unfold new at 1. fold e0 E.
    rewrite run_bind. unfold getSeq at 1. cbn [queue Seq store].
    rewrite run_bind. unfold setSeq at 1. cbn [queue Seq store]. fold w1.
    rewrite run_bind. unfold load at 1.
    replace (store w1 !! E) with (Some e0).
    2:{ cbn [w1 store]. rewrite lookup_app_r by done. by rewrite Nat.sub_diag. }
    rewrite run_bind. cbn [e0 Idx]. rewrite Hfix. done. }
  split_and!; try done.
  - unfold sized. rewrite Hlen'. lia.
  - rewrite Hpay'. unfold payloads. cbn [w1 store]. by rewrite fmap_app.
  - rewrite <- Hkeys1. by apply keys_perm.
  - intros Hheap. apply Hheap'. rewrite Hkeys1, Nat2Z.id.
    replace n with (length (keys w)) by apply length_keys.
    replace (length (keys w) + 1)%nat with (S (length (keys w))) by lia.
    by apply fix_inv_snoc.
Qed.

Lemma Update_spec (Tm : Frame -> Z) w (E : ptr) (v : Frame) (i : nat) :
  idx_inv w -> sized w -> Seq (queue w) !! i = Some E ->
  exists w',
    Update Tm E v w = Ok (tt, w') /\
    idx_inv w' /\ sized w' /\
    payloads w' = <[E := (v, Unix 0 (Tm v))]> (payloads w) /\
    Seq (queue w') ≡ₚ Seq (queue w) /\
    (heap_ordered (keys w) -> heap_ordered (keys w')).
Proof.
  intros Hinv Hsized Hres.
  destruct (Hinv i E Hres) as (e & He & Hidx).
  pose proof (lookup_lt_Some _ _ _ He) as HE.
  pose proof (lookup_lt_Some _ _ _ Hres) as Hi.
  set (e1 := with_OrderBy (Unix 0 (Tm v)) (with_Val v e)).
  set (w1 := {| store := <[E := e1]> (store w); queue := queue w |}).
  assert (idx_inv w1) as Hinv1.
  { intros k p Hk. cbn [w1 queue Seq store] in *.
    destruct (decide (p = E)) as [->|Hne].
    - rewrite list_lookup_insert_eq by done. exists e1. split; [done|].
      simpl. rewrite Hidx. f_equal. by eapply idx_inv_inj.
    - rewrite list_lookup_insert_ne by done. by apply Hinv. }
  assert (forall x, x <> i -> kth (keys w1) x = kth (keys w) x) as Hkeys1.
  { intros x Hx. unfold kth, keys. cbn [w1 queue Seq].
    rewrite !list_lookup_fmap.
    destruct (Seq (queue w) !! x) as [p|] eqn:Hp; [|done]. simpl.
    unfold key. cbn [w1 store]. rewrite list_lookup_insert_ne; [done|].
    intros <-. apply Hx. by eapply idx_inv_inj. }
  destruct (heap_Fix_spec w1 (Z.of_nat i) Hinv1 Hsized)
    as (w' & Hfix & Hinv' & Hpay' & Hperm' & Hlen' & Hheap').
  { cbn [w1 queue]. lia. }
  cbn [w1 queue] in Hlen', Hperm', Hheap'.
  exists w'. split.
  { unfold Update. rewrite run_bind. unfold modify at 1. rewrite He.
    rewrite run_bind. unfold modify at 1. cbn [store queue].
    rewrite list_lookup_insert_eq by done.
    rewrite list_insert_insert_eq. fold e1. fold w1.
    rewrite run_bind. unfold load at 1. cbn [w1 store].
    rewrite list_lookup_insert_eq by done.
    cbn [e1 with_OrderBy with_Val Idx]. rewrite Hidx. exact Hfix. }
  split_and!; try done.
  - unfold sized. rewrite Hlen'. exact Hsized.
  - rewrite Hpay'. unfold payloads. cbn [w1 store].
    by rewrite list_fmap_insert.
  - intros Hheap. apply Hheap'. rewrite Nat2Z.id.
    apply (heap_from_fix_inv _ _ (keys w)); [|done|done].
    by rewrite <- (length_keys w).
Qed.

Lemma Pop_spec w :
  idx_inv w -> sized w -> (0 < length (Seq (queue w)))%nat ->
  exists p e w',
    Seq (queue w) !! (length (Seq (queue w)) - 1)%nat = Some p /\
    Pop w = Ok (p, w') /\
    idx_inv w' /\ payloads w' = payloads w /\
    Seq (queue w') = take (length (Seq (queue w)) - 1) (Seq (queue w)) /\
    store w' !! p = Some e /\ Idx e = -1.
Proof.
  intros Hinv Hsized Hlen. unfold sized in Hsized.
  set (n := length (Seq (queue w))) in *.
  destruct (lookup_lt_is_Some_2 (Seq (queue w)) (n - 1)) as [p Hp]; [lia|].
  destruct (Hinv _ _ Hp) as (e & He & Hidx).
  assert (sub64 (Z.of_nat n) 1 = Z.of_nat (n - 1)) as Hsub.
  { unfold sub64. rewrite wrap_id; [lia|].
    unfold in_int, min_int, max_int in *. lia. }
  exists p, (with_Idx (-1) e),
    {| store := <[p := with_Idx (-1) e]> (store w);
       queue := {| Seq := take (n - 1) (Seq (queue w)) |} |}.
  split; [done|]. split.
  { unfold Pop. rewrite run_bind. unfold getSeq at 1. fold n.
    rewrite run_bind. unfold lift at 1. rewrite Hsub.
    rewrite (index_ok _ _ p) by (lia || by rewrite Nat2Z.id).
    rewrite run_bind. unfold modify at 1. rewrite He.
    rewrite run_bind. unfold setSeq at 1. cbn [store queue].
    rewrite Nat2Z.id. done. }
  split_and!.
  - intros k q Hk. cbn [queue Seq store] in *.
    rewrite lookup_take in Hk. case_decide as Hkn; [|done].
    destruct (Hinv _ _ Hk) as (e' & He' & Hidx'). exists e'. split; [|done].
    rewrite list_lookup_insert_ne; [done|].
    intros ->. assert (k = (n - 1)%nat) by (by eapply idx_inv_inj). lia.
  - by apply payloads_with_Idx.
  - done.
  - cbn [store]. rewrite list_lookup_insert_eq; [done|].
    by eapply lookup_lt_Some.
  - done.
Qed.

Lemma heap_Pop_spec w :
  idx_inv w -> sized w -> (0 < length (Seq (queue w)))%nat ->
  exists p e w',
    Seq (queue w) !! 0%nat = Some p /\
    heap_Pop w = Ok (p, w') /\
    idx_inv w' /\ sized w' /\ payloads w' = payloads w /\
    Seq (queue w) ≡ₚ p :: Seq (queue w') /\
    store w' !! p = Some e /\ Idx e = -1 /\
    (heap_ordered (keys w) ->
     heap_ordered (keys w') /\
     Forall (fun q => key w p <= key w q) (Seq (queue w'))).
Proof.
  intros Hinv Hsized Hlen. pose proof Hsized as Hsized'. unfold sized in Hsized'.
  destruct (length (Seq (queue w))) as [|n] eqn:Hn; [lia|]. clear Hlen.
  destruct (lookup_lt_is_Some_2 (Seq (queue w)) 0) as [p Hp]; [lia|].
  assert (sub64 (Z.of_nat (S n)) 1 = Z.of_nat n) as Hsub.
  { unfold sub64. rewrite wrap_id; [lia|].
    unfold in_int, min_int, max_int in *. lia. }
  destruct (Swap_spec w 0 (Z.of_nat n) Hinv ltac:(lia) ltac:(lia))
    as (w1 & Hswap & Hinv1 & Hpay1 & Hseq1).
  change (Z.to_nat 0) with 0%nat in Hseq1. rewrite Nat2Z.id in Hseq1.
  assert (length (Seq (queue w1)) = S n) as Hlen1.
  { by rewrite Hseq1, length_list_swap. }
  destruct (down_loop_spec (S (Z.to_nat (Z.of_nat n))) 0 (Z.of_nat n) w1 0 Hinv1)
    as (w2 & i' & Hdown & _ & Hinv2 & Hpay2 & Hperm2 & Hlen2 & Hout2 & Hheap2 & _);
    [unfold sized; lia|lia|unfold max_int; lia|lia|lia|].
  rewrite Nat2Z.id in Hout2, Hheap2. change (Z.to_nat 0) with 0%nat in Hheap2.
  destruct (Pop_spec w2 Hinv2) as (p' & e & w3 & Hp' & Hpop & Hinv3 & Hpay3
                                   & Hseq3 & He & Hidx); [unfold sized; lia|lia|].
  rewrite Hlen2, Hlen1 in Hp', Hseq3.
  replace (S n - 1)%nat with n in Hp', Hseq3 by lia.
  assert (p' = p) as ->.
  { rewrite Hout2 in Hp' by lia. rewrite Hseq1 in Hp'.
    rewrite list_swap_lookup in Hp' by lia.
    repeat case_decide; subst; congruence. }
  assert (Seq (queue w2) = Seq (queue w3) ++ [p]) as Hsnoc.
  { rewrite Hseq3. rewrite <- (take_S_r _ _ _ Hp'). symmetry.
    apply take_ge. lia. }
  assert (Seq (queue w) ≡ₚ p :: Seq (queue w3)) as Hperm.
  { rewrite <- (list_swap_perm 0 n (Seq (queue w))), <- Hseq1, <- Hperm2, Hsnoc.
    symmetry. apply Permutation_cons_append. }
  exists p, e, w3. split; [done|]. split.
  { unfold heap_Pop. rewrite run_bind, Len_spec, Hn. cbv zeta. rewrite Hsub.
    rewrite run_bind, Hswap. rewrite run_bind. unfold down. rewrite Hdown.
    exact Hpop. }
  split_and!; try done.
  - unfold sized. rewrite Hseq3, length_take. lia.
  - by rewrite Hpay3, Hpay2.
  - intros Hheap. unfold heap_ordered in Hheap. rewrite length_keys, Hn in Hheap.
    split.
    + assert (heap_from 0 n (keys w2)) as Hh2.
      { apply Hheap2; [lia|].
        rewrite (keys_swap w w1 0 n) by done.
        apply down_inv_pop; [done|]. rewrite length_keys. lia. }
      assert (keys w3 = take n (keys w2)) as Hk3.
      { unfold keys. rewrite Hseq3, fmap_take.
        f_equal. apply list_fmap_ext. intros _ q _. by apply key_payloads. }
      unfold heap_ordered. rewrite Hk3, length_take, length_keys, Hlen2, Hlen1.
      replace (n `min` S n)%nat with n by lia.
      intros x c Hx Hxc Hc.
      assert (x < c)%nat by (unfold is_child in Hxc; lia).
      rewrite !kth_take by lia. by apply Hh2.
    + rewrite Forall_forall. intros q Hq. apply list_elem_of_In in Hq.
      assert (q ∈ Seq (queue w)) as Hq'
        by (rewrite Hperm; apply list_elem_of_further, Hq).
      apply list_elem_of_lookup in Hq' as [c Hc].
      rewrite <- (kth_keys w 0 p Hp), <- (kth_keys w c q Hc).
      apply (heap_root_min (S n)); [done|].
      rewrite <- Hn. by eapply lookup_lt_Some.
Qed.

Lemma PopAll_loop_S fuel :
  PopAll_loop (S fuel) =
    (n ← Len;
     if decide (n > 0) then
       item ← heap_Pop;
       e ← load item;
       rest ← PopAll_loop fuel;
       mret ((item, OrderBy e) :: rest)
     else mret []) :> M Frame (list (ptr * Time)).
Proof. reflexivity. Qed.

Lemma PopAll_loop_spec fuel : forall w,
  heap_inv w -> (length (Seq (queue w)) < fuel)%nat ->
  exists out w',
    PopAll_loop fuel w = Ok (out, w') /\
    Seq (queue w') = [] /\ idx_inv w' /\ payloads w' = payloads w /\
    out.*1 ≡ₚ Seq (queue w) /\ out.*2 = key w <$> out.*1 /\
    StronglySorted Z.le (out.*2).
Proof.
  induction fuel as [|fuel IH]; intros w (Hinv & Hsized & Hheap) Hfuel; [lia|].
  rewrite PopAll_loop_S, run_bind, Len_spec.
  destruct (decide (0 < length (Seq (queue w)))%nat) as [Hlen|Hlen].
  2:{ rewrite decide_False by lia. rewrite run_ret.
      assert (Seq (queue w) = []) as Hnil by (apply length_zero_iff_nil; lia).
      exists [], w. rewrite Hnil. split_and!; try done. constructor. }
  rewrite decide_True by lia.
  destruct (heap_Pop_spec w Hinv Hsized Hlen)
    as (p & e & w1 & Hp & Hpop & Hinv1 & Hsized1 & Hpay1 & Hperm1 & He & _ & Hh).
  destruct (Hh Hheap) as [Hheap1 Hmin].
  rewrite run_bind, Hpop. rewrite run_bind. unfold load at 1. rewrite He.
  destruct (IH w1) as (rest & w' & Hrun & Hnil & Hinv' & Hpay' & Hperm' & Hkeys' & Hsort').
  { done. }
  { apply Permutation_length in Hperm1. simpl in Hperm1. lia. }
  rewrite run_bind, Hrun, run_ret.
  exists ((p, OrderBy e) :: rest), w'.
  assert (forall q, key w1 q = key w q) as Hkey
    by (intros q; by apply key_payloads).
  split_and!; try done.
  - by rewrite Hpay'.
  - rewrite fmap_cons, Hperm'. simpl. by rewrite Hperm1.
  - rewrite !fmap_cons. cbn [fst snd]. f_equal.
    + by rewrite <- (key_store w1 p e He).
    + rewrite Hkeys'. apply list_fmap_ext. intros _ q _. apply Hkey.
  - rewrite fmap_cons. cbn [snd]. constructor; [done|].
    rewrite Hkeys'. rewrite <- (key_store w1 p e He), Hkey.
    rewrite <- Hperm' in Hmin. rewrite Forall_forall in *.
    intros k Hk. apply list_elem_of_In, list_elem_of_fmap in Hk as (q & -> & Hq).
    rewrite Hkey. apply Hmin. by apply list_elem_of_In.
Qed.

Lemma PopAll_spec w :
  heap_inv w ->
  exists out w',
    PopAll w = Ok (out, w') /\
    Seq (queue w') = [] /\ idx_inv w' /\ payloads w' = payloads w /\
    out.*1 ≡ₚ Seq (queue w) /\ out.*2 = key w <$> out.*1 /\
    StronglySorted Z.le (out.*2).
Proof.
  intros Hinv. unfold PopAll. rewrite run_bind, Len_spec.
  apply PopAll_loop_spec; [done|]. lia.
Qed.

Lemma AddAll_spec (Tm : Frame -> Z) frames : forall w,
  heap_inv w ->
  Z.of_nat (length (Seq (queue w))) + Z.of_nat (length frames) <= max_int ->
  exists hs w',
    AddAll Tm frames w = Ok (hs, w') /\ heap_inv w' /\
    length hs = length frames /\
    Seq (queue w') ≡ₚ Seq (queue w) ++ hs /\
    keys w' ≡ₚ keys w ++ ((fun f => Unix 0 (Tm f)) <$> frames).
Proof.
  induction frames as [|f frames IH]; intros w (Hinv & Hsized & Hheap) Hlen.
  - exists [], w. simpl. rewrite !app_nil_r. done.
  - simpl in Hlen.
    destruct (Add_spec Tm w f Hinv ltac:(lia))
      as (w1 & Hadd & Hinv1 & Hsized1 & Hpay1 & Hperm1 & Hkeys1 & Hheap1).
    destruct (IH w1) as (hs & w' & Hrun & Hinv' & Hlen' & Hperm' & Hkeys').
    { split_and!; [done|done|by apply Hheap1]. }
    { apply Permutation_length in Hperm1. rewrite length_app in Hperm1.
      simpl in Hperm1. lia. }
    exists (length (store w) :: hs), w'.
    split.
    { cbn [AddAll]. rewrite run_bind, Hadd. rewrite run_bind, Hrun. done. }
    split_and!; try done.
    + simpl. lia.
    + rewrite Hperm', Hperm1. by rewrite <- app_assoc.
    + rewrite Hkeys', Hkeys1. rewrite fmap_cons. by rewrite <- app_assoc.
Qed.

Lemma Init_loop_S fuel (i n : Z) :
  Init_loop (S fuel) i n =
    (if decide (i >= 0) then down i n;; Init_loop fuel (sub64 i 1) n
     else mret tt) :> M Frame unit.
Proof. reflexivity. Qed.

Lemma Init_loop_spec fuel : forall w (i : Z),
  idx_inv w -> sized w ->
  -1 <= i -> i < Z.of_nat (length (Seq (queue w))) \/ i = -1 ->
  (Z.to_nat (i + 1) < fuel)%nat ->
  exists w',
    Init_loop fuel i (Z.of_nat (length (Seq (queue w)))) w = Ok (tt, w') /\
    idx_inv w' /\ payloads w' = payloads w /\
    Seq (queue w') ≡ₚ Seq (queue w) /\
    (heap_from (Z.to_nat (i + 1)) (length (Seq (queue w))) (keys w) ->
     heap_from 0 (length (Seq (queue w))) (keys w')).
Proof.
  induction fuel as [|fuel IH]; intros w i Hinv Hsized Hi Hi' Hfuel; [lia|].
  pose proof Hsized as Hsized'. unfold sized in Hsized'.
  set (n := length (Seq (queue w))) in *.
  rewrite Init_loop_S. destruct (decide (i >= 0)) as [Hpos|Hneg].
  2:{ rewrite run_ret. exists w. split_and!; try done.
      by replace (Z.to_nat (i + 1)) with 0%nat by lia. }
  destruct (down_loop_spec (S (Z.to_nat (Z.of_nat n))) i (Z.of_nat n) w i Hinv)
    as (w1 & i' & Hdown & _ & Hinv1 & Hpay1 & Hperm1 & Hlen1 & _ & Hheap1 & _);
    [done|lia|lia|lia|lia|].
  rewrite Nat2Z.id in Hheap1.
  assert (sub64 i 1 = i - 1) as Hsub.
  { unfold sub64. apply wrap_id. unfold in_int, min_int, max_int in *. lia. }
  rewrite run_bind. unfold down. rewrite Hdown, Hsub.
  destruct (IH w1 (i - 1) Hinv1) as (w' & Hrun & Hinv' & Hpay' & Hperm' & Hheap');
    [unfold sized; lia|lia|lia|lia|].
  rewrite Hlen1 in Hrun, Hheap'. fold n in Hrun, Hheap'.
  rewrite Hrun. exists w'. split_and!; try done.
  - by rewrite Hpay'.
  - by rewrite Hperm'.
  - intros Hh. apply Hheap'.
    replace (Z.to_nat (i - 1 + 1)) with (Z.to_nat i) by lia.
    apply Hheap1; [done|]. apply down_inv_init.
    by replace (S (Z.to_nat i)) with (Z.to_nat (i + 1)) by lia.
Qed.

Lemma Reinit_spec w :
  idx_inv w -> sized w ->
  exists w',
    Reinit w = Ok (tt, w') /\ idx_inv w' /\ sized w' /\
    payloads w' = payloads w /\ Seq (queue w') ≡ₚ Seq (queue w) /\
    heap_ordered (keys w').
Proof.
  intros Hinv Hsized. pose proof Hsized as Hsized'. unfold sized in Hsized'.
  set (n := length (Seq (queue w))) in *.
  assert (div64 (Z.of_nat n) 2 = Ok (Z.of_nat (n / 2))) as Hdiv.
  { unfold div64. rewrite decide_False by done. f_equal.
    rewrite Z.quot_div_nonneg by lia.
    rewrite (Nat2Z.inj_div n 2). change (Z.of_nat 2) with 2.
    apply wrap_id. unfold in_int, min_int, max_int in *.
    Z.to_euclidean_division_equations; lia. }
  pose proof (Nat.div_mod_eq n 2) as Hd.
  pose proof (Nat.mod_upper_bound n 2 ltac:(done)) as Hm.
  assert (sub64 (Z.of_nat (n / 2)) 1 = Z.of_nat (n / 2) - 1) as Hsub.
  { unfold sub64. apply wrap_id. unfold in_int, min_int, max_int in *. lia. }
  destruct (Init_loop_spec (S (Z.to_nat (Z.of_nat n))) w (Z.of_nat (n / 2) - 1)
              Hinv Hsized) as (w' & Hrun & Hinv' & Hpay' & Hperm' & Hheap');
    [lia|fold n; lia|lia|].
  fold n in Hrun, Hheap'.
  exists w'. split.
  { unfold Reinit, heap_Init. rewrite run_bind, Len_spec. fold n.
    rewrite run_bind. unfold lift at 1. rewrite Hdiv, Hsub. exact Hrun. }
  pose proof (Permutation_length Hperm') as Hlen'.
  split_and!; try done.
  - unfold sized. rewrite Hlen'. done.
  - unfold heap_ordered. rewrite length_keys, Hlen'. fold n.
    apply Hheap'.
    replace (Z.to_nat (Z.of_nat (n / 2) - 1 + 1)) with (n / 2)%nat by lia.
    apply heap_from_half.
Qed.

Lemma idx_inv_NoDup w : idx_inv w -> NoDup (Seq (queue w)).
Proof.
  intros Hinv. apply NoDup_alt. intros i j p Hi Hj. by eapply idx_inv_inj.
Qed.

Lemma popped_keys (out : list (ptr * Time)) w p k :
  out.*2 = key w <$> out.*1 -> (p, k) ∈ out -> k = key w p.
Proof.
  induction out as [|[q kq] out IH]; intros Heq Hin.
  - by apply not_elem_of_nil in Hin.
  - rewrite !fmap_cons in Heq. simpl in Heq. injection Heq as Hk Heq.
    apply elem_of_cons in Hin as [Hin|Hin]; [by simplify_eq|by apply IH].
Qed.

Lemma heap_inv_empty (st : list (Pqe Frame)) :
  heap_inv {| store := st; queue := NewPriorityQueue |}.
Proof.
  split_and!.
  - intros i p Hi. done.
  - unfold sized, max_int. simpl. lia.
  - intros p c _ _ Hc. simpl in Hc. lia.
Qed.

(** ** The claims about the priority queue *)

(** C2 (as amended): on a queue with zero entries [First], the method [Pop]
    and [heap.Pop] do not return: each panics with an index out of range.
    No record comes back, and no error value either; the functions have no
    error result. *)
Theorem empty_queue_panics w :
  Seq (queue w) = [] ->
  First w = Panic IndexOutOfRange /\
  Pop w = Panic IndexOutOfRange /\
  heap_Pop w = Panic IndexOutOfRange.
Proof.
  intros Hnil. split_and!.
  - unfold First. rewrite run_bind. unfold getSeq at 1. by rewrite Hnil.
  - unfold Pop. rewrite run_bind. unfold getSeq at 1. by rewrite Hnil.
  - unfold heap_Pop. rewrite run_bind, Len_spec, Hnil. cbv zeta.
    rewrite run_bind. unfold Swap. rewrite run_bind. unfold getSeq at 1.
    by rewrite Hnil.
Qed.

(** C4: a run of [Add]s followed by [heap.Pop] until the queue is empty
    returns the order keys in non-decreasing order; the keys that come out
    are the keys that were in the queue and those of the frames added. *)
Theorem pops_nondecreasing (Tm : Frame -> Z) (frames : list Frame) w :
  heap_inv w ->
  Z.of_nat (length (Seq (queue w))) + Z.of_nat (length frames) <= max_int ->
  exists out w',
    (AddAll Tm frames;; PopAll) w = Ok (out, w') /\
    Seq (queue w') = [] /\
    Sorted Z.le (out.*2) /\
    out.*2 ≡ₚ keys w ++ ((fun f => Unix 0 (Tm f)) <$> frames).
Proof.
  intros Hinv Hlen.
  destruct (AddAll_spec Tm frames w Hinv Hlen)
    as (hs & w1 & Hadd & Hinv1 & _ & _ & Hkeys1).
  destruct (PopAll_spec w1 Hinv1)
    as (out & w' & Hpop & Hnil & _ & _ & Hperm & Hkeys & Hsort).
  exists out, w'. split_and!.
  - rewrite run_bind, Hadd. exact Hpop.
  - done.
  - by apply StronglySorted_Sorted.
  - rewrite Hkeys, Hperm. exact Hkeys1.
Qed.

(** C5: [Add], [Update] (of an entry in the queue), [heap.Pop], the method
    [Pop] and [Reinit] return and keep the invariant that the entry at index
    [i] of [Seq] has [Idx = i]; the entry that [heap.Pop] or [Pop] removes is
    no longer in [Seq] and has [Idx = -1]. *)
Theorem Idx_maintained (Tm : Frame -> Z) w :
  idx_inv w -> sized w ->
  (forall f, Z.of_nat (length (Seq (queue w))) < max_int ->
     exists E w', Add Tm f w = Ok ((E, None), w') /\ idx_inv w') /\
  (forall E v, resident w E ->
     exists w', Update Tm E v w = Ok (tt, w') /\ idx_inv w') /\
  (Seq (queue w) <> [] ->
     exists p e w', heap_Pop w = Ok (p, w') /\ idx_inv w' /\
       ~ resident w' p /\ store w' !! p = Some e /\ Idx e = -1) /\
  (Seq (queue w) <> [] ->
     exists p e w', Pop w = Ok (p, w') /\ idx_inv w' /\
       ~ resident w' p /\ store w' !! p = Some e /\ Idx e = -1) /\
  (exists w', Reinit w = Ok (tt, w') /\ idx_inv w').
Proof.
  intros Hinv Hsized.
  assert (Seq (queue w) <> [] -> (0 < length (Seq (queue w)))%nat) as Hlen.
  { destruct (Seq (queue w)); [done|simpl; lia]. }
  split_and!.
  - intros f Hmax.
    destruct (Add_spec Tm w f Hinv Hmax) as (w' & Hadd & Hinv' & _).
    by exists (length (store w)), w'.
  - intros E v [i Hi].
    destruct (Update_spec Tm w E v i Hinv Hsized Hi) as (w' & Hupd & Hinv' & _).
    by exists w'.
  - intros Hne.
    destruct (heap_Pop_spec w Hinv Hsized (Hlen Hne))
      as (p & e & w' & _ & Hpop & Hinv' & _ & _ & Hperm & He & Hidx & _).
    exists p, e, w'. split_and!; try done.
    intros [i Hi]. pose proof (idx_inv_NoDup w Hinv) as Hnd.
    rewrite Hperm in Hnd. apply NoDup_cons_1_1 in Hnd.
    apply Hnd. by eapply list_elem_of_lookup_2.
  - intros Hne.
    destruct (Pop_spec w Hinv Hsized (Hlen Hne))
      as (p & e & w' & Hp & Hpop & Hinv' & _ & Hseq & He & Hidx).
    exists p, e, w'. split_and!; try done.
    intros [i Hi]. rewrite Hseq, lookup_take in Hi.
    case_decide as Hin; [|done].
    pose proof (idx_inv_inj w _ _ p Hinv Hi Hp). lia.
  - destruct (Reinit_spec w Hinv Hsized) as (w' & Hre & Hinv' & _).
    by exists w'.
Qed.

(** C8: after [Add] returns the handle [E] of a frame with key [k1] and
    [Update(E, v)] gives it a frame with key [k2], popping the queue until it
    is empty returns the keys in non-decreasing order, with [E] at its key
    [k2] and every other entry at its own key; [v], and so [k2], is any
    frame: below or above [k1]. *)
Theorem Update_pop_order (Tm : Frame -> Z) w (f v : Frame) :
  heap_inv w -> Z.of_nat (length (Seq (queue w))) < max_int ->
  exists E w1 w2 out w3,
    Add Tm f w = Ok ((E, None), w1) /\ key w1 E = Unix 0 (Tm f) /\
    Update Tm E v w1 = Ok (tt, w2) /\
    PopAll w2 = Ok (out, w3) /\
    Sorted Z.le (out.*2) /\
    out.*1 ≡ₚ Seq (queue w1) /\
    (E, Unix 0 (Tm v)) ∈ out /\
    (forall p k, (p, k) ∈ out -> p <> E -> k = key w1 p).
Proof.
  intros (Hinv & Hsized & Hheap) Hmax.
  destruct (Add_spec Tm w f Hinv Hmax)
    as (w1 & Hadd & Hinv1 & Hsized1 & Hpay1 & Hperm1 & _ & Hheap1).
  set (E := length (store w)) in *.
  assert (E ∈ Seq (queue w1)) as HE.
  { rewrite Hperm1. apply elem_of_app. right. by apply list_elem_of_singleton. }
  apply list_elem_of_lookup in HE as [i Hi].
  destruct (Update_spec Tm w1 E v i Hinv1 Hsized1 Hi)
    as (w2 & Hupd & Hinv2 & Hsized2 & Hpay2 & Hperm2 & Hheap2).
  destruct (PopAll_spec w2) as (out & w3 & Hpop & _ & _ & _ & Hperm3 & Hkeys3 & Hsort).
  { split_and!; [done|done|]. apply Hheap2. by apply Hheap1. }
  assert (E < length (payloads w1))%nat as HElt.
  { rewrite Hpay1, length_app. simpl. unfold payloads. rewrite length_fmap.
    unfold E. lia. }
  assert (key w2 E = Unix 0 (Tm v)) as Hk2.
  { unfold key. pose proof (f_equal (fun l => l !! E) Hpay2) as HpE.
    simpl in HpE. rewrite list_lookup_insert_eq in HpE by done.
    unfold payloads in HpE at 1. rewrite list_lookup_fmap in HpE.
    destruct (store w2 !! E); simpl in *; by simplify_eq. }
  assert (forall p, p <> E -> key w2 p = key w1 p) as Hkother.
  { intros p Hp. unfold key. pose proof (f_equal (fun l => l !! p) Hpay2) as Hpp.
    simpl in Hpp. rewrite list_lookup_insert_ne in Hpp by done.
    unfold payloads in Hpp. rewrite !list_lookup_fmap in Hpp.
    destruct (store w2 !! p), (store w1 !! p); simpl in *; by simplify_eq. }
  exists E, w1, w2, out, w3. split_and!; try done.
  - unfold key. pose proof (f_equal (fun l => l !! E) Hpay1) as HpE.
    simpl in HpE. unfold payloads in HpE at 2.
    rewrite lookup_app_r in HpE by (rewrite length_fmap; unfold E; lia).
    rewrite length_fmap in HpE. fold E in HpE. rewrite Nat.sub_diag in HpE.
    unfold payloads in HpE. rewrite list_lookup_fmap in HpE.
    destruct (store w1 !! E); simpl in *; by simplify_eq.
  - by apply StronglySorted_Sorted.
  - by rewrite Hperm3.
  - assert (E ∈ out.*1) as HEout.
    { rewrite Hperm3, Hperm2. by eapply list_elem_of_lookup_2. }
    apply list_elem_of_fmap in HEout as ([p k] & HpE & Hin). simpl in HpE. subst p.
    by rewrite <- Hk2, <- (popped_keys out w2 E k Hkeys3 Hin).
  - intros p k Hin Hne. rewrite <- Hkother by done.
    by apply (popped_keys out w2).
Qed.

End QueueFacts.

(** *** The claims at concrete queues *)

(** C2 (as stated) fails: on the empty queue [First], [Pop] and [heap.Pop]
    panic; none of them returns to its caller, with an error status or
    otherwise. *)
Lemma empty_queue_no_error_status :
  let w0 : world Z := {| store := []; queue := NewPriorityQueue |} in
  First w0 = Panic IndexOutOfRange /\
  Pop w0 = Panic IndexOutOfRange /\
  heap_Pop w0 = Panic IndexOutOfRange /\
  ~ ((exists r, First w0 = Ok r) \/ (exists r, Pop w0 = Ok r)
     \/ (exists r, heap_Pop w0 = Ok r)).
Proof.
  intros w0. split_and!; try reflexivity.
  intros [[r Hr]|[[r Hr]|[r Hr]]]; discriminate Hr.
Qed.

(** The run of the repository's test, on six frames: the frames go in with
    descending timestamps, a duplicate of the earliest is added and updated
    to the latest, and the entries come out in ascending order. *)
Example pq_sorts_six_frames :
  (AddAll (fun t : Z => t) [5; 4; 3; 2; 1; 0];;
   r ← Add (fun t : Z => t) 0;
   Update (fun t : Z => t) r.1 5;;
   out ← PopAll;
   mret out)
    {| store := []; queue := NewPriorityQueue |}
  = Ok ([(5%nat, 0); (4%nat, 1); (3%nat, 2); (2%nat, 3); (1%nat, 4);
         (0%nat, 5); (6%nat, 5)],
        {| store := [mkPqe 5 5 (-1); mkPqe 4 4 (-1); mkPqe 3 3 (-1);
                     mkPqe 2 2 (-1); mkPqe 1 1 (-1); mkPqe 0 0 (-1);
                     mkPqe 5 5 (-1)];
           queue := {| Seq := [] |} |}).
Proof. reflexivity. Qed.

Lemma empty_queue_panics_witness :
  First {| store := [] : list (Pqe Z); queue := NewPriorityQueue |}
    = Panic IndexOutOfRange /\
  Pop {| store := [] : list (Pqe Z); queue := NewPriorityQueue |}
    = Panic IndexOutOfRange /\
  heap_Pop {| store := [] : list (Pqe Z); queue := NewPriorityQueue |}
    = Panic IndexOutOfRange.
Proof.
  apply (empty_queue_panics
           {| store := [] : list (Pqe Z); queue := NewPriorityQueue |}).
  reflexivity.
Defined.

Lemma pops_nondecreasing_witness :
  exists out w',
    (AddAll (fun t : Z => t) [5; 3; 8; 1];; PopAll)
      {| store := []; queue := NewPriorityQueue |} = Ok (out, w') /\
    Seq (queue w') = [] /\
    Sorted Z.le (out.*2) /\
    out.*2 ≡ₚ [] ++ ((fun f => Unix 0 f) <$> [5; 3; 8; 1]).
Proof.
  apply (pops_nondecreasing (fun t : Z => t) [5; 3; 8; 1]
           {| store := []; queue := NewPriorityQueue |}).
  - apply heap_inv_empty.
  - unfold max_int. simpl. lia.
Defined.

Lemma Idx_maintained_witness :
  let w : world Z :=
    {| store := [mkPqe 5 5 1; mkPqe 3 3 0]; queue := {| Seq := [1%nat; 0%nat] |} |} in
  (exists p e w', heap_Pop w = Ok (p, w') /\ idx_inv w' /\
     ~ resident w' p /\ store w' !! p = Some e /\ Idx e = -1) /\
  (exists w', Update (fun t : Z => t) 0%nat 1 w = Ok (tt, w') /\ idx_inv w').
Proof.
  intros w.
  assert (idx_inv w) as Hinv.
  { intros [|[|i]] p Hi; simpl in Hi; simplify_eq; eexists; split; done. }
  assert (sized w) as Hsized by (unfold sized, max_int; simpl; lia).
  destruct (Idx_maintained (fun t : Z => t) w Hinv Hsized)
    as (_ & Hupd & Hpop & _).
  split.
  - apply Hpop. discriminate.
  - apply Hupd. by exists 1%nat.
Defined.

Lemma heap_inv_two_others :
  heap_inv (Frame := Z)
    {| store := [mkPqe 3 3 0; mkPqe 7 7 1];
       queue := {| Seq := [0%nat; 1%nat] |} |}.
Proof.
  split_and!.
  - intros [|[|i]] p Hi; simpl in Hi; simplify_eq; eexists; split; done.
  - unfold sized, max_int; simpl; lia.
  - intros p c _ Hpc Hc. simpl in Hc. unfold is_child in Hpc.
    assert (p = 0%nat /\ c = 1%nat) as [-> ->] by lia.
    vm_compute. discriminate.
Qed.

(** C8 on a queue that holds two other entries, with keys 3 and 7: a frame
    with key 5 is added and gets the handle 2.  Updated to a frame with key
    1, below the old key and every other, the entry is popped first;
    updated to a frame with key 9, above them, it is popped last; the other
    entries come out at their own keys either way. *)
Lemma Update_pop_order_witness :
  let w : world Z :=
    {| store := [mkPqe 3 3 0; mkPqe 7 7 1];
       queue := {| Seq := [0%nat; 1%nat] |} |} in
  (exists w1 w2 w3,
     Add (fun t : Z => t) 5 w = Ok ((2%nat, None), w1) /\
     key w1 2%nat = Unix 0 5 /\
     Update (fun t : Z => t) 2%nat 1 w1 = Ok (tt, w2) /\
     PopAll w2
     = Ok ([(2%nat, Unix 0 1); (0%nat, Unix 0 3); (1%nat, Unix 0 7)], w3)) /\
  (exists w1 w2 w3,
     Add (fun t : Z => t) 5 w = Ok ((2%nat, None), w1) /\
     key w1 2%nat = Unix 0 5 /\
     Update (fun t : Z => t) 2%nat 9 w1 = Ok (tt, w2) /\
     PopAll w2
     = Ok ([(0%nat, Unix 0 3); (1%nat, Unix 0 7); (2%nat, Unix 0 9)], w3)).
Proof.
  intros w. split.
  - destruct (Update_pop_order (fun t : Z => t) w 5 1 heap_inv_two_others)
      as (E & w1 & w2 & out & w3 & Hadd & Hk & Hupd & Hpop & _).
    { unfold max_int. simpl. lia. }
    pose proof Hadd as Hadd'. vm_compute in Hadd'.
    injection Hadd' as HE Hw1. subst E w1.
    pose proof Hupd as Hupd'. vm_compute in Hupd'.
    injection Hupd' as Hw2. subst w2.
    pose proof Hpop as Hpop'. vm_compute in Hpop'.
    injection Hpop' as Hout Hw3. subst out w3.
    eexists _, _, _. split_and!; [exact Hadd|exact Hk|exact Hupd|exact Hpop].
  - destruct (Update_pop_order (fun t : Z => t) w 5 9 heap_inv_two_others)
      as (E & w1 & w2 & out & w3 & Hadd & Hk & Hupd & Hpop & _).
    { unfold max_int. simpl. lia. }
    pose proof Hadd as Hadd'. vm_compute in Hadd'.
    injection Hadd' as HE Hw1. subst E w1.
    pose proof Hupd as Hupd'. vm_compute in Hupd'.
    injection Hupd' as Hw2. subst w2.
    pose proof Hpop as Hpop'. vm_compute in Hpop'.
    injection Hpop' as Hout Hw3. subst out w3.
    eexists _, _, _. split_and!; [exact Hadd|exact Hk|exact Hupd|exact Hpop].
Defined.

(** ** More about the ring buffer: the rest of [tfbuf.go] *)

Section RingExtras.

Context {Frame : Type}.
Implicit Types (b : FrameRingBuf Frame) (a me : slice Frame) (p out : operand Frame)
  (l : list Frame).

(** X1: when the readable region does not wrap ([Beg + Readable <= N]),
    [TwoContig] returns the readable slots, oldest first, as its first slice
    and an empty second slice. *)
Theorem TwoContig_contiguous b makeCopy :
  ring_inv b -> Beg b + Readable b <= N b ->
  TwoContig b makeCopy = Ok (contents b, []).
Proof.
  intros Hinv Hfit. pose proof (ring_inv_bound b Hinv) as Hb.
  pose proof Hinv as ([Hs Hc] & Hlen & HR & HB & HB').
  unfold TwoContig, add64.
  rewrite !wrap_id by (unfold in_int, min_int, max_int in *; lia).
  rewrite decide_True by done.
  destruct (reslice_within (A b) (Beg b) (Beg b + Readable b))
    as (v & -> & Hv); [done|lia|lia|].
  rewrite bind_Ok, Hv. do 2 f_equal.
  rewrite contents_straight by done. do 2 f_equal. lia.
Qed.

(** X2: [RingWriteFrames] appends.  From a slice [p] that shares nothing
    with the buffer, it stores the first [n = min(len(p), N - Readable)]
    elements of [p], in order, behind the readable ones, also when the free
    region wraps; [Readable] grows by [n].  From any slice, also one of the
    buffer's own array, it does so when the [n] slots that it fills end
    before the end of the array, since one [copy] then does it all. *)
Theorem RingWriteFrames_appends b p :
  ring_inv b -> op_wf (A b) p ->
  joint p = 0%nat \/
    Z.min (oplen p) (N b - Readable b) <= N b - slot b (Readable b) ->
  exists b' err,
    RingWriteFrames b p = Ok (b', Z.min (oplen p) (N b - Readable b), err) /\
    ring_inv b' /\
    Readable b' = Readable b + Z.min (oplen p) (N b - Readable b) /\
    contents b'
      = contents b
        ++ take (Z.to_nat (Z.min (oplen p) (N b - Readable b)))
                (op_vals (A b) p).
Proof.
  intros Hinv Hwf Hcond.
  destruct (RingWriteFrames_spec b p Hinv Hwf)
    as (b' & w & Hrun & Hinv' & _ & _ & _ & HR' & Hc & _ & Hw & _).
  rewrite (Hw Hcond) in Hc.
  eexists b', _. split; [exact Hrun|]. done.
Qed.

(** X3: the contract in the comment of [RingWriteFrames], for every slice
    [p], also one that shares cells with the array: it returns
    [0 <= n <= len(p)], and a non-nil error ([io.ErrShortWrite]) exactly
    when [n < len(p)]. *)
Theorem RingWriteFrames_short_iff b p :
  ring_inv b -> op_wf (A b) p ->
  exists b' n err,
    RingWriteFrames b p = Ok (b', n, err) /\
    0 <= n <= oplen p /\
    (n < oplen p <-> err = Some ErrShortWrite) /\
    (n = oplen p <-> err = None).
Proof.
  intros Hinv Hwf. pose proof Hinv as (_ & _ & HR & _).
  destruct (RingWriteFrames_spec b p Hinv Hwf) as (b' & w & Hrun & _).
  eexists b', _, _. split; [exact Hrun|]. unfold oplen in *.
  case_decide; split_and!; try lia; split; intros; try done; try lia.
Qed.

(** X4: what goes in comes out: after writing, from a slice of its own, a
    [p] that fits, reading into a slice of its own that is long enough
    returns the slots that were readable followed by [p], in that order, and
    leaves the buffer empty. *)
Theorem write_then_read_all b (p out : list Frame) :
  ring_inv b -> p <> [] ->
  Z.of_nat (length p) <= N b - Readable b ->
  Readable b + Z.of_nat (length p) <= Z.of_nat (length out) ->
  exists b1 b2,
    RingWriteFrames b (Own p) = Ok (b1, Z.of_nat (length p), None) /\
    RingReadFrames b1 (Own out)
      = Ok (b2,
            Own ((contents b ++ p)
                 ++ drop (Z.to_nat (Readable b) + length p) out),
            Readable b + Z.of_nat (length p), None) /\
    Readable b2 = 0 /\ contents b2 = [].
Proof.
  intros Hinv Hp Hfit Hout. pose proof Hinv as (_ & _ & HR & _).
  assert (0 < length p)%nat as Hlp by (destruct p; simpl; [done|lia]).
  destruct (RingWriteFrames_own b p Hinv)
    as (b1 & Hrun & Hinv1 & HN1 & _ & _ & HR1 & Hc1 & _).
  rewrite Z.min_l in Hrun, HR1, Hc1 by lia.
  rewrite decide_False in Hrun by lia.
  rewrite Nat2Z.id, firstn_all in Hc1.
  pose proof (length_contents b1 Hinv1) as Hlc1.
  assert (out <> []) as Hout' by (intros ->; simpl in *; lia).
  destruct (readAndMaybeAdvance_data b1 out true Hinv1 Hout' ltac:(lia))
    as (b2 & Hread & Hadv).
  rewrite Z.min_r in Hread, Hadv by lia.
  destruct (Advance_spec b1 (Readable b1) Hinv1 ltac:(lia))
    as (b2' & Hadv' & _ & _ & _ & HR2 & _ & Hc2).
  rewrite Hadv' in Hadv. simplify_eq.
  exists b1, b2. split; [exact Hrun|]. split_and!.
  - unfold RingReadFrames. rewrite Hread, HR1. do 4 f_equal.
    rewrite take_ge by lia. rewrite Hc1. do 3 f_equal. lia.
  - lia.
  - rewrite Hc2. apply drop_ge. lia.
Qed.

(** X5: [Advance(n)] with [n > 0] drops the [min(n, Readable)] oldest
    readable slots and nothing else: [Readable] never goes negative, [Beg]
    moves on modulo [N], the array is not touched; with [n <= 0] it does
    nothing. *)
Theorem Advance_drops b n :
  ring_inv b -> 0 < N b ->
  (n <= 0 -> Advance b n = Ok b) /\
  (0 < n ->
   exists b', Advance b n = Ok b' /\ ring_inv b' /\
     A b' = A b /\ N b' = N b /\
     Readable b' = Readable b - Z.min n (Readable b) /\
     Beg b' = (Beg b + Z.min n (Readable b)) mod N b /\
     contents b' = drop (Z.to_nat (Z.min n (Readable b))) (contents b)).
Proof.
  intros Hinv HN. pose proof Hinv as (_ & _ & HR & _). split.
  - intros Hn. unfold Advance. by rewrite decide_True.
  - intros Hn.
    destruct (Advance_spec b n Hinv ltac:(lia))
      as (b' & Hrun & Hinv' & HA & HN' & HR' & HB' & Hc).
    replace (0 `max` (n `min` Readable b)) with (n `min` Readable b)
      in HR', HB', Hc by lia.
    exists b'. split_and!; try done.
    pose proof Hinv as (_ & _ & _ & HB & HBN).
    rewrite HB'. unfold slot. case_decide.
    + symmetry. apply Z.mod_small. lia.
    + symmetry. apply mod_wrapped; lia.
Qed.

(** X6: a buffer of capacity 0 (as [NewFrameRingBuf(0)] makes) takes
    nothing and gives nothing: every write from a slice that is not empty
    returns [n = 0] with [io.ErrShortWrite], every read into one returns
    [n = 0] with [io.EOF] and leaves the slice as it was, [TwoContig] returns
    two empty slices, and [Advance(n)] with [n > 0] panics on the division
    by [N]. *)
Theorem zero_capacity b :
  ring_inv b -> N b = 0 ->
  (forall p, oplen p <> 0 -> RingWriteFrames b p = Ok (b, 0, Some ErrShortWrite)) /\
  (forall p, oplen p <> 0 -> RingReadFrames b p = Ok (b, p, 0, Some EOF)) /\
  (forall p, oplen p <> 0 -> RingReadWithoutAdvance b p = Ok (b, p, 0, Some EOF)) /\
  (forall makeCopy, TwoContig b makeCopy = Ok ([], [])) /\
  (forall n, 0 < n -> Advance b n = Panic DivideByZero).
Proof.
  intros Hinv HN. pose proof Hinv as (_ & _ & HR & HB & HB').
  assert (Readable b = 0) as HR0 by lia.
  split_and!.
  - intros p Hp. unfold RingWriteFrames. cbn [RingWriteFrames_loop].
    rewrite decide_False by done.
    rewrite HN, HR0. done.
  - intros p Hp. unfold RingReadFrames.
    rewrite read_nothing by (left; done). by rewrite decide_False.
  - intros p Hp. unfold RingReadWithoutAdvance.
    rewrite read_nothing by (left; done). by rewrite decide_False.
  - intros makeCopy. assert (Beg b = 0) as HB0 by lia.
    unfold TwoContig. rewrite HB0, HR0, HN.
    change (add64 0 0) with 0. rewrite decide_True by done.
    unfold reslice. rewrite decide_True by (unfold cap; lia). done.
  - intros n Hn. by apply Advance_zero_capacity.
Qed.

(** X7: [Reset] forgets the data without touching the array: after it a
    non-empty read returns [n = 0] with [io.EOF], and a write starts over at
    slot 0 with the whole capacity free, so that the buffer then holds the
    first [min(len(p), N)] elements that [p] held when the write began, also
    when [p] is a slice of the array itself: one [copy] stores them. *)
Theorem Reset_forgets b :
  ring_inv b ->
  A (Reset b) = A b /\ N (Reset b) = N b /\
  (forall p, oplen p <> 0 ->
     RingReadFrames (Reset b) p = Ok (Reset b, p, 0, Some EOF)) /\
  (forall p, op_wf (A b) p -> exists b' err,
     RingWriteFrames (Reset b) p = Ok (b', Z.min (oplen p) (N b), err) /\
     Beg b' = 0 /\
     contents b' = take (Z.to_nat (Z.min (oplen p) (N b))) (op_vals (A b) p)).
Proof.
  intros Hinv. destruct (Reset_spec b Hinv) as [Hinv0 Hc0].
  pose proof Hinv as (_ & _ & HR & _).
  split_and!; try done.
  - intros p Hp. unfold RingReadFrames.
    rewrite read_nothing by (left; done). by rewrite decide_False.
  - intros p Hwf.
    destruct (RingWriteFrames_spec (Reset b) p Hinv0 Hwf)
      as (b' & w & Hrun & _ & _ & HB & _ & _ & Hc & _ & Hw & _).
    cbn [Reset N Readable Beg A] in Hrun, HB, Hc, Hw.
    rewrite Z.sub_0_r in Hrun, Hw. rewrite Hc0 in Hc.
    rewrite Hw in Hc.
    { eexists b', _. split; [exact Hrun|]. done. }
    right. unfold slot. cbn [Reset N Readable Beg].
    destruct (decide (0 + 0 < N b)); lia.
Qed.

(** X8: whichever branch [Adopt(me)] takes, the buffer then holds exactly
    the elements of [me]: a read into a slice long enough, also one of the
    array itself, returns them in order in front of what the slice held
    behind them, and empties the buffer; and when [len(me) >= N] the buffer
    is full, so a non-empty write stores nothing and returns
    [io.ErrShortWrite]. *)
Theorem Adopt_holds_me b me out :
  ring_inv b -> addressable me -> (0 < slen me)%nat ->
  op_wf (A (Adopt b me)) out -> len me <= oplen out ->
  contents (Adopt b me) = elems me /\
  (exists b' out',
     RingReadFrames (Adopt b me) out = Ok (b', out', len me, None) /\
     op_vals (A b') out'
       = elems me ++ drop (slen me) (op_vals (A (Adopt b me)) out) /\
     (forall l, out = Own l -> out' = Own (elems me ++ drop (slen me) l)) /\
     Readable b' = 0) /\
  (N b <= len me -> forall p, oplen p <> 0 ->
     RingWriteFrames (Adopt b me) p = Ok (Adopt b me, 0, Some ErrShortWrite)).
Proof.
  intros Hinv Hme Hpos Hwf Hout. destruct (Adopt_spec b me Hinv Hme) as [Hinv' Hc].
  pose proof (length_contents _ Hinv') as Hlc.
  pose proof (length_elems me (proj1 Hme)) as Hlme.
  assert (Readable (Adopt b me) = len me) as HR.
  { rewrite <- Hlc, Hc, Hlme. done. }
  assert (Beg (Adopt b me) = 0) as HB.
  { unfold Adopt, copy. by case_decide. }
  pose proof Hinv' as (_ & _ & HRN & _).
  unfold len, oplen in *. split; [done|]. split.
  - destruct (readAndMaybeAdvance_spec (Adopt b me) out true Hinv' Hwf)
      as (a & out' & b' & Hread & Hinv1 & _ & _ & _ & Hadv & Hdrop & Htake
          & _ & HOwn); [unfold oplen; lia|lia|].
    unfold oplen in *. rewrite HR, Z.min_r, Nat2Z.id in * by lia.
    destruct (Advance_spec _ (Z.of_nat (slen me)) Hinv1)
      as (b2 & Hadv' & _ & HA2 & _ & HR2 & _); [simpl; lia|].
    rewrite Hadv' in Hadv. simplify_eq. cbn [Readable A] in *.
    rewrite Hc in Htake, HOwn.
    rewrite (take_ge (elems me)) in Htake, HOwn by lia.
    exists b', out'. split_and!.
    + exact Hread.
    + rewrite HA2, <- (take_drop (slen me) (op_vals a out')).
      rewrite Htake by (right; lia). by rewrite Hdrop.
    + exact HOwn.
    + lia.
  - intros HN p Hp.
    assert (N (Adopt b me) = Readable (Adopt b me)) as Hfull.
    { rewrite HR. unfold Adopt, copy.
      case_decide; unfold len in *; simpl; [done|lia]. }
    unfold RingWriteFrames. cbn [RingWriteFrames_loop].
    rewrite decide_False by done. rewrite Hfull.
    unfold sub64. rewrite Z.sub_diag. done.
Qed.

End RingExtras.

(** *** The same at concrete buffers *)

Lemma ring_inv_no_capacity :
  ring_inv {| A := Slice ([] : list Z) 0; N := 0; Beg := 0; Readable := 0 |}.
Proof.
  unfold ring_inv, addressable, len, cap, max_int; simpl. split_and!; lia.
Qed.

Lemma addressable_small (l : list Z) n :
  (n <= length l)%nat -> (length l <= 100)%nat -> addressable (Slice l n).
Proof.
  intros Hn Hl. unfold addressable, cap, max_int; simpl. lia.
Qed.

Lemma TwoContig_contiguous_witness :
  TwoContig {| A := Slice [1; 2; 3; 0] 4; N := 4; Beg := 1; Readable := 2 |} false
  = Ok ([2; 3], []).
Proof.
  apply (TwoContig_contiguous
           {| A := Slice [1; 2; 3; 0] 4; N := 4; Beg := 1; Readable := 2 |} false).
  - unfold ring_inv, addressable, len, cap, max_int; simpl. split_and!; lia.
  - simpl. lia.
Defined.

(** A slice of its own, written across the wrap; and the slice [b.A[1:2]]
    of the array itself, which one copy stores. *)
Lemma RingWriteFrames_appends_witness :
  let b := {| A := Slice [5; 0; 0; 4] 4; N := 4; Beg := 3; Readable := 2 |} in
  (exists b' err,
     RingWriteFrames b (Own [6; 7; 8]) = Ok (b', 2, err) /\
     ring_inv b' /\ Readable b' = 4 /\ contents b' = [4; 5; 6; 7]) /\
  (exists b' err,
     RingWriteFrames b (Operand [] 1 1 []) = Ok (b', 1, err) /\
     ring_inv b' /\ Readable b' = 3 /\ contents b' = [4; 5; 0]).
Proof.
  intros b. split.
  - apply (RingWriteFrames_appends b (Own [6; 7; 8]) ring_inv_partly_filled).
    + apply op_wf_Own.
    + by left.
  - apply (RingWriteFrames_appends b (Operand [] 1 1 []) ring_inv_partly_filled).
    + unfold op_wf; simpl. lia.
    + right. vm_compute. discriminate.
Defined.

Lemma RingWriteFrames_short_iff_witness :
  let b := {| A := Slice [5; 0; 0; 4] 4; N := 4; Beg := 3; Readable := 2 |} in
  exists b' n err,
    RingWriteFrames b (Own [6; 7; 8]) = Ok (b', n, err) /\
    0 <= n <= 3 /\
    (n < 3 <-> err = Some ErrShortWrite) /\ (n = 3 <-> err = None).
Proof.
  intros b.
  exact (RingWriteFrames_short_iff b (Own [6; 7; 8]) ring_inv_partly_filled
           (op_wf_Own _ _)).
Defined.

Lemma write_then_read_all_witness :
  let b := {| A := Slice [5; 0; 0; 4] 4; N := 4; Beg := 3; Readable := 2 |} in
  exists b1 b2,
    RingWriteFrames b (Own [6; 7]) = Ok (b1, 2, None) /\
    RingReadFrames b1 (Own [0; 0; 0; 0; 0]) = Ok (b2, Own [4; 5; 6; 7; 0], 4, None) /\
    Readable b2 = 0 /\ contents b2 = [].
Proof.
  intros b.
  apply (write_then_read_all b [6; 7] [0; 0; 0; 0; 0] ring_inv_partly_filled).
  - discriminate.
  - simpl. lia.
  - simpl. lia.
Defined.

Lemma Advance_drops_witness :
  let b := {| A := Slice [5; 0; 0; 4] 4; N := 4; Beg := 3; Readable := 2 |} in
  exists b', Advance b 7 = Ok b' /\ ring_inv b' /\
    A b' = A b /\ N b' = N b /\
    Readable b' = 0 /\ Beg b' = 1 /\ contents b' = [].
Proof.
  intros b.
  apply (proj2 (Advance_drops b 7 ring_inv_partly_filled ltac:(simpl; lia))).
  lia.
Defined.

Lemma zero_capacity_witness :
  let b := {| A := Slice ([] : list Z) 0; N := 0; Beg := 0; Readable := 0 |} in
  RingWriteFrames b (Own [1]) = Ok (b, 0, Some ErrShortWrite) /\
  Advance b 1 = Panic DivideByZero.
Proof.
  intros b.
  destruct (zero_capacity b ring_inv_no_capacity eq_refl)
    as (Hwrite & _ & _ & _ & Hadv).
  split; [apply Hwrite; discriminate|apply Hadv; lia].
Defined.

(** After [Reset], a read, a write from a slice of its own, and a write
    from the slice [b.A[2:4]] of the array itself. *)
Lemma Reset_forgets_witness :
  let b := {| A := Slice [5; 0; 0; 4] 4; N := 4; Beg := 3; Readable := 2 |} in
  RingReadFrames (Reset b) (Own [0]) = Ok (Reset b, Own [0], 0, Some EOF) /\
  (exists b' err, RingWriteFrames (Reset b) (Own [6; 7]) = Ok (b', 2, err) /\
     Beg b' = 0 /\ contents b' = [6; 7]) /\
  (exists b' err, RingWriteFrames (Reset b) (Operand [] 2 2 []) = Ok (b', 2, err) /\
     Beg b' = 0 /\ contents b' = [0; 4]).
Proof.
  intros b.
  destruct (Reset_forgets b ring_inv_partly_filled) as (_ & _ & Hread & Hwrite).
  split_and!.
  - apply Hread. discriminate.
  - apply (Hwrite (Own [6; 7])). apply op_wf_Own.
  - apply (Hwrite (Operand [] 2 2 [])). unfold op_wf; simpl. lia.
Defined.

(** After [Adopt], a read into a slice of its own, and into the slice
    [A[1:4]] of the array itself. *)
Lemma Adopt_holds_me_witness :
  let b := {| A := Slice [5; 0; 0; 4] 4; N := 4; Beg := 3; Readable := 2 |} in
  (contents (Adopt b (Slice [1; 2; 9] 2)) = [1; 2] /\
   exists b', RingReadFrames (Adopt b (Slice [1; 2; 9] 2)) (Own [0; 0; 0])
                = Ok (b', Own [1; 2; 0], 2, None) /\ Readable b' = 0) /\
  (exists b' out',
     RingReadFrames (Adopt b (Slice [1; 2; 9] 2)) (Operand [] 1 3 [])
       = Ok (b', out', 2, None) /\
     op_vals (A b') out' = [1; 2; 4] /\ Readable b' = 0).
Proof.
  intros b. split.
  - destruct (Adopt_holds_me b (Slice [1; 2; 9] 2) (Own [0; 0; 0])
                ring_inv_partly_filled)
      as (Hc & (b' & out' & Hread & _ & HOwn & HR) & _).
    + apply addressable_small; simpl; lia.
    + simpl. lia.
    + apply op_wf_Own.
    + unfold len, oplen, opsize; simpl. lia.
    + split; [exact Hc|]. exists b'. rewrite (HOwn _ eq_refl) in Hread.
      split; [exact Hread|exact HR].
  - destruct (Adopt_holds_me b (Slice [1; 2; 9] 2) (Operand [] 1 3 [])
                ring_inv_partly_filled)
      as (_ & (b' & out' & Hread & Hvals & _ & HR) & _).
    + apply addressable_small; simpl; lia.
    + simpl. lia.
    + unfold op_wf; simpl. lia.
    + unfold len, oplen, opsize; simpl. lia.
    + exists b', out'. split_and!; [exact Hread|exact Hvals|exact HR].
Defined.

(** ** More about the priority queue: the rest of [pq.go] and its test *)

Section QueueExtras.

Context {Frame : Type} (Tm : Frame -> Z).
Implicit Types (w : world Frame) (e : Pqe Frame).

Lemma heap_least w (p q : nat) :
  heap_inv w -> Seq (queue w) !! 0%nat = Some p -> resident w q ->
  key w p <= key w q.
Proof.
  intros (Hinv & Hsized & Hheap) Hp [c Hc].
  rewrite <- (kth_keys w 0 p Hp), <- (kth_keys w c q Hc).
  apply (heap_root_min (length (keys w))); [done|].
  rewrite length_keys. by eapply lookup_lt_Some.
Qed.

(** X10: on a queue in heap order that is not empty, [First] returns the
    entry at the root, whose key is least among the entries in the queue,
    and changes nothing. *)
Theorem First_is_least w :
  heap_inv w -> Seq (queue w) <> [] ->
  exists p, First w = Ok (p, w) /\ resident w p /\
    forall q, resident w q -> key w p <= key w q.
Proof.
  intros Hinv Hne.
  destruct (Seq (queue w)) as [|p s] eqn:Hseq; [done|].
  exists p. split_and!.
  - unfold First. rewrite run_bind. unfold getSeq at 1. by rewrite Hseq.
  - exists 0%nat. by rewrite Hseq.
  - intros q Hq. apply (heap_least w p q Hinv); [by rewrite Hseq|done].
Qed.

(** X11: [heap.Pop] removes exactly the entry that [First] returns, one of
    least key; the other entries stay in the queue, in heap order and with
    their keys and values, and [Len] goes down by one. *)
Theorem heap_Pop_takes_First w :
  heap_inv w -> Seq (queue w) <> [] ->
  exists p w',
    First w = Ok (p, w) /\ heap_Pop w = Ok (p, w') /\ heap_inv w' /\
    Seq (queue w) ≡ₚ p :: Seq (queue w') /\ payloads w' = payloads w /\
    Len w' = Ok (Z.of_nat (length (Seq (queue w))) - 1, w') /\
    forall q, resident w' q -> key w' p <= key w' q.
Proof.
  intros (Hinv & Hsized & Hheap) Hne.
  assert (0 < length (Seq (queue w)))%nat as Hlen.
  { destruct (Seq (queue w)); [done|simpl; lia]. }
  destruct (heap_Pop_spec w Hinv Hsized Hlen)
    as (p & e & w' & Hp & Hpop & Hinv' & Hsized' & Hpay & Hperm & _ & _ & Hh).
  destruct (Hh Hheap) as [Hheap' Hmin].
  exists p, w'. split_and!; try done.
  - unfold First. rewrite run_bind. unfold getSeq at 1.
    unfold lift. by rewrite (index_ok _ 0 p).
  - rewrite Len_spec. do 2 f_equal.
    apply Permutation_length in Hperm. simpl in Hperm. lia.
  - intros q [c Hc]. rewrite !(key_payloads w w') by done.
    rewrite Forall_forall in Hmin. apply Hmin.
    apply list_elem_of_In. by eapply list_elem_of_lookup_2.
Qed.

(** X12: [Reinit] puts any sequence of entries that know their index into
    heap order, keeping the entries, their keys and their values; popping
    with [heap.Pop] until the queue is empty then returns the keys in
    non-decreasing order. *)
Theorem Reinit_then_pops_sorted w :
  idx_inv w -> sized w ->
  exists w1 out w2,
    Reinit w = Ok (tt, w1) /\ heap_inv w1 /\
    Seq (queue w1) ≡ₚ Seq (queue w) /\ payloads w1 = payloads w /\
    PopAll w1 = Ok (out, w2) /\ Sorted Z.le (out.*2) /\ out.*2 ≡ₚ keys w.
Proof.
  intros Hinv Hsized.
  destruct (Reinit_spec w Hinv Hsized)
    as (w1 & Hre & Hinv1 & Hsized1 & Hpay1 & Hperm1 & Hheap1).
  destruct (PopAll_spec w1) as (out & w2 & Hpop & _ & _ & _ & Hperm & Hkeys & Hsort);
    [done|].
  exists w1, out, w2. split_and!; try done.
  - by apply StronglySorted_Sorted.
  - rewrite Hkeys, Hperm. by apply keys_perm.
Qed.

(** X13: [Update(E, v)] on an entry in the queue replaces the value and the
    key of [E] and of no other entry, and neither adds nor removes an entry;
    heap order is kept. *)
Theorem Update_changes_only_E w (E : nat) (v : Frame) :
  heap_inv w -> resident w E ->
  exists w',
    Update Tm E v w = Ok (tt, w') /\ heap_inv w' /\
    Seq (queue w') ≡ₚ Seq (queue w) /\
    length (store w') = length (store w) /\
    payloads w' !! E = Some (v, Unix 0 (Tm v)) /\
    forall p, p <> E -> payloads w' !! p = payloads w !! p.
Proof.
  intros (Hinv & Hsized & Hheap) [i Hi].
  destruct (Update_spec Tm w E v i Hinv Hsized Hi)
    as (w' & Hupd & Hinv' & Hsized' & Hpay & Hperm & Hheap').
  destruct (Hinv i E Hi) as (e & He & _).
  pose proof (lookup_lt_Some _ _ _ He) as HE.
  exists w'. split_and!; try done.
  - split_and!; [done|done|by apply Hheap'].
  - apply (f_equal length) in Hpay. rewrite length_insert in Hpay.
    unfold payloads in Hpay. by rewrite !length_fmap in Hpay.
  - rewrite Hpay. apply list_lookup_insert_eq.
    unfold payloads. by rewrite length_fmap.
  - intros p Hp. rewrite Hpay. by apply list_lookup_insert_ne.
Qed.

(** X14: [Update] on a handle that was popped ([Idx = -1]) does not fail:
    it writes the new value and key into the detached entry and leaves the
    queue as it is, since [heap.Fix] at index -1 moves nothing.  On a nil
    handle it panics. *)
Theorem Update_detached_handle w (E : nat) (v : Frame) :
  (forall e, store w !! E = Some e -> Idx e = -1 ->
     Update Tm E v w
     = Ok (tt, {| store := <[E := {| Val := v; OrderBy := Unix 0 (Tm v);
                                    Idx := -1 |}]> (store w);
                  queue := queue w |})) /\
  (store w !! E = None -> Update Tm E v w = Panic NilDereference).
Proof.
  split.
  - intros e He Hidx. pose proof (lookup_lt_Some _ _ _ He) as HE.
    unfold Update. rewrite run_bind. unfold modify at 1. rewrite He.
    rewrite run_bind. unfold modify at 1. cbn [store queue].
    rewrite list_lookup_insert_eq by done. rewrite list_insert_insert_eq.
    rewrite run_bind. unfold load at 1. cbn [store].
    rewrite list_lookup_insert_eq by done.
    cbn [with_OrderBy with_Val Idx Val OrderBy]. rewrite Hidx.
    unfold heap_Fix. rewrite run_bind, Len_spec.
    rewrite run_bind. unfold down. rewrite down_loop_S. cbv zeta.
    change (add64 (mul64 2 (-1)) 1) with (-1).
    case_decide as Hbreak; [|lia]. rewrite run_ret.
    rewrite bool_decide_eq_false_2 by lia. cbn [negb].
    unfold up. change (Z.to_nat (-1)) with 0%nat.
    rewrite up_loop_S, run_bind. unfold lift.
    change (div64 (sub64 (-1) 1) 2) with (Ok (-1) : result Z).
    cbv beta iota. case_decide; [|done].
    rewrite run_ret. unfold with_OrderBy, with_Val. simpl. by rewrite Hidx.
  - intros He. unfold Update. rewrite run_bind. unfold modify at 1.
    by rewrite He.
Qed.

Lemma resident_allocated w (p : nat) :
  idx_inv w -> resident w p -> (p < length (store w))%nat.
Proof.
  intros Hinv [i Hi]. destruct (Hinv i p Hi) as (e & He & _).
  by eapply lookup_lt_Some.
Qed.

(** X15: [heap.Push] (the method [Push], then [up]) of an allocated entry
    that is not in the queue puts it in: the queue holds the old entries and
    the new one, each knows its index, heap order is kept and no key or
    value changes. *)
Theorem heap_Push_inserts w (x : nat) e :
  heap_inv w -> Z.of_nat (length (Seq (queue w))) < max_int ->
  store w !! x = Some e -> ~ resident w x ->
  exists w',
    heap_Push x w = Ok (tt, w') /\ heap_inv w' /\
    Seq (queue w') ≡ₚ Seq (queue w) ++ [x] /\ payloads w' = payloads w.
Proof.
  intros (Hinv & Hsized & Hheap) Hmax He Hfresh.
  pose proof (lookup_lt_Some _ _ _ He) as Hx.
  set (n := length (Seq (queue w))) in *.
  set (w1 := {| store := <[x := with_Idx (Z.of_nat n) e]> (store w);
                queue := {| Seq := Seq (queue w) ++ [x] |} |}).
  assert (payloads w1 = payloads w) as Hpay1.
  { apply (payloads_with_Idx w x e (Z.of_nat n) He). }
  assert (idx_inv w1) as Hinv1.
  { intros k p Hk. cbn [w1 queue Seq store] in *.
    destruct (decide (k < n)%nat) as [Hkn|Hkn].
    - rewrite lookup_app_l in Hk by done.
      destruct (Hinv k p Hk) as (e' & He' & Hidx). exists e'. split; [|done].
      rewrite list_lookup_insert_ne; [done|].
      intros ->. apply Hfresh. by exists k.
    - rewrite lookup_app_r in Hk by (fold n; lia). fold n in Hk.
      destruct (k - n)%nat eqn:Hkn'; simpl in Hk; [|done]. simplify_eq.
      rewrite list_lookup_insert_eq by done.
      eexists; split; [done|]. simpl. lia. }
  assert (keys w1 = keys w ++ [OrderBy e]) as Hkeys1.
  { unfold keys. cbn [w1 queue Seq]. rewrite fmap_app. f_equal.
    - apply list_fmap_ext. intros _ p _. by apply key_payloads.
    - simpl. f_equal. rewrite (key_payloads w w1 x Hpay1).
      by apply key_store. }
  assert (length (Seq (queue w1)) = S n) as Hlen1.
  { cbn [w1 queue Seq]. rewrite length_app. simpl. fold n. lia. }
  destruct (up_loop_spec (S (Z.to_nat (Z.of_nat n))) w1 (Z.of_nat n) Hinv1)
    as (w' & Hup & Hinv' & Hpay' & Hperm' & Hlen' & _ & Hheap');
    [unfold sized; lia|lia|lia|].
  rewrite Hlen1, Nat2Z.id in Hheap'.
  exists w'. split.
  { unfold heap_Push. rewrite run_bind. unfold Push.
    rewrite run_bind. unfold getSeq at 1. fold n. cbv zeta.
    rewrite run_bind. unfold modify at 1. rewrite He.
    rewrite run_bind. unfold getSeq at 1. cbn [queue Seq store].
    unfold setSeq. cbn [queue Seq store]. fold w1.
    rewrite run_bind, Len_spec, Hlen1.
    assert (sub64 (Z.of_nat (S n)) 1 = Z.of_nat n) as ->.
    { unfold sub64. rewrite wrap_id; [lia|].
      unfold in_int, min_int, max_int in *. lia. }
    unfold up. exact Hup. }
  split_and!.
  - split_and!; [done|unfold sized; lia|].
    unfold heap_ordered. rewrite length_keys, Hlen', Hlen1.
    apply Hheap'. rewrite Hkeys1.
    unfold n. rewrite <- (length_keys w). apply fix_inv_up.
    + by apply fix_inv_snoc.
    + intros c Hc Hcn. unfold is_child in Hc. lia.
  - by rewrite Hperm'.
  - by rewrite Hpay'.
Qed.

(** X16: the method [Pop] (what [heap.Pop] calls last, not [heap.Pop]
    itself) removes the last entry of [Seq], whatever its key, and detaches
    it; the entries before it stay as they are, in heap order. *)
Theorem Pop_removes_last w :
  heap_inv w -> Seq (queue w) <> [] ->
  exists p e w',
    Pop w = Ok (p, w') /\ Seq (queue w) = Seq (queue w') ++ [p] /\
    heap_inv w' /\ payloads w' = payloads w /\
    store w' !! p = Some e /\ Idx e = -1.
Proof.
  intros (Hinv & Hsized & Hheap) Hne.
  assert (0 < length (Seq (queue w)))%nat as Hlen.
  { destruct (Seq (queue w)); [done|simpl; lia]. }
  destruct (Pop_spec w Hinv Hsized Hlen)
    as (p & e & w' & Hp & Hpop & Hinv' & Hpay & Hseq & He & Hidx).
  set (n := length (Seq (queue w))) in *.
  exists p, e, w'. split_and!; try done.
  - rewrite Hseq. replace (n - 1)%nat with (pred n) in * by lia.
    rewrite <- (take_S_r _ _ _ Hp). symmetry. apply take_ge. lia.
  - split_and!; [done| |].
    + unfold sized in *. rewrite Hseq, length_take. lia.
    + assert (keys w' = take (n - 1) (keys w)) as Hk.
      { unfold keys. rewrite Hseq, fmap_take. f_equal.
        apply list_fmap_ext. intros _ q _. by apply key_payloads. }
      unfold heap_ordered. rewrite Hk, length_take, length_keys. fold n.
      intros x c _ Hxc Hc.
      assert (x < c)%nat by (unfold is_child in Hxc; lia).
      rewrite !kth_take by lia. apply Hheap; [lia|done|].
      rewrite length_keys. fold n. lia.
Qed.

(** X17: [Add] never fails: it returns a nil error and a fresh handle, which
    was not in the queue and is in it afterwards; the queue holds one entry
    more, the entries it had keep their keys and values, and heap order is
    kept. *)
Theorem Add_inserts w (f : Frame) :
  heap_inv w -> Z.of_nat (length (Seq (queue w))) < max_int ->
  exists E w',
    Add Tm f w = Ok ((E, None), w') /\ heap_inv w' /\
    store w !! E = None /\ ~ resident w E /\ resident w' E /\
    Seq (queue w') ≡ₚ Seq (queue w) ++ [E] /\
    payloads w' = payloads w ++ [(f, Unix 0 (Tm f))] /\
    Len w' = Ok (Z.of_nat (length (Seq (queue w))) + 1, w').
Proof.
  intros (Hinv & Hsized & Hheap) Hmax.
  destruct (Add_spec Tm w f Hinv Hmax)
    as (w' & Hadd & Hinv' & Hsized' & Hpay & Hperm & _ & Hheap').
  exists (length (store w)), w'. split_and!; try done.
  - split_and!; [done|done|by apply Hheap'].
  - by apply lookup_ge_None.
  - intros Hres. pose proof (resident_allocated w _ Hinv Hres). lia.
  - assert (length (store w) ∈ Seq (queue w')) as Hin.
    { rewrite Hperm. apply elem_of_app. right. by apply list_elem_of_singleton. }
    by apply list_elem_of_lookup in Hin.
  - rewrite Len_spec. do 2 f_equal.
    apply Permutation_length in Hperm. rewrite length_app in Hperm.
    simpl in Hperm. lia.
Qed.

Lemma add_descending_spec frames (m : Z) idxs : forall w,
  heap_inv w ->
  Z.of_nat (length (Seq (queue w))) + Z.of_nat (length idxs) <= max_int ->
  Forall (fun i => 0 <= sub64 m i < Z.of_nat (length frames)) idxs ->
  exists w',
    add_descending Tm frames m idxs w = Ok (tt, w') /\ heap_inv w' /\
    length (Seq (queue w')) = (length (Seq (queue w)) + length idxs)%nat.
Proof.
  induction idxs as [|i idxs IH]; intros w (Hinv & Hsized & Hheap) Hlen Hall.
  - exists w. simpl. split_and!; try done; lia.
  - inversion_clear Hall as [|? ? Hi Hrest]. simpl in Hlen.
    destruct (lookup_lt_is_Some_2 frames (Z.to_nat (sub64 m i)) ltac:(lia))
      as [f Hf].
    destruct (Add_spec Tm w f Hinv ltac:(lia))
      as (w1 & Hadd & Hinv1 & Hsized1 & _ & Hperm1 & _ & Hheap1).
    apply Permutation_length in Hperm1. rewrite length_app in Hperm1.
    simpl in Hperm1.
    destruct (IH w1) as (w' & Hrun & Hinv' & Hlen'); [|lia|done|].
    { split_and!; [done|done|by apply Hheap1]. }
    exists w'. split_and!; [|done|simpl; lia].
    cbn [add_descending]. rewrite run_bind.
    unfold lift at 1. rewrite (index_ok frames _ f) by (done || lia).
    rewrite run_bind, Hadd. exact Hrun.
Qed.

Lemma pop_checked_S fuel (prevTm : Time) :
  pop_checked (S fuel) prevTm =
    (n ← Len;
     if decide (n > 0) then
       item ← heap_Pop;
       e ← load item;
       rest ← pop_checked fuel (OrderBy e);
       mret (negb (Before (OrderBy e) prevTm) :: rest)
     else mret []) :> M Frame (list bool).
Proof. reflexivity. Qed.

Lemma pop_checked_spec fuel : forall w (prevTm : Time),
  heap_inv w -> (length (Seq (queue w)) < fuel)%nat ->
  (forall q, resident w q -> prevTm <= key w q) ->
  exists checks w',
    pop_checked fuel prevTm w = Ok (checks, w') /\
    Seq (queue w') = [] /\ payloads w' = payloads w /\
    length checks = length (Seq (queue w)) /\
    forall c, c ∈ checks -> c = true.
Proof.
  induction fuel as [|fuel IH];
    intros w prevTm (Hinv & Hsized & Hheap) Hfuel Hprev; [lia|].
  rewrite pop_checked_S, run_bind, Len_spec.
  destruct (decide (0 < length (Seq (queue w)))%nat) as [Hlen|Hlen].
  2:{ rewrite decide_False by lia. rewrite run_ret.
      assert (Seq (queue w) = []) as Hnil by (apply length_zero_iff_nil; lia).
      exists [], w. rewrite Hnil. split_and!; try done.
      intros c Hc. by apply elem_of_nil in Hc. }
  rewrite decide_True by lia.
  destruct (heap_Pop_spec w Hinv Hsized Hlen)
    as (p & e & w1 & Hp & Hpop & Hinv1 & Hsized1 & Hpay1 & Hperm1 & He & _ & Hh).
  destruct (Hh Hheap) as [Hheap1 Hmin].
  assert (forall q, key w1 q = key w q) as Hkey
    by (intros q; by apply key_payloads).
  assert (OrderBy e = key w p) as Hke by by rewrite <- Hkey, (key_store w1 p e He).
  rewrite run_bind, Hpop. rewrite run_bind. unfold load at 1. rewrite He.
  destruct (IH w1 (OrderBy e)) as (rest & w' & Hrun & Hnil & Hpay' & Hlen' & Hall').
  { done. }
  { apply Permutation_length in Hperm1. simpl in Hperm1. lia. }
  { intros q [k Hk]. rewrite Hke, Hkey.
    rewrite Forall_forall in Hmin. apply Hmin.
    apply list_elem_of_In. by eapply list_elem_of_lookup_2. }
  rewrite run_bind, Hrun, run_ret.
  exists (negb (Before (OrderBy e) prevTm) :: rest), w'.
  split_and!; try done.
  - by rewrite Hpay'.
  - apply Permutation_length in Hperm1. simpl in *. lia.
  - intros c Hc. apply elem_of_cons in Hc as [->|Hc]; [|by apply Hall'].
    unfold Before. rewrite bool_decide_eq_false_2; [done|].
    rewrite Hke. specialize (Hprev p ltac:(by exists 0%nat)). lia.
Qed.

(** X18: the test [Test001PqSorts] passes on every list of frames that is
    not empty, whatever their timestamps: the run does not panic, every
    assertion holds (the error of the extra [Add] is nil, and no entry popped
    is before the one popped before it), there is one assertion for the
    [Add] and one for each of the [n + 1] entries popped, and the queue is
    empty at the end. *)
Theorem Test001PqSorts_passes frames w :
  frames <> [] -> Z.of_nat (length frames) < max_int ->
  exists checks w',
    Test001PqSorts Tm frames w = Ok (checks, w') /\
    (forall c, c ∈ checks -> c = true) /\
    length checks = S (S (length frames)) /\
    Seq (queue w') = [].
Proof.
  intros Hne Hmax.
  assert (0 < length frames)%nat as Hpos.
  { destruct frames; [done|simpl; lia]. }
  set (n := Z.of_nat (length frames)).
  assert (sub64 n 1 = n - 1) as Hm.
  { unfold sub64. apply wrap_id. unfold in_int, min_int, max_int in *. lia. }
  unfold Test001PqSorts. fold n. cbv zeta. rewrite Hm.
  rewrite run_bind. unfold setSeq at 1. cbn [NewPriorityQueue].
  set (w0 := {| store := store w; queue := {| Seq := [] |} |}).
  destruct (add_descending_spec frames (n - 1) (seqZ 0 n) w0)
    as (w1 & Hrun1 & Hinv1 & Hlen1).
  { apply heap_inv_empty. }
  { rewrite length_seqZ. simpl. unfold max_int in *. lia. }
  { apply Forall_forall. intros i Hi. apply list_elem_of_In, elem_of_seqZ in Hi.
    unfold sub64. rewrite wrap_id; [lia|].
    unfold in_int, min_int, max_int in *. lia. }
  rewrite length_seqZ in Hlen1. cbn [w0 queue Seq length] in Hlen1.
  change ({| store := store w; queue := {| Seq := Seq NewPriorityQueue |} |}) with w0.
  rewrite run_bind, Hrun1.
  destruct (lookup_lt_is_Some_2 frames 0 Hpos) as [f0 Hf0].
  destruct (lookup_lt_is_Some_2 frames (Z.to_nat (n - 1)) ltac:(lia)) as [fl Hfl].
  rewrite run_bind. unfold lift at 1. rewrite (index_ok frames 0 f0) by done.
  destruct Hinv1 as (Hinv1 & Hsized1 & Hheap1).
  destruct (Add_spec Tm w1 f0 Hinv1 ltac:(lia))
    as (w2 & Hadd & Hinv2 & Hsized2 & _ & Hperm2 & _ & Hheap2).
  rewrite run_bind, Hadd. cbn [fst snd].
  rewrite run_bind. unfold lift at 1.
  rewrite (index_ok frames (n - 1) fl) by (done || lia).
  assert (length (store w1) ∈ Seq (queue w2)) as Hin.
  { rewrite Hperm2. apply elem_of_app. right. by apply list_elem_of_singleton. }
  apply list_elem_of_lookup in Hin as [i Hi].
  destruct (Update_spec Tm w2 (length (store w1)) fl i Hinv2 Hsized2 Hi)
    as (w3 & Hupd & Hinv3 & Hsized3 & _ & Hperm3 & Hheap3).
  rewrite run_bind, Hupd.
  assert (length (Seq (queue w3)) = S (length frames)) as Hlen3.
  { apply Permutation_length in Hperm2, Hperm3.
    rewrite length_app in Hperm2. simpl in Hperm2. lia. }
  destruct (lookup_lt_is_Some_2 (Seq (queue w3)) 0 ltac:(lia)) as [p Hp].
  destruct (Hinv3 0%nat p Hp) as (e & He & _).
  assert (heap_inv w3) as Hall3.
  { split_and!; [done|done|]. apply Hheap3. by apply Hheap2. }
  rewrite run_bind. unfold First. rewrite run_bind. unfold getSeq at 1.
  unfold lift at 1. rewrite (index_ok _ 0 p) by done.
  rewrite run_bind. unfold load at 1. rewrite He.
  rewrite run_bind, Len_spec, Hlen3.
  destruct (pop_checked_spec (S (Z.to_nat (Z.of_nat (S (length frames)))))
              w3 (OrderBy e) Hall3)
    as (checks & w' & Hrun & Hnil & _ & Hlen & Hall); [lia| |].
  { intros q Hq. rewrite <- (key_store w3 p e He). by apply heap_least. }
  rewrite run_bind, Hrun, run_ret.
  exists (true :: checks), w'. split_and!; try done.
  - intros c Hc. apply elem_of_cons in Hc as [->|Hc]; [done|by apply Hall].
  - simpl. lia.
Qed.

Lemma list_swap_twice {X} (i j : nat) (l : list X) :
  (i < length l)%nat -> (j < length l)%nat ->
  list_swap i j (list_swap i j l) = l.
Proof.
  intros Hi Hj. apply list_eq. intros k.
  rewrite list_swap_lookup by (by rewrite length_list_swap).
  rewrite !list_swap_lookup by done.
  repeat case_decide; subst; done.
Qed.

(** X19: [Swap] exchanges the entries at two indices of the queue and
    leaves the others where they are; the entries still know their index,
    no key or value changes, and a second [Swap] of the same indices puts
    the queue back as it was. *)
Theorem Swap_exchanges w (i j : Z) :
  idx_inv w ->
  0 <= i < Z.of_nat (length (Seq (queue w))) ->
  0 <= j < Z.of_nat (length (Seq (queue w))) ->
  exists w' w'',
    Swap i j w = Ok (tt, w') /\ idx_inv w' /\ payloads w' = payloads w /\
    Seq (queue w') !! Z.to_nat i = Seq (queue w) !! Z.to_nat j /\
    Seq (queue w') !! Z.to_nat j = Seq (queue w) !! Z.to_nat i /\
    (forall k : nat, k <> Z.to_nat i -> k <> Z.to_nat j ->
       Seq (queue w') !! k = Seq (queue w) !! k) /\
    Swap i j w' = Ok (tt, w'') /\ idx_inv w'' /\
    Seq (queue w'') = Seq (queue w) /\ payloads w'' = payloads w.
Proof.
  intros Hinv Hi Hj.
  destruct (Swap_spec w i j Hinv Hi Hj) as (w' & Hrun & Hinv' & Hpay & Hseq).
  assert (length (Seq (queue w')) = length (Seq (queue w))) as Hlen
    by (by rewrite Hseq, length_list_swap).
  destruct (Swap_spec w' i j Hinv') as (w'' & Hrun' & Hinv'' & Hpay' & Hseq');
    [lia..|].
  exists w', w''. split_and!; try done.
  - rewrite Hseq, list_swap_lookup by lia. by rewrite decide_True.
  - rewrite Hseq, list_swap_lookup by lia.
    case_decide as Hij; [by rewrite Hij|]. by rewrite decide_True.
  - intros k Hki Hkj. rewrite Hseq, list_swap_lookup by lia.
    by rewrite !decide_False.
  - rewrite Hseq', Hseq. apply list_swap_twice; lia.
  - by rewrite Hpay'.
Qed.

(** X20: [Less] compares the keys of the entries at two indices strictly
    and changes nothing: an entry is not less than itself, two entries are
    never each less than the other, and neither is less exactly when their
    keys are equal. *)
Theorem Less_strict w (i j : Z) :
  idx_inv w ->
  0 <= i < Z.of_nat (length (Seq (queue w))) ->
  0 <= j < Z.of_nat (length (Seq (queue w))) ->
  exists b c : bool,
    Less i j w = Ok (b, w) /\ Less j i w = Ok (c, w) /\
    (i = j -> b = false) /\ (b = true -> c = false) /\
    (b = false /\ c = false <->
     kth (keys w) (Z.to_nat i) = kth (keys w) (Z.to_nat j)).
Proof.
  intros Hinv Hi Hj.
  rewrite (Less_spec w i j Hinv Hi Hj), (Less_spec w j i Hinv Hj Hi).
  eexists _, _. split_and!; [done|done|..].
  - intros ->. apply bool_decide_eq_false_2. lia.
  - intros Hb%bool_decide_eq_true_1. apply bool_decide_eq_false_2. lia.
  - rewrite !bool_decide_eq_false. lia.
Qed.

End QueueExtras.

(** *** The same at concrete queues

    Two entries in the queue, the earlier one at the root, and a third that
    was popped. *)

Lemma heap_inv_two_entries :
  heap_inv (Frame := Z)
    {| store := [mkPqe 5 5 1; mkPqe 3 3 0; mkPqe 1 1 (-1)];
         queue := {| Seq := [1%nat; 0%nat] |} |}.
Proof.
  split_and!.
  - intros [|[|i]] p Hi; simpl in Hi; simplify_eq; eexists; split; done.
  - unfold sized, max_int; simpl; lia.
  - intros p c _ Hpc Hc. simpl in Hc. unfold is_child in Hpc.
    assert (p = 0%nat /\ c = 1%nat) as [-> ->] by lia.
    vm_compute. discriminate.
Qed.

Lemma popped_not_resident :
  ~ resident (Frame := Z)
      {| store := [mkPqe 5 5 1; mkPqe 3 3 0; mkPqe 1 1 (-1)];
         queue := {| Seq := [1%nat; 0%nat] |} |} 2%nat.
Proof. intros [[|[|i]] Hi]; simpl in Hi; done. Qed.

Lemma First_is_least_witness :
  let w : world Z :=
    {| store := [mkPqe 5 5 1; mkPqe 3 3 0; mkPqe 1 1 (-1)];
       queue := {| Seq := [1%nat; 0%nat] |} |} in
  exists p, First w = Ok (p, w) /\ resident w p /\
    forall q, resident w q -> key w p <= key w q.
Proof.
  intros w. apply (First_is_least w heap_inv_two_entries). discriminate.
Defined.

Lemma heap_Pop_takes_First_witness :
  let w : world Z :=
    {| store := [mkPqe 5 5 1; mkPqe 3 3 0; mkPqe 1 1 (-1)];
       queue := {| Seq := [1%nat; 0%nat] |} |} in
  exists p w',
    First w = Ok (p, w) /\ heap_Pop w = Ok (p, w') /\ heap_inv w' /\
    Seq (queue w) ≡ₚ p :: Seq (queue w') /\ payloads w' = payloads w /\
    Len w' = Ok (2 - 1, w') /\
    forall q, resident w' q -> key w' p <= key w' q.
Proof.
  intros w. apply (heap_Pop_takes_First w heap_inv_two_entries). discriminate.
Defined.

Lemma Reinit_then_pops_sorted_witness :
  let w : world Z :=
    {| store := [mkPqe 5 5 0; mkPqe 3 3 1; mkPqe 4 4 2];
       queue := {| Seq := [0%nat; 1%nat; 2%nat] |} |} in
  exists w1 out w2,
    Reinit w = Ok (tt, w1) /\ heap_inv w1 /\
    Seq (queue w1) ≡ₚ Seq (queue w) /\ payloads w1 = payloads w /\
    PopAll w1 = Ok (out, w2) /\ Sorted Z.le (out.*2) /\ out.*2 ≡ₚ keys w.
Proof.
  intros w. apply (Reinit_then_pops_sorted w).
  - intros [|[|[|i]]] p Hi; simpl in Hi; simplify_eq; eexists; split; done.
  - unfold sized, max_int; simpl; lia.
Defined.

Lemma Update_changes_only_E_witness :
  let w : world Z :=
    {| store := [mkPqe 5 5 1; mkPqe 3 3 0; mkPqe 1 1 (-1)];
       queue := {| Seq := [1%nat; 0%nat] |} |} in
  exists w',
    Update (fun t : Z => t) 1%nat 9 w = Ok (tt, w') /\ heap_inv w' /\
    Seq (queue w') ≡ₚ Seq (queue w) /\
    length (store w') = length (store w) /\
    payloads w' !! 1%nat = Some (9, Unix 0 9) /\
    forall p, p <> 1%nat -> payloads w' !! p = payloads w !! p.
Proof.
  intros w.
  apply (Update_changes_only_E (fun t : Z => t) w 1%nat 9 heap_inv_two_entries).
  by exists 0%nat.
Defined.

Lemma Update_detached_handle_witness :
  let w : world Z :=
    {| store := [mkPqe 5 5 1; mkPqe 3 3 0; mkPqe 1 1 (-1)];
       queue := {| Seq := [1%nat; 0%nat] |} |} in
  Update (fun t : Z => t) 2%nat 9 w
  = Ok (tt, {| store := [mkPqe 5 5 1; mkPqe 3 3 0; mkPqe 9 (Unix 0 9) (-1)];
               queue := queue w |}) /\
  Update (fun t : Z => t) 3%nat 9 w = Panic NilDereference.
Proof.
  intros w.
  destruct (Update_detached_handle (fun t : Z => t) w 2%nat 9) as [Hpopped _].
  destruct (Update_detached_handle (fun t : Z => t) w 3%nat 9) as [_ Hnil].
  split.
  - apply (Hpopped (mkPqe 1 1 (-1))); reflexivity.
  - apply Hnil. reflexivity.
Defined.

Lemma heap_Push_inserts_witness :
  let w : world Z :=
    {| store := [mkPqe 5 5 1; mkPqe 3 3 0; mkPqe 1 1 (-1)];
       queue := {| Seq := [1%nat; 0%nat] |} |} in
  exists w',
    heap_Push 2%nat w = Ok (tt, w') /\ heap_inv w' /\
    Seq (queue w') ≡ₚ Seq (queue w) ++ [2%nat] /\ payloads w' = payloads w.
Proof.
  intros w.
  apply (heap_Push_inserts w 2%nat (mkPqe 1 1 (-1)) heap_inv_two_entries).
  - unfold max_int. simpl. lia.
  - reflexivity.
  - exact popped_not_resident.
Defined.

Lemma Pop_removes_last_witness :
  let w : world Z :=
    {| store := [mkPqe 5 5 1; mkPqe 3 3 0; mkPqe 1 1 (-1)];
       queue := {| Seq := [1%nat; 0%nat] |} |} in
  exists p e w',
    Pop w = Ok (p, w') /\ Seq (queue w) = Seq (queue w') ++ [p] /\
    heap_inv w' /\ payloads w' = payloads w /\
    store w' !! p = Some e /\ Idx e = -1.
Proof.
  intros w. apply (Pop_removes_last w heap_inv_two_entries). discriminate.
Defined.

Lemma Add_inserts_witness :
  let w : world Z :=
    {| store := [mkPqe 5 5 1; mkPqe 3 3 0; mkPqe 1 1 (-1)];
       queue := {| Seq := [1%nat; 0%nat] |} |} in
  exists E w',
    Add (fun t : Z => t) 4 w = Ok ((E, None), w') /\ heap_inv w' /\
    store w !! E = None /\ ~ resident w E /\ resident w' E /\
    Seq (queue w') ≡ₚ Seq (queue w) ++ [E] /\
    payloads w' = payloads w ++ [(4, Unix 0 4)] /\
    Len w' = Ok (2 + 1, w').
Proof.
  intros w. apply (Add_inserts (fun t : Z => t) w 4 heap_inv_two_entries).
  unfold max_int. simpl. lia.
Defined.

Lemma Test001PqSorts_passes_witness :
  exists checks w',
    Test001PqSorts (fun t : Z => t) [3; 1; 2]
      {| store := []; queue := NewPriorityQueue |} = Ok (checks, w') /\
    (forall c, c ∈ checks -> c = true) /\
    length checks = 5%nat /\
    Seq (queue w') = [].
Proof.
  apply (Test001PqSorts_passes (fun t : Z => t) [3; 1; 2]
           {| store := []; queue := NewPriorityQueue |}).
  - discriminate.
  - unfold max_int. simpl. lia.
Defined.

Lemma Swap_exchanges_witness :
  let w : world Z :=
    {| store := [mkPqe 5 5 1; mkPqe 3 3 0; mkPqe 1 1 (-1)];
       queue := {| Seq := [1%nat; 0%nat] |} |} in
  exists w' w'',
    Swap 0 1 w = Ok (tt, w') /\ idx_inv w' /\ payloads w' = payloads w /\
    Seq (queue w') !! 0%nat = Some 0%nat /\
    Seq (queue w') !! 1%nat = Some 1%nat /\
    (forall k : nat, k <> 0%nat -> k <> 1%nat ->
       Seq (queue w') !! k = Seq (queue w) !! k) /\
    Swap 0 1 w' = Ok (tt, w'') /\ idx_inv w'' /\
    Seq (queue w'') = Seq (queue w) /\ payloads w'' = payloads w.
Proof.
  intros w.
  apply (Swap_exchanges w 0 1 (proj1 heap_inv_two_entries)); simpl; lia.
Defined.

Lemma Less_strict_witness :
  let w : world Z :=
    {| store := [mkPqe 5 5 1; mkPqe 3 3 0; mkPqe 1 1 (-1)];
       queue := {| Seq := [1%nat; 0%nat] |} |} in
  exists b c : bool,
    Less 0 1 w = Ok (b, w) /\ Less 1 0 w = Ok (c, w) /\
    (0 = 1 -> b = false) /\ (b = true -> c = false) /\
    (b = false /\ c = false <-> kth (keys w) 0 = kth (keys w) 1).
Proof.
  intros w.
  apply (Less_strict w 0 1 (proj1 heap_inv_two_entries)); simpl; lia.
Defined.
